(** * Space Invaders (raylib): the per-frame simulation of [src/main.cpp]

    A shallow embedding of the game's classes ([GameObject], [Bullet],
    [Player], [Enemy], [Upgrade], [Game]) and of one iteration of the loop
    of [Game::Run], followed by the properties of the engine.

    Conventions of the embedding.
    - C++ [float] is IEEE-754 binary32: the operations are those of the
      standard library's [SpecFloat] at precision 24 and maximal exponent
      128, rounding to nearest even.  Every expression is evaluated in
      single precision, one rounding per operation.
    - C++ [int] is embedded in [Z].  Signed overflow is undefined behaviour
      in C++, so the model describes the executions in which every [int]
      stays within its range.
    - [std::vector] is a [list], in iteration order; [std::vector<Enemy*>]
      is a list of enemies, as each pointer is pushed once and owned by the
      vector.
    - The calls into raylib that read the outside world are explicit: the
      frame time and the keys are arguments, the random generator is a
      tape of raw draws kept in the state, the screen is the 800x600
      window opened by [Game::Run], and the two geometric tests are the
      operations of the class [Raylib].
    - Drawing changes no state and is left out. *)

From Stdlib Require Import String.
From Stdlib Require Import ZArith List Bool Lia Permutation.
From Stdlib Require Import Floats.SpecFloat.
Import ListNotations.
Open Scope Z_scope.

(** ** Single-precision floats *)

Definition float := spec_float.

Module F32.

Definition prec : Z := 24.
Definition emax : Z := 128.

Definition add : float -> float -> float := SFadd prec emax.
Definition sub : float -> float -> float := SFsub prec emax.
Definition mul : float -> float -> float := SFmul prec emax.
Definition div : float -> float -> float := SFdiv prec emax.
Definition abs : float -> float := SFabs.

(** [a < b], [a <= b], [a > b], [a >= b]: all false on NaN. *)
Definition ltb (a b : float) : bool := SFltb a b.
Definition leb (a b : float) : bool := SFleb a b.
Definition gtb (a b : float) : bool := SFltb b a.
Definition geb (a b : float) : bool := SFleb b a.

(** [static_cast<float>(n)] and the integral literals [300.0f], ... *)
Definition of_int (n : Z) : float := binary_normalize prec emax n 0 false.

(** The literal [n/d] in decimal notation, correctly rounded. *)
Definition ratio (n d : Z) : float := div (of_int n) (of_int d).

Definition is_nan (a : float) : bool :=
  match a with S754_nan => true | _ => false end.

End F32.

Arguments F32.add : simpl never.
Arguments F32.sub : simpl never.
Arguments F32.mul : simpl never.
Arguments F32.div : simpl never.
Arguments F32.ltb : simpl never.
Arguments F32.leb : simpl never.
Arguments F32.gtb : simpl never.
Arguments F32.geb : simpl never.
Arguments F32.of_int : simpl never.
Arguments F32.ratio : simpl never.

Declare Scope f32_scope.
Delimit Scope f32_scope with f32.
Infix "+" := F32.add : f32_scope.
Infix "-" := F32.sub : f32_scope.
Infix "*" := F32.mul : f32_scope.
Infix "/" := F32.div : f32_scope.
Infix "<?" := F32.ltb : f32_scope.
Infix "<=?" := F32.leb : f32_scope.
Infix ">?" := F32.gtb : f32_scope.
Infix ">=?" := F32.geb : f32_scope.

(** ** raylib: vectors, rectangles, colours, screen, random values *)

Record Vector2 := mkVector2 { x : float; y : float }.

Record Rectangle := mkRectangle
  { rx : float; ry : float; rwidth : float; rheight : float }.

Inductive Color := YELLOW | RED | BLUE | GREEN | PURPLE | ORANGE.

(** [InitWindow(800, 600, ...)] in [Game::Run]. *)
Definition GetScreenWidth : Z := 800.
Definition GetScreenHeight : Z := 600.

(** The geometric tests of raylib, called by [Game::CheckCollisions]. *)
Class Raylib := {
  CheckCollisionCircleRec : Vector2 -> float -> Rectangle -> bool;
  CheckCollisionRecs : Rectangle -> Rectangle -> bool
}.

(** Modelled from the spec: raylib's [GetRandomValue] is not part of the
    repository; the spec asks for an injectable generator drawing uniformly
    in the closed range [[min, max]].  The generator is a tape of raw draws
    and a cursor; a call reduces the raw draw into the range, both ends
    included, and advances the cursor. *)
Record RandState := mkRand { tape : nat -> Z; cursor : nat }.

Definition GetRandomValue (min max : Z) (s : RandState) : Z * RandState :=
  let lo := Z.min min max in
  let hi := Z.max min max in
  (lo + tape s (cursor s) mod (hi - lo + 1),
   mkRand (tape s) (S (cursor s))).

(** ** enums of the game *)

Inductive EnemyType := SIMPLE | MID | HARD | BOSS.
Inductive UpgradeType := HEALTH | FIRE_RATE | ATTACK_RANGE.
Inductive GameState := PLAYING | GAME_OVER.

Definition is_BOSS (t : EnemyType) : bool :=
  match t with BOSS => true | _ => false end.

(** [static_cast<UpgradeType>(n)]; [n] is a draw in [[0, 2]]. *)
Definition UpgradeType_of_int (n : Z) : UpgradeType :=
  match n with
  | 0 => HEALTH
  | 1 => FIRE_RATE
  | _ => ATTACK_RANGE
  end.

(** ** AudioSystem: the calls received, most recent first *)

Inductive AudioCall :=
  | AudioUpdate | PlayMusic | StopMusic
  | PlayLaser | PlayExplosion | PlayUpgrade.

Definition AudioSystem := list AudioCall.

(** ** GameObject *)

Module GameObject.

Record t := mk {
  position : Vector2;
  speed : float;
  health : Z;
  color : Color;
  width : float;
  height : float
}.

Definition GetHitbox (o : t) : Rectangle :=
  mkRectangle (x (position o)) (y (position o)) (width o) (height o).

Definition GetPosition (o : t) : Vector2 := position o.

Definition IsDead (o : t) : bool := health o <=? 0.

Definition GetHealth (o : t) : Z := health o.

Definition TakeDamage (amount : Z) (o : t) : t :=
  mk (position o) (speed o) (health o - amount) (color o) (width o) (height o).

Definition with_position (p : Vector2) (o : t) : t :=
  mk p (speed o) (health o) (color o) (width o) (height o).

Definition with_health (h : Z) (o : t) : t :=
  mk (position o) (speed o) h (color o) (width o) (height o).

End GameObject.

(** ** Bullet *)

Module Bullet.

Record t := mk {
  position : Vector2;
  speed : float;
  isPlayerBullet : bool;
  color : Color;
  damage : Z
}.

(** [Bullet(pos, isPlayer, dmg = 1)] *)
Definition new (pos : Vector2) (isPlayer : bool) (dmg : Z) : t :=
  mk pos
     (if isPlayer then F32.of_int (-500) else F32.of_int 300)
     isPlayer
     (if isPlayer then YELLOW else RED)
     dmg.

Definition Update (dt : float) (b : t) : t :=
  mk (mkVector2 (x (position b)) (y (position b) + speed b * dt)%f32)
     (speed b) (isPlayerBullet b) (color b) (damage b).

Definition IsOutOfScreen (b : t) : bool :=
  (y (position b) <? F32.of_int 0)%f32
  || (y (position b) >? F32.of_int GetScreenHeight)%f32.

End Bullet.

(** ** Player *)

Module Player.

Record t := mk {
  base : GameObject.t;
  fireCooldown : float;
  fireRate : float;
  attackRange : float;
  maxHealth : Z
}.

Definition with_base (o : GameObject.t) (p : t) : t :=
  mk o (fireCooldown p) (fireRate p) (attackRange p) (maxHealth p).

Definition health (p : t) : Z := GameObject.health (base p).
Definition GetHitbox (p : t) : Rectangle := GameObject.GetHitbox (base p).
Definition IsDead (p : t) : bool := GameObject.IsDead (base p).
Definition TakeDamage (amount : Z) (p : t) : t :=
  with_base (GameObject.TakeDamage amount (base p)) p.

(** [Player()], with the member initialisers. *)
Definition new : t :=
  mk (GameObject.mk (mkVector2 (F32.of_int 400) (F32.of_int 550))
                    (F32.of_int 300) 3 BLUE (F32.of_int 50) (F32.of_int 20))
     (F32.of_int 0) (F32.ratio 5 10) (F32.of_int 50) 3.

Definition Reset (p : t) : t :=
  mk (GameObject.with_health (maxHealth p)
        (GameObject.with_position
           (mkVector2 (F32.of_int 400) (F32.of_int 550)) (base p)))
     (F32.of_int 0) (fireRate p) (attackRange p) (maxHealth p).

Definition IncreaseMaxHealth (p : t) : t :=
  mk (GameObject.with_health (health p + 1) (base p))
     (fireCooldown p) (fireRate p) (attackRange p) (maxHealth p + 1).

Definition UpgradeFireRate (p : t) : t :=
  mk (base p) (fireCooldown p)
     (if (fireRate p - F32.ratio 1 10 <? F32.ratio 1 10)%f32
      then F32.ratio 1 10
      else (fireRate p - F32.ratio 1 10)%f32)
     (attackRange p) (maxHealth p).

Definition UpgradeAttackRange (p : t) : t :=
  mk (base p) (fireCooldown p) (fireRate p)
     (attackRange p + F32.of_int 10)%f32 (maxHealth p).

(** [Update(dt, bullets, audio)]; the keys are those of [IsKeyDown].
    The result is the player, the bullets, the audio calls and the
    returned flag. *)
Definition Update (dt : float) (keyLeft keyRight : bool)
    (bullets : list Bullet.t) (audio : AudioSystem) (p : t)
  : t * list Bullet.t * AudioSystem * bool :=
  let o := base p in
  let px := x (GameObject.position o) in
  let px := if keyLeft then (px - GameObject.speed o * dt)%f32 else px in
  let px := if keyRight then (px + GameObject.speed o * dt)%f32 else px in
  let px := if (px <? F32.of_int 0)%f32 then F32.of_int 0 else px in
  let lim := (F32.of_int GetScreenWidth - GameObject.width o)%f32 in
  let px := if (px >? lim)%f32 then lim else px in
  let pos := mkVector2 px (y (GameObject.position o)) in
  let o := GameObject.with_position pos o in
  let cd := (fireCooldown p - dt)%f32 in
  if (cd <=? F32.of_int 0)%f32 then
    (mk o (fireRate p) (fireRate p) (attackRange p) (maxHealth p),
     bullets ++ [Bullet.new
                   (mkVector2 (px + GameObject.width o / F32.of_int 2)%f32
                              (y pos))
                   true 1],
     PlayLaser :: audio,
     true)
  else
    (mk o cd (fireRate p) (attackRange p) (maxHealth p),
     bullets, audio, false).

End Player.

(** ** Enemy *)

Module Enemy.

Record t := mk {
  base : GameObject.t;
  shootTimer : float;
  shootInterval : float;
  type : EnemyType;
  scoreValue : Z
}.

(** The function-local statics of [Enemy::Update]: one copy for the
    process, shared by every boss and never reset. *)
Record Statics := mkStatics {
  directionChangeTimer : float;
  direction : Vector2
}.

Definition statics0 : Statics :=
  mkStatics (F32.of_int 0) (mkVector2 (F32.of_int 0) (F32.of_int 1)).

Definition with_base (o : GameObject.t) (e : t) : t :=
  mk o (shootTimer e) (shootInterval e) (type e) (scoreValue e).

Definition health (e : t) : Z := GameObject.health (base e).
Definition GetHitbox (e : t) : Rectangle := GameObject.GetHitbox (base e).
Definition GetPosition (e : t) : Vector2 := GameObject.GetPosition (base e).
Definition IsDead (e : t) : bool := GameObject.IsDead (base e).
Definition TakeDamage (amount : Z) (e : t) : t :=
  with_base (GameObject.TakeDamage amount (base e)) e.

(** [Enemy(pos, t)] *)
Definition new (pos : Vector2) (ty : EnemyType) : t :=
  let size := if is_BOSS ty then F32.of_int 120 else F32.of_int 40 in
  let obj col hp spd := GameObject.mk pos (F32.of_int spd) hp col size size in
  match ty with
  | SIMPLE => mk (obj RED 1 50) (F32.of_int 0) (F32.of_int 2) ty 10
  | MID => mk (obj GREEN 1 70) (F32.of_int 0) (F32.of_int 2) ty 25
  | HARD => mk (obj PURPLE 2 90) (F32.of_int 0) (F32.of_int 2) ty 50
  | BOSS => mk (obj ORANGE 7 40) (F32.of_int 0) (F32.of_int 2) ty 500
  end.

(** The three bullets of a boss volley, [n] of them still to fire. *)
Fixpoint spread (n : nat) (o : GameObject.t) (bullets : list Bullet.t)
    (rng : RandState) : list Bullet.t * RandState :=
  match n with
  | O => (bullets, rng)
  | S n' =>
    let '(r, rng') := GetRandomValue (-20) 20 rng in
    let px := x (GameObject.position o) in
    let py := y (GameObject.position o) in
    let b := Bullet.new
               (mkVector2
                  (px + GameObject.width o / F32.of_int 2 + F32.of_int r)%f32
                  (py + GameObject.height o)%f32)
               false 2 in
    spread n' o (bullets ++ [b]) rng'
  end.

(** [Update(dt, bullets, audio)]; [audio] is not used by the body.  The
    result is the enemy, the bullets, the statics, the generator and the
    returned flag. *)
Definition Update (dt : float) (bullets : list Bullet.t) (st : Statics)
    (rng : RandState) (e : t)
  : t * list Bullet.t * Statics * RandState * bool :=
  let o := base e in
  if is_BOSS (type e) then
    let tm := (directionChangeTimer st + dt)%f32 in
    let '(st, rng) :=
      if (tm >=? F32.ratio 15 10)%f32 then
        let '(rx, rng1) := GetRandomValue (-10) 10 rng in
        let '(ry, rng2) := GetRandomValue 5 10 rng1 in
        (mkStatics (F32.of_int 0)
           (mkVector2 (F32.of_int rx / F32.of_int 10)%f32
                      (F32.of_int ry / F32.of_int 10)%f32),
         rng2)
      else (mkStatics tm (direction st), rng) in
    let px := (x (GameObject.position o)
               + x (direction st) * GameObject.speed o * dt)%f32 in
    let py := (y (GameObject.position o)
               + y (direction st) * GameObject.speed o * dt)%f32 in
    let px := if (px <? F32.of_int 0)%f32 then F32.of_int 0 else px in
    let lim := (F32.of_int GetScreenWidth - GameObject.width o)%f32 in
    let px := if (px >? lim)%f32 then lim else px in
    let o := GameObject.with_position (mkVector2 px py) o in
    let tm := (shootTimer e + dt)%f32 in
    if (tm >=? F32.ratio 5 10)%f32 then
      let '(bullets, rng) := spread 3 o bullets rng in
      (mk o (F32.of_int 0) (shootInterval e) (type e) (scoreValue e),
       bullets, st, rng, true)
    else
      (mk o tm (shootInterval e) (type e) (scoreValue e),
       bullets, st, rng, false)
  else
    let py := (y (GameObject.position o) + GameObject.speed o * dt)%f32 in
    let o :=
      GameObject.with_position (mkVector2 (x (GameObject.position o)) py) o in
    let tm := (shootTimer e + dt)%f32 in
    if (tm >=? shootInterval e)%f32 then
      (mk o (F32.of_int 0) (shootInterval e) (type e) (scoreValue e),
       bullets
         ++ [Bullet.new
               (mkVector2
                  (x (GameObject.position o)
                   + GameObject.width o / F32.of_int 2)%f32
                  (py + GameObject.height o)%f32)
               false 1],
       st, rng, true)
    else
      (mk o tm (shootInterval e) (type e) (scoreValue e),
       bullets, st, rng, false).

End Enemy.

(** ** Upgrade *)

Module Upgrade.

Record t := mk {
  fallSpeed : float;
  type : UpgradeType;
  position : Vector2;
  timer : float;
  active : bool
}.

(** [Upgrade upgrade; upgrade.position = pos; upgrade.type = ty;] *)
Definition new (pos : Vector2) (ty : UpgradeType) : t :=
  mk (F32.of_int 100) ty pos (F32.of_int 5) true.

Definition Update (dt : float) (u : t) : t :=
  if negb (active u) then u
  else mk (fallSpeed u) (type u)
          (mkVector2 (x (position u))
                     (y (position u) + fallSpeed u * dt)%f32)
          (timer u - dt)%f32 (active u).

(** [Apply(player, audio)]: the player is not touched by the body. *)
Definition Apply (audio : AudioSystem) (u : t) : t * AudioSystem :=
  if negb (active u) then (u, audio)
  else (mk (fallSpeed u) (type u) (position u) (timer u) false,
        PlayUpgrade :: audio).

Definition IsActive (u : t) : bool :=
  active u && (timer u >? F32.of_int 0)%f32.

Definition GetHitbox (u : t) : Rectangle :=
  mkRectangle (x (position u)) (y (position u))
              (F32.of_int 30) (F32.of_int 30).

End Upgrade.

(** ** Game *)

Module Game.

Definition Notification : Type := string * float.

(** The members of [Game], then the process-wide state its methods
    reach: the statics of [Enemy::Update] and raylib's generator. *)
Record t := mk {
  player : Player.t;
  enemies : list Enemy.t;
  bullets : list Bullet.t;
  upgrades : list Upgrade.t;
  score : Z;
  enemySpawnTimer : float;
  bossSpawnTimer : float;
  bossesDefeated : Z;
  bossActive : bool;
  audio : AudioSystem;
  notifications : list Notification;
  state : GameState;
  statics : Enemy.Statics;
  rand : RandState
}.

Definition with_player v g :=
  mk v (enemies g) (bullets g) (upgrades g) (score g) (enemySpawnTimer g)
     (bossSpawnTimer g) (bossesDefeated g) (bossActive g) (audio g)
     (notifications g) (state g) (statics g) (rand g).
Definition with_enemies v g :=
  mk (player g) v (bullets g) (upgrades g) (score g) (enemySpawnTimer g)
     (bossSpawnTimer g) (bossesDefeated g) (bossActive g) (audio g)
     (notifications g) (state g) (statics g) (rand g).
Definition with_bullets v g :=
  mk (player g) (enemies g) v (upgrades g) (score g) (enemySpawnTimer g)
     (bossSpawnTimer g) (bossesDefeated g) (bossActive g) (audio g)
     (notifications g) (state g) (statics g) (rand g).
Definition with_upgrades v g :=
  mk (player g) (enemies g) (bullets g) v (score g) (enemySpawnTimer g)
     (bossSpawnTimer g) (bossesDefeated g) (bossActive g) (audio g)
     (notifications g) (state g) (statics g) (rand g).
Definition with_score v g :=
  mk (player g) (enemies g) (bullets g) (upgrades g) v (enemySpawnTimer g)
     (bossSpawnTimer g) (bossesDefeated g) (bossActive g) (audio g)
     (notifications g) (state g) (statics g) (rand g).
Definition with_enemySpawnTimer v g :=
  mk (player g) (enemies g) (bullets g) (upgrades g) (score g) v
     (bossSpawnTimer g) (bossesDefeated g) (bossActive g) (audio g)
     (notifications g) (state g) (statics g) (rand g).
Definition with_bossSpawnTimer v g :=
  mk (player g) (enemies g) (bullets g) (upgrades g) (score g)
     (enemySpawnTimer g) v (bossesDefeated g) (bossActive g) (audio g)
     (notifications g) (state g) (statics g) (rand g).
Definition with_bossesDefeated v g :=
  mk (player g) (enemies g) (bullets g) (upgrades g) (score g)
     (enemySpawnTimer g) (bossSpawnTimer g) v (bossActive g) (audio g)
     (notifications g) (state g) (statics g) (rand g).
Definition with_bossActive v g :=
  mk (player g) (enemies g) (bullets g) (upgrades g) (score g)
     (enemySpawnTimer g) (bossSpawnTimer g) (bossesDefeated g) v (audio g)
     (notifications g) (state g) (statics g) (rand g).
Definition with_audio v g :=
  mk (player g) (enemies g) (bullets g) (upgrades g) (score g)
     (enemySpawnTimer g) (bossSpawnTimer g) (bossesDefeated g)
     (bossActive g) v (notifications g) (state g) (statics g) (rand g).
Definition with_notifications v g :=
  mk (player g) (enemies g) (bullets g) (upgrades g) (score g)
     (enemySpawnTimer g) (bossSpawnTimer g) (bossesDefeated g)
     (bossActive g) (audio g) v (state g) (statics g) (rand g).
Definition with_state v g :=
  mk (player g) (enemies g) (bullets g) (upgrades g) (score g)
     (enemySpawnTimer g) (bossSpawnTimer g) (bossesDefeated g)
     (bossActive g) (audio g) (notifications g) v (statics g) (rand g).
Definition with_statics v g :=
  mk (player g) (enemies g) (bullets g) (upgrades g) (score g)
     (enemySpawnTimer g) (bossSpawnTimer g) (bossesDefeated g)
     (bossActive g) (audio g) (notifications g) (state g) v (rand g).
Definition with_rand v g :=
  mk (player g) (enemies g) (bullets g) (upgrades g) (score g)
     (enemySpawnTimer g) (bossSpawnTimer g) (bossesDefeated g)
     (bossActive g) (audio g) (notifications g) (state g) (statics g) v.

(** [notifications.emplace_back(text, 2.0f)] *)
Definition notify (text : string) (g : t) : t :=
  with_notifications (notifications g ++ [(text, F32.of_int 2)]) g.

Definition ResetGame (g : t) : t :=
  mk (Player.Reset (player g)) [] [] [] 0 (F32.of_int 0) (F32.of_int 0)
     0 false (PlayMusic :: StopMusic :: audio g) [] (state g)
     (statics g) (rand g).

(** The body of the [for] loop of [SpawnEnemies], [n] rounds to go. *)
Fixpoint spawnWave (n : nat) (g : t) : t :=
  match n with
  | O => g
  | S n' =>
    let ty := if bossesDefeated g =? 0 then SIMPLE
              else if bossesDefeated g =? 1 then MID
              else HARD in
    let '(r, rng) := GetRandomValue 0 (GetScreenWidth - 40) (rand g) in
    let pos := mkVector2 (F32.of_int r) (F32.of_int (-40)) in
    spawnWave n'
      (with_enemies (enemies g ++ [Enemy.new pos ty]) (with_rand rng g))
  end.

Definition SpawnEnemies (dt : float) (g : t) : t :=
  let tm := (enemySpawnTimer g + dt)%f32 in
  if (tm >=? F32.of_int 2)%f32 then
    let '(enemyCount, rng) := GetRandomValue 1 4 (rand g) in
    spawnWave (Z.to_nat enemyCount)
      (with_rand rng (with_enemySpawnTimer (F32.of_int 0) g))
  else with_enemySpawnTimer tm g.

Definition SpawnBoss (dt : float) (g : t) : t :=
  if bossActive g then g
  else
    let tm := (bossSpawnTimer g + dt)%f32 in
    if (tm >=? F32.of_int 60)%f32 then
      let pos :=
        mkVector2
          (F32.of_int GetScreenWidth / F32.of_int 2 - F32.of_int 60)%f32
          (F32.of_int (-120)) in
      notify "BOSS INCOMING!"
        (with_enemies (enemies g ++ [Enemy.new pos BOSS])
           (with_bossActive true (with_bossSpawnTimer (F32.of_int 0) g)))
    else with_bossSpawnTimer tm g.

Definition UpdateBullets (dt : float) (g : t) : t :=
  with_bullets
    (filter (fun b => negb (Bullet.IsOutOfScreen b))
            (map (Bullet.Update dt) (bullets g)))
    g.

Definition SpawnUpgrade (pos : Vector2) (isBossDrop : bool) (g : t) : t :=
  let '(r, rng) := GetRandomValue 0 2 (rand g) in
  with_upgrades (upgrades g ++ [Upgrade.new pos (UpgradeType_of_int r)])
    (with_rand rng g).

(** First loop of [UpdateEnemies]: every enemy is updated in turn, on
    the shared bullets, statics and generator. *)
Fixpoint updateEach (dt : float) (es : list Enemy.t)
    (bs : list Bullet.t) (st : Enemy.Statics) (rng : RandState)
  : list Enemy.t * list Bullet.t * Enemy.Statics * RandState :=
  match es with
  | [] => ([], bs, st, rng)
  | e :: rest =>
    let '(e', bs1, st1, rng1, _) := Enemy.Update dt bs st rng e in
    let '(rest', bs2, st2, rng2) := updateEach dt rest bs1 st1 rng1 in
    (e' :: rest', bs2, st2, rng2)
  end.

(** What [UpdateEnemies] does for one dead enemy before erasing it. *)
Definition onDeath (e : Enemy.t) (g : t) : t :=
  let dropPos := Enemy.GetPosition e in
  let g :=
    if is_BOSS (Enemy.type e) then
      notify "BOSS DEFEATED!"
        (SpawnUpgrade dropPos true
           (with_bossActive false
              (with_bossesDefeated (bossesDefeated g + 1) g)))
    else
      let '(r, rng) := GetRandomValue 0 100 (rand g) in
      if r <? 20 then SpawnUpgrade dropPos false (with_rand rng g)
      else with_rand rng g in
  with_score (score g + Enemy.scoreValue e) g.

(** Second loop of [UpdateEnemies] over the enemies [es] still to visit:
    the enemies kept, in order, and the game after the side effects. *)
Fixpoint reap (es : list Enemy.t) (g : t) : list Enemy.t * t :=
  match es with
  | [] => ([], g)
  | e :: rest =>
    if Enemy.IsDead e then reap rest (onDeath e g)
    else let '(kept, g') := reap rest g in (e :: kept, g')
  end.

Definition UpdateEnemies (dt : float) (g : t) : t :=
  let '(es, bs, st, rng) :=
    updateEach dt (enemies g) (bullets g) (statics g) (rand g) in
  let g := with_rand rng (with_statics st (with_bullets bs g)) in
  let '(kept, g) := reap es g in
  with_enemies kept g.

Definition UpdateUpgrades (dt : float) (g : t) : t :=
  with_upgrades
    (filter Upgrade.IsActive (map (Upgrade.Update dt) (upgrades g))) g.

Fixpoint tick (dt : float) (ns : list Notification) : list Notification :=
  match ns with
  | [] => []
  | (text, remaining) :: rest =>
    let remaining := (remaining - dt)%f32 in
    if (remaining <=? F32.of_int 0)%f32 then tick dt rest
    else (text, remaining) :: tick dt rest
  end.

Definition UpdateNotifications (dt : float) (g : t) : t :=
  with_notifications (tick dt (notifications g)) g.

Section Collisions.
Context {R : Raylib}.

(** Inner loop of the first pass of [CheckCollisions]: the enemies
    after the bullet [b] met them, and [bulletHit]. *)
Fixpoint hitFirst (b : Bullet.t) (es : list Enemy.t)
  : list Enemy.t * bool :=
  match es with
  | [] => ([], false)
  | e :: rest =>
    if CheckCollisionCircleRec (Bullet.position b) (F32.of_int 5)
                               (Enemy.GetHitbox e)
    then (Enemy.TakeDamage (Bullet.damage b) e :: rest, true)
    else let '(rest', hit) := hitFirst b rest in (e :: rest', hit)
  end.

(** First pass: the bullets of the player against the enemies. *)
Fixpoint bulletsVsEnemies (bs : list Bullet.t) (es : list Enemy.t)
    (au : AudioSystem) : list Bullet.t * list Enemy.t * AudioSystem :=
  match bs with
  | [] => ([], es, au)
  | b :: rest =>
    if negb (Bullet.isPlayerBullet b) then
      let '(rest', es', au') := bulletsVsEnemies rest es au in
      (b :: rest', es', au')
    else
      let '(es1, bulletHit) := hitFirst b es in
      if bulletHit then bulletsVsEnemies rest es1 (PlayExplosion :: au)
      else
        let '(rest', es', au') := bulletsVsEnemies rest es1 au in
        (b :: rest', es', au')
  end.

(** Second pass: the enemies against the player. *)
Fixpoint enemiesVsPlayer (es : list Enemy.t) (p : Player.t)
    (au : AudioSystem) : Player.t * AudioSystem :=
  match es with
  | [] => (p, au)
  | e :: rest =>
    if CheckCollisionRecs (Player.GetHitbox p) (Enemy.GetHitbox e)
    then enemiesVsPlayer rest
           (Player.TakeDamage (if is_BOSS (Enemy.type e) then 2 else 1) p)
           (PlayExplosion :: au)
    else enemiesVsPlayer rest p au
  end.

(** Third pass: the bullets of the enemies against the player. *)
Fixpoint bulletsVsPlayer (bs : list Bullet.t) (p : Player.t)
    (au : AudioSystem) : list Bullet.t * Player.t * AudioSystem :=
  match bs with
  | [] => ([], p, au)
  | b :: rest =>
    if Bullet.isPlayerBullet b then
      let '(rest', p', au') := bulletsVsPlayer rest p au in
      (b :: rest', p', au')
    else if CheckCollisionCircleRec (Bullet.position b) (F32.of_int 5)
                                    (Player.GetHitbox p)
    then bulletsVsPlayer rest (Player.TakeDamage (Bullet.damage b) p)
                         (PlayExplosion :: au)
    else
      let '(rest', p', au') := bulletsVsPlayer rest p au in
      (b :: rest', p', au')
  end.

(** Fourth pass: the upgrades against the player. *)
Fixpoint upgradesVsPlayer (us : list Upgrade.t) (p : Player.t)
    (ns : list Notification) (au : AudioSystem)
  : list Upgrade.t * Player.t * list Notification * AudioSystem :=
  match us with
  | [] => ([], p, ns, au)
  | u :: rest =>
    if Upgrade.IsActive u
       && CheckCollisionRecs (Player.GetHitbox p) (Upgrade.GetHitbox u)
    then
      let '(p1, ns1) :=
        match Upgrade.type u with
        | HEALTH =>
          (Player.IncreaseMaxHealth p,
           ns ++ [("MAX HEALTH +1"%string, F32.of_int 2)])
        | FIRE_RATE =>
          (Player.UpgradeFireRate p,
           ns ++ [("FIRE RATE UP!"%string, F32.of_int 2)])
        | ATTACK_RANGE =>
          (Player.UpgradeAttackRange p,
           ns ++ [("ATTACK RANGE +"%string, F32.of_int 2)])
        end in
      let '(_, au1) := Upgrade.Apply au u in
      upgradesVsPlayer rest p1 ns1 au1
    else
      let '(rest', p', ns', au') := upgradesVsPlayer rest p ns au in
      (u :: rest', p', ns', au')
  end.

Definition CollidePlayerBullets (g : t) : t :=
  let '(bs, es, au) := bulletsVsEnemies (bullets g) (enemies g) (audio g) in
  with_audio au (with_enemies es (with_bullets bs g)).

Definition CollideEnemies (g : t) : t :=
  let '(p, au) := enemiesVsPlayer (enemies g) (player g) (audio g) in
  with_audio au (with_player p g).

Definition CollideEnemyBullets (g : t) : t :=
  let '(bs, p, au) := bulletsVsPlayer (bullets g) (player g) (audio g) in
  with_audio au (with_player p (with_bullets bs g)).

Definition CollideUpgrades (g : t) : t :=
  let '(us, p, ns, au) :=
    upgradesVsPlayer (upgrades g) (player g) (notifications g) (audio g) in
  with_audio au
    (with_notifications ns (with_player p (with_upgrades us g))).

Definition CheckCollisions (g : t) : t :=
  CollideUpgrades
    (CollideEnemyBullets (CollideEnemies (CollidePlayerBullets g))).

(** [UpdateGame(dt)]; the keys are those read by [Player::Update]. *)
Definition UpdateGame (dt : float) (keyLeft keyRight : bool) (g : t) : t :=
  let au := AudioUpdate :: audio g in
  let '(p, bs, au, _) :=
    Player.Update dt keyLeft keyRight (bullets g) au (player g) in
  let g := with_audio au (with_bullets bs (with_player p g)) in
  if Player.IsDead (player g) then with_state GAME_OVER g
  else
    CheckCollisions
      (UpdateNotifications dt
         (UpdateUpgrades dt
            (UpdateEnemies dt
               (UpdateBullets dt (SpawnBoss dt (SpawnEnemies dt g)))))).

(** What one iteration of the loop of [Run] reads from raylib. *)
Record Frame := mkFrame {
  GetFrameTime : float;
  KEY_LEFT : bool;
  KEY_RIGHT : bool;
  KEY_ENTER : bool
}.

(** The body of the [while] loop of [Run], without [Render]. *)
Definition RunFrame (f : Frame) (g : t) : t :=
  match state g with
  | PLAYING => UpdateGame (GetFrameTime f) (KEY_LEFT f) (KEY_RIGHT f) g
  | GAME_OVER =>
    if KEY_ENTER f then with_state PLAYING (ResetGame g) else g
  end.

(** The game when the loop of [Run] is entered: the members as
    initialised, [audio.PlayMusic()] done, the generator as found. *)
Definition initial (rng : RandState) : t :=
  mk Player.new [] [] [] 0 (F32.of_int 0) (F32.of_int 0) 0 false
     [PlayMusic] [] PLAYING Enemy.statics0 rng.

(** The states of the game at the head of the loop of [Run]. *)
Inductive reachable : t -> Prop :=
| reachable_initial rng : reachable (initial rng)
| reachable_frame f g : reachable g -> reachable (RunFrame f g).

End Collisions.

End Game.

(** ** raylib's geometric tests

    The tests as raylib implements them (rshapes.c), to run the game on
    concrete inputs.  The properties below hold for any instance. *)

Definition raylib : Raylib := {|
  CheckCollisionCircleRec center radius rec :=
    (let recCenterX := rx rec + rwidth rec / F32.of_int 2 in
     let recCenterY := ry rec + rheight rec / F32.of_int 2 in
     let dx := F32.abs (x center - recCenterX) in
     let dy := F32.abs (y center - recCenterY) in
     if dx >? rwidth rec / F32.of_int 2 + radius then false
     else if dy >? rheight rec / F32.of_int 2 + radius then false
     else if dx <=? rwidth rec / F32.of_int 2 then true
     else if dy <=? rheight rec / F32.of_int 2 then true
     else
       let cornerDistanceSq :=
         (dx - rwidth rec / F32.of_int 2) * (dx - rwidth rec / F32.of_int 2)
         + (dy - rheight rec / F32.of_int 2)
           * (dy - rheight rec / F32.of_int 2) in
       cornerDistanceSq <=? radius * radius)%f32;
  CheckCollisionRecs rec1 rec2 :=
    ((rx rec1 <? rx rec2 + rwidth rec2)
     && (rx rec1 + rwidth rec1 >? rx rec2)
     && (ry rec1 <? ry rec2 + rheight rec2)
     && (ry rec1 + rheight rec1 >? ry rec2))%f32%bool
|}.

(** ** Concrete inputs *)

(** A generator whose raw draws are all [r]. *)
Definition constantRand (r : Z) : RandState := mkRand (fun _ => r) 0.

(** A frame of [dt] seconds with no key down. *)
Definition idleFrame (dt : float) : Game.Frame :=
  Game.mkFrame dt false false false.

(** The frame on which ENTER is pressed. *)
Definition enterFrame : Game.Frame :=
  Game.mkFrame (F32.ratio 1 60) false false true.

(** A game about to start, its generator drawing 0 for ever. *)
Definition freshGame : Game.t := Game.initial (constantRand 0).

(** The same game with the three points of health of the player lost,
    in play and once the death has been seen. *)
Definition deadPlayerGame : Game.t :=
  Game.with_player (Player.TakeDamage 3 Player.new) freshGame.

Definition gameOverGame : Game.t := Game.with_state GAME_OVER deadPlayerGame.

(** The game after a first frame of 60 seconds: the boss has come. *)
Definition bossGame : Game.t :=
  Game.RunFrame (R := raylib) (idleFrame (F32.of_int 60)) freshGame.

(** The fresh game with a SIMPLE enemy at (100, 100) and a bullet of the
    player inside its hitbox. *)
Definition duelGame : Game.t :=
  Game.with_bullets
    [Bullet.new (mkVector2 (F32.of_int 120) (F32.of_int 120)) true 1]
    (Game.with_enemies
       [Enemy.new (mkVector2 (F32.of_int 100) (F32.of_int 100)) SIMPLE]
       freshGame).

(** The fresh game with a SIMPLE enemy on the player, whose gun is not
    ready for ten seconds. *)
Definition contactGame : Game.t :=
  Game.with_player
    (Player.mk (Player.base Player.new) (F32.of_int 10) (F32.ratio 5 10)
               (F32.of_int 50) 3)
    (Game.with_enemies
       [Enemy.new (mkVector2 (F32.of_int 400) (F32.of_int 540)) SIMPLE]
       freshGame).

(** The fresh game with a FIRE_RATE upgrade on the player. *)
Definition pickupGame : Game.t :=
  Game.with_upgrades
    [Upgrade.new (mkVector2 (F32.of_int 410) (F32.of_int 545)) FIRE_RATE]
    freshGame.

(** The game after a frame of 59.5 s and one of 0.5 s: the boss has just
    come and its notification is on. *)
Definition noticeGame : Game.t :=
  Game.RunFrame (R := raylib) (idleFrame (F32.ratio 5 10))
    (Game.RunFrame (R := raylib) (idleFrame (F32.ratio 595 10)) freshGame).

(** The game after a first frame of 0.1 s: the player has fired. *)
Definition shotGame : Game.t :=
  Game.RunFrame (R := raylib) (idleFrame (F32.ratio 1 10)) freshGame.

(** A game whose generator draws 410 for ever, after a frame of 2 s and
    fourteen frames of 0.1 s: a wave of three enemies has come above the
    player, one of them was shot and reaped, and left an upgrade. *)
Definition dropGame : Game.t :=
  Nat.iter 14 (Game.RunFrame (R := raylib) (idleFrame (F32.ratio 1 10)))
    (Game.RunFrame (R := raylib) (idleFrame (F32.of_int 2))
       (Game.initial (constantRand 410))).

(** The same game one short frame earlier: the enemy shot is dead and
    still in the game, to be reaped by the next frame. *)
Definition killGame : Game.t :=
  Nat.iter 13 (Game.RunFrame (R := raylib) (idleFrame (F32.ratio 1 10)))
    (Game.RunFrame (R := raylib) (idleFrame (F32.of_int 2))
       (Game.initial (constantRand 410))).

(** The fresh game with a HARD enemy at (300, 100), two SIMPLE enemies
    at (100, 100) and (110, 100), and four bullets: two of the player
    inside both SIMPLE enemies, one of the player inside the second of
    them only, one of an enemy inside the HARD enemy. *)
Definition rowGame : Game.t :=
  Game.with_bullets
    [Bullet.new (mkVector2 (F32.of_int 125) (F32.of_int 120)) true 1;
     Bullet.new (mkVector2 (F32.of_int 320) (F32.of_int 120)) false 1;
     Bullet.new (mkVector2 (F32.of_int 125) (F32.of_int 120)) true 1;
     Bullet.new (mkVector2 (F32.of_int 148) (F32.of_int 120)) true 1]
    (Game.with_enemies
       [Enemy.new (mkVector2 (F32.of_int 300) (F32.of_int 100)) HARD;
        Enemy.new (mkVector2 (F32.of_int 100) (F32.of_int 100)) SIMPLE;
        Enemy.new (mkVector2 (F32.of_int 110) (F32.of_int 100)) SIMPLE]
       freshGame).

(** A SIMPLE enemy hit by one bullet. *)
Definition deadSimple : Enemy.t :=
  Enemy.TakeDamage 1
    (Enemy.new (mkVector2 (F32.of_int 100) (F32.of_int 100)) SIMPLE).

(** ** Vocabulary of the properties *)

(** The values [GetRandomValue(0, 100)] can return. *)
Definition dropDraws : list Z := map Z.of_nat (seq 0 101).

Definition sumZ (l : list Z) : Z := fold_right Z.add 0 l.

(** The enemy with its health forgotten: what a collision cannot change. *)
Definition withoutHealth (e : Enemy.t) : Enemy.t :=
  Enemy.with_base (GameObject.with_health 0 (Enemy.base e)) e.

Definition totalHealth (es : list Enemy.t) : Z := sumZ (map Enemy.health es).

Definition totalDamage (bs : list Bullet.t) : Z := sumZ (map Bullet.damage bs).

Definition bossCount (es : list Enemy.t) : nat :=
  length (filter (fun e => is_BOSS (Enemy.type e)) es).

Definition deadBoss (e : Enemy.t) : bool :=
  is_BOSS (Enemy.type e) && Enemy.IsDead e.

(** There is a boss in the collection exactly while [bossActive]. *)
Definition bossGate (g : Game.t) : Prop :=
  bossCount (Game.enemies g) = (if Game.bossActive g then 1 else 0)%nat.

(** The player is within its maximal health, and no bullet heals. *)
Definition healthOK (g : Game.t) : Prop :=
  Player.health (Game.player g) <= Player.maxHealth (Game.player g)
  /\ Forall (fun b => 0 <= Bullet.damage b) (Game.bullets g).

(** No enemy is worth a negative score, and the score is not negative. *)
Definition scoreOK (g : Game.t) : Prop :=
  Forall (fun e => 0 <= Enemy.scoreValue e) (Game.enemies g)
  /\ 0 <= Game.score g.

(** What the update of an enemy cannot change: type, health, score. *)
Definition vitals (e : Enemy.t) : EnemyType * Z * Z :=
  (Enemy.type e, Enemy.health e, Enemy.scoreValue e).

(** The enemies as the first loop of [UpdateEnemies] leaves them, and
    those among them that its second loop removes: the dead ones. *)
Definition updatedEnemies (dt : float) (g : Game.t) : list Enemy.t :=
  fst (fst (fst (Game.updateEach dt (Game.enemies g) (Game.bullets g)
                                 (Game.statics g) (Game.rand g)))).

Definition reaped (dt : float) (g : Game.t) : list Enemy.t :=
  filter Enemy.IsDead (updatedEnemies dt g).

(** The game when [UpdateGame] has updated the player, and when it
    calls [UpdateEnemies]. *)
Definition afterPlayer (dt : float) (keyLeft keyRight : bool) (g : Game.t)
  : Game.t :=
  let '(p, bs, au, _) :=
    Player.Update dt keyLeft keyRight (Game.bullets g)
                  (AudioUpdate :: Game.audio g) (Game.player g) in
  Game.with_audio au (Game.with_bullets bs (Game.with_player p g)).

Definition beforeEnemies (dt : float) (keyLeft keyRight : bool) (g : Game.t)
  : Game.t :=
  Game.UpdateBullets dt
    (Game.SpawnBoss dt
       (Game.SpawnEnemies dt (afterPlayer dt keyLeft keyRight g))).

(** The enemies removed as dead by one call of [UpdateGame]. *)
Definition reapedInFrame (dt : float) (keyLeft keyRight : bool) (g : Game.t)
  : list Enemy.t :=
  if Player.IsDead (Game.player (afterPlayer dt keyLeft keyRight g)) then []
  else reaped dt (beforeEnemies dt keyLeft keyRight g).

Section Vocabulary.

Context {R : Raylib}.

(** The circle of radius 5 around the bullet meets the hitbox. *)
Definition overlaps (b : Bullet.t) (e : Enemy.t) : bool :=
  CheckCollisionCircleRec (Bullet.position b) (F32.of_int 5)
                          (Enemy.GetHitbox e).

(** The bullet is the player's and meets some enemy of [es]. *)
Definition hits (es : list Enemy.t) (b : Bullet.t) : bool :=
  Bullet.isPlayerBullet b && existsb (overlaps b) es.

(** The enemy of index [i] in [es] is the first, in the order of the
    collection, that the bullet overlaps. *)
Definition firstHit (es : list Enemy.t) (b : Bullet.t) (i : nat) : bool :=
  match nth_error es i with
  | Some e => overlaps b e && negb (existsb (overlaps b) (firstn i es))
  | None => false
  end.

(** The damage of the bullets of the player among [bs] whose first
    overlapped enemy in [es] is the one of index [i]. *)
Definition chargedTo (es : list Enemy.t) (bs : list Bullet.t) (i : nat) : Z :=
  totalDamage
    (filter (fun b => Bullet.isPlayerBullet b && firstHit es b i) bs).

End Vocabulary.

(** ** Vocabulary of the passes on the player *)

(** What a contact with the enemy costs the player. *)
Definition contactDamage (e : Enemy.t) : Z :=
  if is_BOSS (Enemy.type e) then 2 else 1.

(** What [CheckCollisions] does to the player for an upgrade of the type
    of [u], and the notification it posts. *)
Definition applyUpgrade (p : Player.t) (u : Upgrade.t) : Player.t :=
  match Upgrade.type u with
  | HEALTH => Player.IncreaseMaxHealth p
  | FIRE_RATE => Player.UpgradeFireRate p
  | ATTACK_RANGE => Player.UpgradeAttackRange p
  end.

Definition pickupNote (u : Upgrade.t) : Game.Notification :=
  match Upgrade.type u with
  | HEALTH => ("MAX HEALTH +1"%string, F32.of_int 2)
  | FIRE_RATE => ("FIRE RATE UP!"%string, F32.of_int 2)
  | ATTACK_RANGE => ("ATTACK RANGE +"%string, F32.of_int 2)
  end.

Definition is_HEALTH (u : Upgrade.t) : bool :=
  match Upgrade.type u with HEALTH => true | _ => false end.

Section PlayerVocabulary.

Context {R : Raylib}.

(** The hitbox of the enemy meets that of the player. *)
Definition touches (p : Player.t) (e : Enemy.t) : bool :=
  CheckCollisionRecs (Player.GetHitbox p) (Enemy.GetHitbox e).

(** The bullet is an enemy's and its circle meets the player. *)
Definition strikes (p : Player.t) (b : Bullet.t) : bool :=
  negb (Bullet.isPlayerBullet b)
  && CheckCollisionCircleRec (Bullet.position b) (F32.of_int 5)
                             (Player.GetHitbox p).

(** The upgrade is active and its hitbox meets that of the player. *)
Definition picks (p : Player.t) (u : Upgrade.t) : bool :=
  Upgrade.IsActive u
  && CheckCollisionRecs (Player.GetHitbox p) (Upgrade.GetHitbox u).

End PlayerVocabulary.

(** ** Vocabulary of the well-formed game *)

Definition origin : Vector2 := mkVector2 (F32.of_int 0) (F32.of_int 0).

(** The type of the enemies of a wave, by the bosses defeated so far. *)
Definition tier (bossesDefeated : Z) : EnemyType :=
  if bossesDefeated =? 0 then SIMPLE
  else if bossesDefeated =? 1 then MID
  else HARD.

(** The enemy with its position, health and shoot timer forgotten: what
    its constructor fixes from its type. *)
Definition blueprint (e : Enemy.t) : Enemy.t :=
  Enemy.mk
    (GameObject.with_health 0 (GameObject.with_position origin (Enemy.base e)))
    (F32.of_int 0) (Enemy.shootInterval e) (Enemy.type e)
    (Enemy.scoreValue e).

(** The horizontal clamp of [Player::Update] and of the boss. *)
Definition clamp (px lim : float) : float :=
  let px := if (px <? F32.of_int 0)%f32 then F32.of_int 0 else px in
  if (px >? lim)%f32 then lim else px.

(** [px] is neither left of the screen nor right of [lim]. *)
Definition within (px lim : float) : Prop :=
  (px <? F32.of_int 0)%f32 = false /\ (px >? lim)%f32 = false.

(** An enemy as its constructor made it for its type, with no more than
    its initial health, and horizontally where the game puts it: a boss
    within the clamp, another enemy at its whole abscissa of spawn. *)
Definition enemyOK (e : Enemy.t) : Prop :=
  blueprint e = blueprint (Enemy.new origin (Enemy.type e))
  /\ Enemy.health e <= Enemy.health (Enemy.new origin (Enemy.type e))
  /\ (if is_BOSS (Enemy.type e)
      then within (x (Enemy.GetPosition e))
                  (F32.of_int GetScreenWidth
                   - GameObject.width (Enemy.base e))%f32
      else exists r, 0 <= r <= GetScreenWidth - 40
                     /\ x (Enemy.GetPosition e) = F32.of_int r).

(** A bullet as its constructor made it for its owner, with the damage of
    a shot of the player (1), of an enemy (1) or of a boss (2). *)
Definition bulletOK (b : Bullet.t) : Prop :=
  b = Bullet.new (Bullet.position b) (Bullet.isPlayerBullet b)
                 (Bullet.damage b)
  /\ (if Bullet.isPlayerBullet b then Bullet.damage b = 1
      else Bullet.damage b = 1 \/ Bullet.damage b = 2).

(** The player with the size, speed, colour and ordinate of its
    constructor, horizontally within the screen, firing no faster than
    every 0.1 s. *)
Definition playerOK (p : Player.t) : Prop :=
  GameObject.with_health 0 (GameObject.with_position origin (Player.base p))
  = GameObject.with_health 0
      (GameObject.with_position origin (Player.base Player.new))
  /\ y (GameObject.position (Player.base p)) = F32.of_int 550
  /\ within (x (GameObject.position (Player.base p)))
            (F32.of_int GetScreenWidth - F32.of_int 50)%f32
  /\ (Player.fireRate p >=? F32.ratio 1 10)%f32 = true.

Definition upgradeOK (u : Upgrade.t) : Prop :=
  Upgrade.IsActive u = true /\ Upgrade.fallSpeed u = F32.of_int 100.

(** The texts the game posts. *)
Definition notices : list string :=
  ["BOSS INCOMING!"; "BOSS DEFEATED!"; "MAX HEALTH +1"; "FIRE RATE UP!";
   "ATTACK RANGE +"]%string.

Definition noteOK (n : Game.Notification) : Prop :=
  In (fst n) notices /\ (snd n <=? F32.of_int 0)%f32 = false.

Definition worldOK (g : Game.t) : Prop :=
  playerOK (Game.player g)
  /\ Forall enemyOK (Game.enemies g)
  /\ Forall bulletOK (Game.bullets g)
  /\ Forall upgradeOK (Game.upgrades g)
  /\ Forall noteOK (Game.notifications g).

(** No bullet of the player is off screen. *)
Definition playerShotsOnScreen (g : Game.t) : Prop :=
  Forall (fun b => Bullet.isPlayerBullet b = true ->
                   Bullet.IsOutOfScreen b = false) (Game.bullets g).

(** A notification with [dt] less to live. *)
Definition aged (dt : float) (n : Game.Notification) : Game.Notification :=
  (fst n, (snd n - dt)%f32).

(** * Properties *)

(** ** Facts on single-precision arithmetic *)

Section FloatFacts.

Variables prec emax : Z.

Lemma SFcompare_swap (a b : float) :
  SFcompare b a = option_map CompOpp (SFcompare a b).
Proof.
  destruct a as [[]|[]| |[] m1 e1], b as [[]|[]| |[] m2 e2];
    simpl; try reflexivity;
    rewrite (Z.compare_antisym e1 e2);
    destruct (e1 ?= e2); simpl; try reflexivity;
    pose proof (Pos.compare_cont_antisym m1 m2 Eq) as A; simpl in A;
    rewrite <- A; reflexivity.
Qed.

Lemma SFcompare_defined (a b : float) :
  F32.is_nan a = false -> F32.is_nan b = false ->
  exists c, SFcompare a b = Some c.
Proof.
  destruct a as [?|?| |? ? ?], b as [?|?| |? ? ?]; simpl;
    intros Ha Hb; try discriminate; eexists; reflexivity.
Qed.

Lemma SFleb_not_nan (a b : float) :
  SFleb a b = true -> F32.is_nan a = false /\ F32.is_nan b = false.
Proof.
  unfold SFleb.
  destruct a as [?|?| |? ? ?], b as [?|?| |? ? ?]; simpl;
    intros H; try discriminate; split; reflexivity.
Qed.

(** Of two numbers, one is below the other or the other is at most it. *)
Lemma SFltb_false_SFleb (a b : float) :
  F32.is_nan a = false -> F32.is_nan b = false ->
  SFltb a b = false -> SFleb b a = true.
Proof.
  intros Ha Hb. unfold SFltb, SFleb.
  destruct (SFcompare_defined a b Ha Hb) as [c Hc].
  rewrite (SFcompare_swap a b), Hc. simpl.
  destruct c; simpl; intros H; try reflexivity; discriminate.
Qed.

Lemma shr_1_nonneg (mrs : shr_record) :
  0 <= shr_m mrs -> 0 <= shr_m (shr_1 mrs).
Proof.
  destruct mrs as [m r s]. simpl.
  destruct m as [|[p|p|]|[p|p|]]; simpl; lia.
Qed.

Lemma iter_shr_1_nonneg (p : positive) :
  forall mrs, 0 <= shr_m mrs -> 0 <= shr_m (iter_pos shr_1 p mrs).
Proof.
  induction p as [p IH|p IH|]; intros mrs H; simpl.
  - apply IH, IH, shr_1_nonneg, H.
  - apply IH, IH, H.
  - apply shr_1_nonneg, H.
Qed.

Lemma shr_fexp_nonneg (m e : Z) (l : location) :
  0 <= m -> 0 <= shr_m (fst (shr_fexp prec emax m e l)).
Proof.
  intros H. unfold shr_fexp, shr.
  assert (H0 : 0 <= shr_m (shr_record_of_loc m l))
    by (destruct l as [|[]]; exact H).
  destruct (fexp prec emax (Zdigits2 m + e) - e); simpl; trivial.
  now apply iter_shr_1_nonneg.
Qed.

Lemma round_nearest_even_nonneg (m : Z) (l : location) :
  0 <= m -> 0 <= round_nearest_even m l.
Proof.
  intros H. destruct l as [|[]]; simpl; try lia.
  destruct (Z.even m); lia.
Qed.

(** Rounding a non-negative mantissa never yields NaN. *)
Lemma binary_round_aux_not_nan (sx : bool) (mx ex : Z) (lx : location) :
  0 <= mx -> F32.is_nan (binary_round_aux prec emax sx mx ex lx) = false.
Proof.
  intros H. unfold binary_round_aux.
  pose proof (shr_fexp_nonneg mx ex lx H) as H1.
  destruct (shr_fexp prec emax mx ex lx) as [mrs' e']. simpl in H1.
  pose proof (shr_fexp_nonneg _ e' loc_Exact
                (round_nearest_even_nonneg _ (loc_of_shr_record mrs') H1))
    as H2.
  destruct (shr_fexp prec emax _ e' loc_Exact) as [mrs'' e'']. simpl in H2.
  destruct (shr_m mrs'') as [|m|m]; try reflexivity.
  - now destruct (e'' <=? emax - prec).
  - lia.
Qed.

Lemma binary_normalize_not_nan (m e : Z) (szero : bool) :
  F32.is_nan (binary_normalize prec emax m e szero) = false.
Proof.
  unfold binary_normalize, binary_round.
  destruct m as [|m|m]; try reflexivity;
    destruct (shl_align m e _) as [mz ez];
    apply binary_round_aux_not_nan; lia.
Qed.

(** Subtracting a finite number from a number gives a number. *)
Lemma SFsub_finite_not_nan (a : float) (s : bool) (m : positive) (e : Z) :
  F32.is_nan a = false ->
  F32.is_nan (SFsub prec emax a (S754_finite s m e)) = false.
Proof.
  destruct a as [?|?| |sa ma ea]; simpl; intros H; try reflexivity;
    try discriminate.
  apply binary_normalize_not_nan.
Qed.

End FloatFacts.

Lemma tenth_value : F32.ratio 1 10 = S754_finite false 13421773 (-27).
Proof. vm_compute. reflexivity. Qed.

(** ** Player: the floor of the fire rate *)

Lemma UpgradeFireRate_keeps_floor (p : Player.t) :
  (Player.fireRate p >=? F32.ratio 1 10)%f32 = true ->
  (Player.fireRate (Player.UpgradeFireRate p) >=? F32.ratio 1 10)%f32 = true.
Proof.
  intros H. unfold Player.UpgradeFireRate. simpl.
  destruct (Player.fireRate p - F32.ratio 1 10 <? F32.ratio 1 10)%f32 eqn:E.
  - vm_compute. reflexivity.
  - unfold F32.geb, F32.ltb in *.
    apply SFltb_false_SFleb; [|rewrite tenth_value; reflexivity|exact E].
    unfold F32.sub. rewrite tenth_value.
    apply SFsub_finite_not_nan.
    apply SFleb_not_nan in H. apply H.
Qed.

(** C6: from a fire rate of at least 0.1, any number of calls of
    [UpgradeFireRate] leaves the fire rate at least 0.1; a call subtracts
    0.1, unless the difference is below 0.1, and then the fire rate is
    exactly 0.1. *)
Theorem UpgradeFireRate_floor (p : Player.t) (n : nat) :
  (Player.fireRate p >=? F32.ratio 1 10)%f32 = true ->
  (Player.fireRate (Nat.iter n Player.UpgradeFireRate p)
     >=? F32.ratio 1 10)%f32 = true
  /\ Player.fireRate (Player.UpgradeFireRate p)
     = (if (Player.fireRate p - F32.ratio 1 10 <? F32.ratio 1 10)%f32
        then F32.ratio 1 10
        else (Player.fireRate p - F32.ratio 1 10)%f32).
Proof.
  intros H. split; [|reflexivity].
  induction n as [|n IH]; simpl; trivial.
  now apply UpgradeFireRate_keeps_floor.
Qed.

Lemma UpgradeFireRate_floor_witness :
  (Player.fireRate (Nat.iter 7 Player.UpgradeFireRate Player.new)
     >=? F32.ratio 1 10)%f32 = true.
Proof.
  apply (UpgradeFireRate_floor Player.new 7). vm_compute. reflexivity.
Defined.

(** ** Lists *)

Lemma cons_inj {A : Type} (a b : A) (l m : list A) :
  a :: l = b :: m -> a = b /\ l = m.
Proof. intros H. injection H. auto. Qed.

Lemma filter_of_map {A B : Type} (f : A -> B) (p : B -> bool) (l : list A) :
  filter p (map f l) = map f (filter (fun a => p (f a)) l).
Proof.
  induction l as [|a l IH]; cbn [map filter]; trivial.
  destruct (p (f a)); cbn [map]; now rewrite IH.
Qed.

(** ** Player: what [Update] leaves alone *)

Lemma Player_Update_stats dt kl kr bs au p p' bs' au' fired :
  Player.Update dt kl kr bs au p = (p', bs', au', fired) ->
  Player.health p' = Player.health p
  /\ Player.maxHealth p' = Player.maxHealth p
  /\ Player.fireRate p' = Player.fireRate p
  /\ Player.attackRange p' = Player.attackRange p.
Proof.
  unfold Player.Update.
  destruct (_ <=? _)%f32; intros H; injection H as <- _ _ _;
    repeat split; reflexivity.
Qed.

Lemma Player_Update_bullets dt kl kr bs au p p' bs' au' fired :
  Player.Update dt kl kr bs au p = (p', bs', au', fired) ->
  bs' = bs
  \/ exists pos, bs' = bs ++ [Bullet.new pos true 1].
Proof.
  unfold Player.Update.
  destruct (_ <=? _)%f32; intros H; injection H as _ <- _ _.
  - right. eexists. reflexivity.
  - left. reflexivity.
Qed.

(** ** Counting bosses *)

Lemma bossCount_app (es1 es2 : list Enemy.t) :
  bossCount (es1 ++ es2) = (bossCount es1 + bossCount es2)%nat.
Proof. unfold bossCount. now rewrite filter_app, length_app. Qed.

Lemma deadBoss_count_app (es1 es2 : list Enemy.t) :
  length (filter deadBoss (es1 ++ es2))
  = (length (filter deadBoss es1) + length (filter deadBoss es2))%nat.
Proof. now rewrite filter_app, length_app. Qed.

Lemma no_boss_count (es : list Enemy.t) :
  Forall (fun e => is_BOSS (Enemy.type e) = false) es ->
  bossCount es = 0%nat /\ length (filter deadBoss es) = 0%nat.
Proof.
  unfold bossCount, deadBoss.
  induction 1 as [|e es He _ [IH1 IH2]]; cbn [filter]; [now split|].
  rewrite He. cbn. now split.
Qed.

Lemma vitals_counts (es1 es2 : list Enemy.t) :
  map vitals es1 = map vitals es2 ->
  bossCount es1 = bossCount es2
  /\ length (filter deadBoss es1) = length (filter deadBoss es2).
Proof.
  unfold bossCount.
  revert es2. induction es1 as [|e1 es1 IH]; intros [|e2 es2] H;
    try discriminate; [now split|].
  apply cons_inj in H. destruct H as [He Hes].
  destruct (IH _ Hes) as [IH1 IH2].
  unfold vitals in He. injection He as Ht Hh Hs.
  assert (Hd : deadBoss e1 = deadBoss e2)
    by (unfold deadBoss, Enemy.IsDead, GameObject.IsDead;
        unfold Enemy.health in Hh; now rewrite Ht, Hh).
  cbn [filter]. rewrite Hd, Ht.
  destruct (is_BOSS (Enemy.type e2)), (deadBoss e2); cbn [length];
    split; congruence.
Qed.

Lemma withoutHealth_counts (es1 es2 : list Enemy.t) :
  map withoutHealth es1 = map withoutHealth es2 ->
  bossCount es1 = bossCount es2
  /\ map Enemy.scoreValue es1 = map Enemy.scoreValue es2.
Proof.
  unfold bossCount.
  revert es2. induction es1 as [|e1 es1 IH]; intros [|e2 es2] H;
    try discriminate; [now split|].
  apply cons_inj in H. destruct H as [He Hes].
  destruct (IH _ Hes) as [IH1 IH2].
  pose proof (f_equal Enemy.type He) as Ht.
  pose proof (f_equal Enemy.scoreValue He) as Hs.
  cbn in Ht, Hs. cbn [filter map]. rewrite Ht, Hs, IH2.
  destruct (is_BOSS (Enemy.type e2)); cbn [length]; split; congruence.
Qed.

(** The bosses are those left by the reaping and those it removes. *)
Lemma bossCount_reap (es : list Enemy.t) :
  bossCount es
  = (bossCount (filter (fun e => negb (Enemy.IsDead e)) es)
     + length (filter deadBoss es))%nat.
Proof.
  unfold bossCount, deadBoss.
  induction es as [|e es IH]; cbn [filter]; trivial.
  destruct (is_BOSS (Enemy.type e)) eqn:Hb, (Enemy.IsDead e);
    cbn [negb andb filter length]; rewrite ?Hb; cbn [length]; lia.
Qed.

Lemma deadBoss_count_In (es : list Enemy.t) :
  (0 < length (filter deadBoss es))%nat
  <-> exists e, In e es /\ deadBoss e = true.
Proof.
  split.
  - destruct (filter deadBoss es) as [|e l] eqn:H; cbn; [lia|]. intros _.
    exists e. apply filter_In. rewrite H. now left.
  - intros (e & Hin & He).
    assert (Hf : In e (filter deadBoss es)) by now apply filter_In.
    destruct (filter deadBoss es); [contradiction|cbn; lia].
Qed.

Lemma deadBoss_le_bossCount (es : list Enemy.t) :
  (length (filter deadBoss es) <= bossCount es)%nat.
Proof. rewrite (bossCount_reap es). lia. Qed.

(** ** Sums of scores *)

Lemma vitals_scoreValues (es1 es2 : list Enemy.t) :
  map vitals es1 = map vitals es2 ->
  map Enemy.scoreValue es1 = map Enemy.scoreValue es2.
Proof.
  intros H. apply (f_equal (map snd)) in H.
  rewrite !map_map in H. exact H.
Qed.

Lemma scoreValues_nonneg (es : list Enemy.t) :
  Forall (fun e => 0 <= Enemy.scoreValue e) es
  <-> Forall (fun v => 0 <= v) (map Enemy.scoreValue es).
Proof. symmetry. apply Forall_map. Qed.

Lemma filter_scores_nonneg (p : Enemy.t -> bool) (es : list Enemy.t) :
  Forall (fun e => 0 <= Enemy.scoreValue e) es ->
  0 <= sumZ (map Enemy.scoreValue (filter p es)).
Proof.
  unfold sumZ.
  induction 1 as [|e es He _ IH]; cbn [filter map fold_right]; [lia|].
  destruct (p e); cbn [map fold_right]; lia.
Qed.

Lemma filter_split (p : Enemy.t -> bool) (es : list Enemy.t) :
  Permutation es (filter p es ++ filter (fun e => negb (p e)) es).
Proof.
  induction es as [|e es IH]; cbn [filter]; [constructor|].
  destruct (p e); cbn [negb app].
  - now constructor.
  - now apply Permutation_cons_app.
Qed.

Section GameFacts.

Context {R : Raylib}.

(** ** The frame on which the player is found dead *)

(** C1: in the PLAYING state, when the player is dead after its own
    update, the frame ends in GAME_OVER with nothing else simulated: the
    spawn timers, the enemies, the upgrades, the notifications, the
    score, the boss counters, the statics and the generator are those
    of the start of the frame, and the bullets are those left by the
    update of the player. *)
Theorem dead_player_ends_frame (f : Game.Frame) (g : Game.t)
    (p : Player.t) (bs : list Bullet.t) (au : AudioSystem) (fired : bool) :
  Game.state g = PLAYING ->
  Player.Update (Game.GetFrameTime f) (Game.KEY_LEFT f) (Game.KEY_RIGHT f)
    (Game.bullets g) (AudioUpdate :: Game.audio g) (Game.player g)
    = (p, bs, au, fired) ->
  Player.health p <= 0 ->
  let g' := Game.RunFrame f g in
  Game.state g' = GAME_OVER
  /\ Game.player g' = p
  /\ Game.bullets g' = bs
  /\ (bs = Game.bullets g
      \/ exists pos, bs = Game.bullets g ++ [Bullet.new pos true 1])
  /\ Game.enemies g' = Game.enemies g
  /\ Game.upgrades g' = Game.upgrades g
  /\ Game.notifications g' = Game.notifications g
  /\ Game.score g' = Game.score g
  /\ Game.enemySpawnTimer g' = Game.enemySpawnTimer g
  /\ Game.bossSpawnTimer g' = Game.bossSpawnTimer g
  /\ Game.bossesDefeated g' = Game.bossesDefeated g
  /\ Game.bossActive g' = Game.bossActive g
  /\ Game.statics g' = Game.statics g
  /\ Game.rand g' = Game.rand g.
Proof.
  intros Hs Hu Hd g'. subst g'.
  unfold Game.RunFrame, Game.UpdateGame. rewrite Hs, Hu. simpl.
  assert (Hdead : Player.IsDead p = true)
    by (apply Z.leb_le; exact Hd).
  rewrite Hdead. simpl.
  repeat split; try reflexivity.
  eapply Player_Update_bullets, Hu.
Qed.

(** ** Restart *)

(** C4: pressing ENTER in GAME_OVER empties the four collections, zeroes
    the score, both spawn timers and the count of bosses defeated, clears
    [bossActive], puts the player back at (400, 550) with no cooldown and
    with as much health as its current maximum, and keeps [maxHealth],
    [fireRate] and [attackRange] as they were. *)
Theorem restart_resets (f : Game.Frame) (g : Game.t) :
  Game.state g = GAME_OVER ->
  Game.KEY_ENTER f = true ->
  let g' := Game.RunFrame f g in
  g' = Game.with_state PLAYING (Game.ResetGame g)
  /\ Game.state g' = PLAYING
  /\ Game.enemies g' = []
  /\ Game.bullets g' = []
  /\ Game.upgrades g' = []
  /\ Game.notifications g' = []
  /\ Game.score g' = 0
  /\ Game.enemySpawnTimer g' = F32.of_int 0
  /\ Game.bossSpawnTimer g' = F32.of_int 0
  /\ Game.bossesDefeated g' = 0
  /\ Game.bossActive g' = false
  /\ GameObject.position (Player.base (Game.player g'))
     = mkVector2 (F32.of_int 400) (F32.of_int 550)
  /\ Player.fireCooldown (Game.player g') = F32.of_int 0
  /\ Player.health (Game.player g') = Player.maxHealth (Game.player g)
  /\ Player.maxHealth (Game.player g') = Player.maxHealth (Game.player g)
  /\ Player.fireRate (Game.player g') = Player.fireRate (Game.player g)
  /\ Player.attackRange (Game.player g')
     = Player.attackRange (Game.player g).
Proof.
  intros Hs Hk g'. subst g'.
  unfold Game.RunFrame. rewrite Hs, Hk.
  repeat split; reflexivity.
Qed.

(** ** Upgrade drops *)

Lemma GetRandomValue_range (min max : Z) (s : RandState) :
  min <= max ->
  min <= fst (GetRandomValue min max s) <= max.
Proof.
  intros H. unfold GetRandomValue. simpl.
  rewrite Z.min_l, Z.max_r by lia.
  pose proof (Z.mod_pos_bound (tape s (cursor s)) (max - min + 1)).
  lia.
Qed.

(** C10: [SpawnUpgrade] ignores [isBossDrop]: with the same generator
    and position both calls give the same game, whose last upgrade is
    active, at the position, with 5 seconds left, of the type drawn; the
    draw lies in [[0, 2]] and the three draws give the three types. *)
Theorem SpawnUpgrade_ignores_isBossDrop (pos : Vector2) (g : Game.t) :
  Game.SpawnUpgrade pos true g = Game.SpawnUpgrade pos false g
  /\ (forall isBossDrop,
        let r := fst (GetRandomValue 0 2 (Game.rand g)) in
        0 <= r <= 2
        /\ Game.upgrades (Game.SpawnUpgrade pos isBossDrop g)
           = Game.upgrades g
             ++ [Upgrade.mk (F32.of_int 100) (UpgradeType_of_int r) pos
                            (F32.of_int 5) true])
  /\ map UpgradeType_of_int [0; 1; 2] = [HEALTH; FIRE_RATE; ATTACK_RANGE].
Proof.
  split; [reflexivity|]. split; [|reflexivity].
  intros isBossDrop r. split.
  - apply GetRandomValue_range. lia.
  - reflexivity.
Qed.

(** ** What each step of the frame leaves alone *)

Lemma spawnWave_effect (n : nat) :
  forall g, exists fresh,
    Game.enemies (Game.spawnWave n g) = Game.enemies g ++ fresh
    /\ Forall (fun e => is_BOSS (Enemy.type e) = false
                       /\ Enemy.IsDead e = false
                       /\ 0 <= Enemy.scoreValue e) fresh
    /\ Game.player (Game.spawnWave n g) = Game.player g
    /\ Game.bullets (Game.spawnWave n g) = Game.bullets g
    /\ Game.score (Game.spawnWave n g) = Game.score g
    /\ Game.enemySpawnTimer (Game.spawnWave n g) = Game.enemySpawnTimer g
    /\ Game.bossSpawnTimer (Game.spawnWave n g) = Game.bossSpawnTimer g
    /\ Game.bossesDefeated (Game.spawnWave n g) = Game.bossesDefeated g
    /\ Game.bossActive (Game.spawnWave n g) = Game.bossActive g
    /\ Game.state (Game.spawnWave n g) = Game.state g.
Proof.
  induction n as [|n IH]; intros g; cbn [Game.spawnWave].
  - exists []. rewrite app_nil_r. repeat split; trivial.
  - destruct (GetRandomValue 0 (GetScreenWidth - 40) (Game.rand g))
      as [r rng].
    match goal with |- context [Game.spawnWave n ?h] =>
      destruct (IH h) as (fresh & He & Hf & Hrest); rewrite He end.
    cbn [Game.enemies Game.with_enemies].
    eexists (_ :: fresh). rewrite <- app_assoc. split; [reflexivity|].
    split; [|exact Hrest].
    constructor; [|exact Hf].
    destruct (Game.bossesDefeated g =? 0);
      [|destruct (Game.bossesDefeated g =? 1)];
      repeat split; cbn; lia.
Qed.

Lemma SpawnEnemies_effect (dt : float) (g : Game.t) :
  exists fresh,
    Game.enemies (Game.SpawnEnemies dt g) = Game.enemies g ++ fresh
    /\ Forall (fun e => is_BOSS (Enemy.type e) = false
                       /\ Enemy.IsDead e = false
                       /\ 0 <= Enemy.scoreValue e) fresh
    /\ Game.player (Game.SpawnEnemies dt g) = Game.player g
    /\ Game.bullets (Game.SpawnEnemies dt g) = Game.bullets g
    /\ Game.score (Game.SpawnEnemies dt g) = Game.score g
    /\ Game.enemySpawnTimer (Game.SpawnEnemies dt g)
       = (if (Game.enemySpawnTimer g + dt >=? F32.of_int 2)%f32
          then F32.of_int 0 else (Game.enemySpawnTimer g + dt)%f32)
    /\ Game.bossSpawnTimer (Game.SpawnEnemies dt g) = Game.bossSpawnTimer g
    /\ Game.bossesDefeated (Game.SpawnEnemies dt g) = Game.bossesDefeated g
    /\ Game.bossActive (Game.SpawnEnemies dt g) = Game.bossActive g
    /\ Game.state (Game.SpawnEnemies dt g) = Game.state g.
Proof.
  unfold Game.SpawnEnemies.
  destruct (_ >=? _)%f32.
  - destruct (GetRandomValue 1 4 (Game.rand g)) as [n rng].
    match goal with |- context [Game.spawnWave ?k ?h] =>
      destruct (spawnWave_effect k h) as (fresh & H) end.
    exists fresh. exact H.
  - exists []. cbn. rewrite app_nil_r. repeat split; trivial.
Qed.

Lemma SpawnBoss_effect (dt : float) (g : Game.t) :
  let g' := Game.SpawnBoss dt g in
  (Game.bossActive g = true -> g' = g)
  /\ (Game.bossActive g = false ->
      (Game.enemies g' = Game.enemies g /\ Game.bossActive g' = false)
      \/ (exists e, Game.enemies g' = Game.enemies g ++ [e]
                    /\ vitals e = (BOSS, 7, 500)
                    /\ Game.bossActive g' = true))
  /\ Game.player g' = Game.player g
  /\ Game.bullets g' = Game.bullets g
  /\ Game.score g' = Game.score g
  /\ Game.enemySpawnTimer g' = Game.enemySpawnTimer g
  /\ Game.bossesDefeated g' = Game.bossesDefeated g
  /\ Game.state g' = Game.state g.
Proof.
  unfold Game.SpawnBoss.
  destruct (Game.bossActive g) eqn:Hb; [|destruct (_ >=? _)%f32]; cbn;
    (split; [intros; trivial; discriminate|]);
    (split; [intros; try discriminate|repeat split]).
  - right. eexists. repeat split.
  - left. split; trivial.
Qed.

Lemma spread_effect (n : nat) (o : GameObject.t) :
  forall bs rng bs' rng',
  Enemy.spread n o bs rng = (bs', rng') ->
  exists fresh, bs' = bs ++ fresh
                /\ Forall (fun b => 0 <= Bullet.damage b) fresh.
Proof.
  induction n as [|n IH]; intros bs rng bs' rng'; cbn [Enemy.spread].
  - intros H; injection H as <- _. exists []. now rewrite app_nil_r.
  - destruct (GetRandomValue (-20) 20 rng) as [r rng1]. intros H.
    apply IH in H. destruct H as (fresh & -> & Hf).
    eexists (_ :: fresh). rewrite <- app_assoc. split; [reflexivity|].
    constructor; [cbn; lia|exact Hf].
Qed.

Lemma Enemy_Update_effect dt bs st rng e e' bs' st' rng' fired :
  Enemy.Update dt bs st rng e = (e', bs', st', rng', fired) ->
  vitals e' = vitals e
  /\ exists fresh, bs' = bs ++ fresh
                   /\ Forall (fun b => 0 <= Bullet.damage b) fresh.
Proof.
  unfold Enemy.Update.
  destruct (is_BOSS (Enemy.type e)).
  - destruct (if (_ >=? _)%f32 then _ else _) as [st1 rng1].
    destruct (_ >=? F32.ratio 5 10)%f32.
    + destruct (Enemy.spread _ _ _ _) as [bs1 rng2] eqn:Hs.
      intros H; injection H as <- <- _ _ _.
      split; [reflexivity|]. eapply spread_effect, Hs.
    + intros H; injection H as <- <- _ _ _.
      split; [reflexivity|]. exists []. now rewrite app_nil_r.
  - destruct (_ >=? _)%f32; intros H; injection H as <- <- _ _ _;
      (split; [reflexivity|]).
    + eexists [_]. split; [reflexivity|]. constructor; [cbn; lia|constructor].
    + exists []. now rewrite app_nil_r.
Qed.

Lemma updateEach_effect dt (es : list Enemy.t) :
  forall bs st rng es' bs' st' rng',
  Game.updateEach dt es bs st rng = (es', bs', st', rng') ->
  map vitals es' = map vitals es
  /\ exists fresh, bs' = bs ++ fresh
                   /\ Forall (fun b => 0 <= Bullet.damage b) fresh.
Proof.
  induction es as [|e es IH]; intros bs st rng es' bs' st' rng';
    cbn [Game.updateEach].
  - intros H; injection H as <- <- _ _.
    split; [reflexivity|]. exists []. now rewrite app_nil_r.
  - destruct (Enemy.Update dt bs st rng e) as [[[[e1 bs1] st1] rng1] fired]
      eqn:He.
    destruct (Game.updateEach dt es bs1 st1 rng1) as [[[es2 bs2] st2] rng2]
      eqn:Hes.
    intros H; injection H as <- <- _ _.
    apply Enemy_Update_effect in He. destruct He as (Hv & f1 & -> & Hf1).
    apply IH in Hes. destruct Hes as (Hm & f2 & -> & Hf2).
    split.
    + cbn [map]. now rewrite Hv, Hm.
    + exists (f1 ++ f2). rewrite app_assoc. split; [reflexivity|].
      apply Forall_app. now split.
Qed.

Lemma onDeath_effect (e : Enemy.t) (g : Game.t) :
  let g' := Game.onDeath e g in
  Game.score g' = Game.score g + Enemy.scoreValue e
  /\ Game.bossesDefeated g'
     = Game.bossesDefeated g + (if is_BOSS (Enemy.type e) then 1 else 0)
  /\ Game.bossActive g'
     = (if is_BOSS (Enemy.type e) then false else Game.bossActive g)
  /\ Game.player g' = Game.player g
  /\ Game.bullets g' = Game.bullets g
  /\ Game.enemySpawnTimer g' = Game.enemySpawnTimer g
  /\ Game.bossSpawnTimer g' = Game.bossSpawnTimer g
  /\ Game.state g' = Game.state g.
Proof.
  unfold Game.onDeath, Game.SpawnUpgrade.
  destruct (is_BOSS (Enemy.type e)); cbn.
  - repeat split.
  - destruct (_ <? 20); cbn; repeat split; lia.
Qed.

Lemma reap_effect (es : list Enemy.t) :
  forall g,
  let g' := snd (Game.reap es g) in
  fst (Game.reap es g) = filter (fun e => negb (Enemy.IsDead e)) es
  /\ Game.score g'
     = Game.score g + sumZ (map Enemy.scoreValue (filter Enemy.IsDead es))
  /\ Game.bossesDefeated g'
     = Game.bossesDefeated g + Z.of_nat (length (filter deadBoss es))
  /\ Game.bossActive g'
     = Game.bossActive g && (length (filter deadBoss es) =? 0)%nat
  /\ Game.player g' = Game.player g
  /\ Game.bullets g' = Game.bullets g
  /\ Game.enemySpawnTimer g' = Game.enemySpawnTimer g
  /\ Game.bossSpawnTimer g' = Game.bossSpawnTimer g
  /\ Game.state g' = Game.state g.
Proof.
  induction es as [|e es IH]; intros g; cbn [Game.reap filter].
  - cbn. rewrite andb_true_r. repeat split; lia.
  - destruct (Enemy.IsDead e) eqn:Hd; cbn [negb].
    + assert (Hdb : deadBoss e = is_BOSS (Enemy.type e))
        by (unfold deadBoss; rewrite Hd; apply andb_true_r).
      destruct (IH (Game.onDeath e g))
        as (Hk & Hs & Hn & Ha & Hp & Hb & Ht & Hu & Hst).
      destruct (onDeath_effect e g)
        as (Hs' & Hn' & Ha' & Hp' & Hb' & Ht' & Hu' & Hst').
      cbv zeta in *.
      rewrite Hk, Hs, Hn, Ha, Hp, Hb, Ht, Hu, Hst.
      rewrite Hs', Hn', Ha', Hp', Hb', Ht', Hu', Hst', Hdb.
      unfold sumZ. cbn [map fold_right].
      destruct (is_BOSS (Enemy.type e)); cbn [length];
        repeat split; try lia.
      now destruct (Game.bossActive g).
    + assert (Hdb : deadBoss e = false)
        by (unfold deadBoss; rewrite Hd; apply andb_false_r).
      rewrite Hdb.
      specialize (IH g). destruct (Game.reap es g) as [kept g1].
      cbn [fst snd] in *.
      destruct IH as (-> & IH). repeat split; apply IH.
Qed.

Lemma UpdateEnemies_effect (dt : float) (g : Game.t) :
  let g' := Game.UpdateEnemies dt g in
  let es := updatedEnemies dt g in
  map vitals es = map vitals (Game.enemies g)
  /\ Game.enemies g' = filter (fun e => negb (Enemy.IsDead e)) es
  /\ Game.score g'
     = Game.score g + sumZ (map Enemy.scoreValue (reaped dt g))
  /\ Game.bossesDefeated g'
     = Game.bossesDefeated g + Z.of_nat (length (filter deadBoss es))
  /\ Game.bossActive g'
     = Game.bossActive g && (length (filter deadBoss es) =? 0)%nat
  /\ (exists fresh, Game.bullets g' = Game.bullets g ++ fresh
                    /\ Forall (fun b => 0 <= Bullet.damage b) fresh)
  /\ Game.player g' = Game.player g
  /\ Game.enemySpawnTimer g' = Game.enemySpawnTimer g
  /\ Game.bossSpawnTimer g' = Game.bossSpawnTimer g
  /\ Game.state g' = Game.state g.
Proof.
  unfold Game.UpdateEnemies, reaped, updatedEnemies.
  destruct (Game.updateEach _ _ _ _ _) as [[[es bs] st] rng] eqn:Hu.
  apply updateEach_effect in Hu. destruct Hu as (Hm & fresh & -> & Hf).
  cbn [fst].
  match goal with |- context [Game.reap es ?h] =>
    pose proof (reap_effect es h) as Hr; destruct (Game.reap es h) as [k g1]
  end.
  cbn [fst snd] in Hr. cbv zeta in Hr.
  destruct Hr as (-> & Hs & Hn & Ha & Hp & Hb & Ht & Hu & Hst).
  cbn. rewrite Hs, Hn, Ha, Hp, Hb, Ht, Hu, Hst. cbn.
  repeat split; trivial. exists fresh. now split.
Qed.

(** ** The drop of a dead enemy *)

Lemma dropDraws_range (d : Z) : In d dropDraws <-> 0 <= d <= 100.
Proof.
  unfold dropDraws. rewrite in_map_iff. split.
  - intros (n & <- & Hn). apply in_seq in Hn. lia.
  - intros H. exists (Z.to_nat d). split; [lia|]. apply in_seq. lia.
Qed.

(** C5, as the code has it: when a dead enemy that is no boss is reaped,
    an upgrade is added at its position exactly when the draw of
    [GetRandomValue(0, 100)] is below 20; the draw takes each of the 101
    values from 0 to 100, and 20 of them are below 20. *)
Theorem drop_for_20_draws_of_101 (e : Enemy.t) (g : Game.t) :
  is_BOSS (Enemy.type e) = false ->
  let r := fst (GetRandomValue 0 100 (Game.rand g)) in
  let rng := snd (GetRandomValue 0 100 (Game.rand g)) in
  In r dropDraws
  /\ Game.upgrades (Game.onDeath e g)
     = (if r <? 20
        then Game.upgrades g
             ++ [Upgrade.new (Enemy.GetPosition e)
                   (UpgradeType_of_int (fst (GetRandomValue 0 2 rng)))]
        else Game.upgrades g)
  /\ (forall d, In d dropDraws ->
                fst (GetRandomValue 0 100 (constantRand d)) = d)
  /\ length (filter (fun d => d <? 20) dropDraws) = 20%nat
  /\ length dropDraws = 101%nat.
Proof.
  intros Hb r rng. subst r rng. split; [|split; [|split; [|split]]].
  - apply dropDraws_range, GetRandomValue_range. lia.
  - unfold Game.onDeath. rewrite Hb.
    destruct (GetRandomValue 0 100 (Game.rand g)) as [r rng]. cbn [fst snd].
    now destruct (r <? 20).
  - intros d Hd. apply dropDraws_range in Hd. cbn.
    rewrite Z.mod_small; lia.
  - reflexivity.
  - reflexivity.
Qed.

(** ** Bullets of the player against the enemies *)

Lemma TakeDamage_withoutHealth (d : Z) (e : Enemy.t) :
  withoutHealth (Enemy.TakeDamage d e) = withoutHealth e.
Proof. reflexivity. Qed.

Lemma overlaps_withoutHealth (b : Bullet.t) (e : Enemy.t) :
  overlaps b (withoutHealth e) = overlaps b e.
Proof. reflexivity. Qed.

Lemma existsb_overlaps_withoutHealth (b : Bullet.t) (es1 es2 : list Enemy.t) :
  map withoutHealth es1 = map withoutHealth es2 ->
  existsb (overlaps b) es1 = existsb (overlaps b) es2.
Proof.
  revert es2. induction es1 as [|e1 es1 IH]; intros [|e2 es2] H;
    try discriminate; trivial.
  apply cons_inj in H. destruct H as [He Hes]. cbn [existsb].
  change (overlaps b e1) with (overlaps b (withoutHealth e1)).
  change (overlaps b e2) with (overlaps b (withoutHealth e2)).
  rewrite He. f_equal. now apply IH.
Qed.

(** The inner loop: no enemy is met and nothing changes, or the first
    enemy met, and no other, takes the damage of the bullet. *)
Lemma hitFirst_first (b : Bullet.t) (es : list Enemy.t) :
  (Forall (fun e => overlaps b e = false) es
   /\ Game.hitFirst b es = (es, false))
  \/ (exists pre e post,
        es = pre ++ e :: post
        /\ Forall (fun e => overlaps b e = false) pre
        /\ overlaps b e = true
        /\ Game.hitFirst b es
           = (pre ++ Enemy.TakeDamage (Bullet.damage b) e :: post, true)).
Proof.
  induction es as [|e es IH]; simpl.
  - left. split; [constructor|reflexivity].
  - fold (overlaps b e). destruct (overlaps b e) eqn:He.
    + right. exists [], e, es. repeat split; trivial.
    + destruct IH as [[Hno Hf]|(pre & e' & post & -> & Hno & He' & Hf)];
        rewrite Hf.
      * left. split; [constructor; assumption|reflexivity].
      * right. exists (e :: pre), e', post.
        repeat split; trivial. constructor; assumption.
Qed.

Lemma hitFirst_effect (b : Bullet.t) (es es1 : list Enemy.t) (hit : bool) :
  Game.hitFirst b es = (es1, hit) ->
  hit = existsb (overlaps b) es
  /\ map withoutHealth es1 = map withoutHealth es
  /\ totalHealth es - totalHealth es1 = (if hit then Bullet.damage b else 0).
Proof.
  destruct (hitFirst_first b es)
    as [[Hno Hf]|(pre & e & post & -> & Hno & He & Hf)];
    rewrite Hf; intros H; injection H as <- <-.
  - repeat split; try lia.
    symmetry. apply not_true_is_false. intros H.
    apply existsb_exists in H. destruct H as (e & Hin & He).
    rewrite Forall_forall in Hno. rewrite (Hno e Hin) in He. discriminate.
  - repeat split.
    + symmetry. apply existsb_exists. exists e. split; trivial.
      apply in_elt.
    + now rewrite !map_app.
    + unfold totalHealth, sumZ. rewrite !map_app, !fold_right_app. simpl.
      change (Enemy.health (Enemy.TakeDamage (Bullet.damage b) e))
        with (Enemy.health e - Bullet.damage b).
      generalize (fold_right Z.add 0 (map Enemy.health post)).
      intros z. clear. induction pre as [|a pre IH]; simpl; lia.
Qed.

Lemma totalDamage_cons (b : Bullet.t) (bs : list Bullet.t) :
  totalDamage (b :: bs) = Bullet.damage b + totalDamage bs.
Proof. reflexivity. Qed.

Lemma bulletsVsEnemies_effect (bs : list Bullet.t) :
  forall es au bs' es' au',
  Game.bulletsVsEnemies bs es au = (bs', es', au') ->
  bs' = filter (fun b => negb (hits es b)) bs
  /\ map withoutHealth es' = map withoutHealth es
  /\ totalHealth es - totalHealth es' = totalDamage (filter (hits es) bs).
Proof.
  induction bs as [|b bs IH]; intros es au bs' es' au';
    cbn [Game.bulletsVsEnemies filter].
  - intros H; injection H as <- <- _. repeat split.
    unfold totalDamage, sumZ. simpl. lia.
  - destruct (Bullet.isPlayerBullet b) eqn:Hp; cbn [negb].
    + destruct (Game.hitFirst b es) as [es1 hit] eqn:Hh.
      apply hitFirst_effect in Hh. destruct Hh as (Hhit & Hmap & Hsum).
      assert (Hext : forall b', hits es1 b' = hits es b')
        by (intros b'; unfold hits; f_equal;
            now apply existsb_overlaps_withoutHealth).
      assert (Hb : hits es b = hit)
        by (unfold hits; rewrite Hp, Hhit; reflexivity).
      rewrite Hb. destruct hit; cbn [negb].
      * intros H. apply IH in H. destruct H as (-> & Hm & Hs).
        rewrite (filter_ext _ _ Hext) in Hs.
        split; [|split].
        -- apply filter_ext. intros b'. now rewrite Hext.
        -- congruence.
        -- rewrite totalDamage_cons. lia.
      * destruct (Game.bulletsVsEnemies bs es1 au) as [[r e2] a2] eqn:Hr.
        intros H; injection H as <- <- <-.
        apply IH in Hr. destruct Hr as (-> & Hm & Hs).
        rewrite (filter_ext _ _ Hext) in Hs.
        split; [|split].
        -- f_equal. apply filter_ext. intros b'. now rewrite Hext.
        -- congruence.
        -- lia.
    + assert (Hb : hits es b = false) by (unfold hits; now rewrite Hp).
      rewrite Hb. cbn [negb].
      destruct (Game.bulletsVsEnemies bs es au) as [[r e2] a2] eqn:Hr.
      intros H; injection H as <- <- <-.
      apply IH in Hr. destruct Hr as (-> & Hm & Hs).
      repeat split; trivial.
Qed.

(** ** The other passes of [CheckCollisions] *)

Lemma enemiesVsPlayer_effect (es : list Enemy.t) :
  forall p au p' au',
  Game.enemiesVsPlayer es p au = (p', au') ->
  Player.health p' <= Player.health p
  /\ Player.maxHealth p' = Player.maxHealth p
  /\ Player.fireCooldown p' = Player.fireCooldown p.
Proof.
  induction es as [|e es IH]; intros p au p' au';
    cbn [Game.enemiesVsPlayer].
  - intros H; injection H as <- _. repeat split; lia.
  - destruct (CheckCollisionRecs _ _); intros H; apply IH in H;
      trivial.
    destruct H as (Hh & -> & ->). repeat split.
    unfold Player.health in *. cbn in Hh.
    destruct (is_BOSS (Enemy.type e)); lia.
Qed.

Lemma bulletsVsPlayer_effect (bs : list Bullet.t) :
  forall p au bs' p' au',
  Game.bulletsVsPlayer bs p au = (bs', p', au') ->
  Player.maxHealth p' = Player.maxHealth p
  /\ Player.fireCooldown p' = Player.fireCooldown p
  /\ (Forall (fun b => 0 <= Bullet.damage b) bs ->
      Player.health p' <= Player.health p
      /\ Forall (fun b => 0 <= Bullet.damage b) bs').
Proof.
  induction bs as [|b bs IH]; intros p au bs' p' au';
    cbn [Game.bulletsVsPlayer].
  - intros H; injection H as <- <- _. repeat split; try lia. constructor.
  - intros H.
    destruct (Bullet.isPlayerBullet b);
      [|destruct (CheckCollisionCircleRec _ _ _)].
    + destruct (Game.bulletsVsPlayer bs p au) as [[r p1] a1] eqn:Hr.
      injection H as <- <- <-.
      destruct (IH _ _ _ _ _ Hr) as (Hm & Hc & Hd).
      split; [exact Hm|]. split; [exact Hc|].
      intros Hall. apply Forall_cons_iff in Hall. destruct Hall as [Hb Hbs].
      destruct (Hd Hbs) as [Hh Hf]. split; [exact Hh|now constructor].
    + destruct (IH _ _ _ _ _ H) as (Hm & Hc & Hd).
      split; [exact Hm|]. split; [exact Hc|].
      intros Hall. apply Forall_cons_iff in Hall. destruct Hall as [Hb Hbs].
      destruct (Hd Hbs) as [Hh Hf]. split; [|exact Hf].
      unfold Player.health in *. cbn in Hh. lia.
    + destruct (Game.bulletsVsPlayer bs p au) as [[r p1] a1] eqn:Hr.
      injection H as <- <- <-.
      destruct (IH _ _ _ _ _ Hr) as (Hm & Hc & Hd).
      split; [exact Hm|]. split; [exact Hc|].
      intros Hall. apply Forall_cons_iff in Hall. destruct Hall as [Hb Hbs].
      destruct (Hd Hbs) as [Hh Hf]. split; [exact Hh|now constructor].
Qed.

Lemma upgradesVsPlayer_effect (us : list Upgrade.t) :
  forall p ns au us' p' ns' au',
  Game.upgradesVsPlayer us p ns au = (us', p', ns', au') ->
  Player.maxHealth p' - Player.health p'
  = Player.maxHealth p - Player.health p
  /\ Player.fireCooldown p' = Player.fireCooldown p.
Proof.
  induction us as [|u us IH]; intros p ns au us' p' ns' au';
    cbn [Game.upgradesVsPlayer].
  - intros H; injection H as _ <- _ _. split; reflexivity.
  - destruct (_ && _).
    + destruct (Upgrade.Apply au u) as [u1 au1].
      destruct (Upgrade.type u); intros H; apply IH in H;
        destruct H as (Hs & ->); split; trivial;
        rewrite Hs; cbn; unfold Player.health; cbn; lia.
    + destruct (Game.upgradesVsPlayer us p ns au) as [[[r p1] n1] a1] eqn:Hr.
      intros H; injection H as _ <- _ _. eapply IH, Hr.
Qed.

Lemma CheckCollisions_effect (g : Game.t) :
  let g' := Game.CheckCollisions g in
  map withoutHealth (Game.enemies g') = map withoutHealth (Game.enemies g)
  /\ (Forall (fun b => 0 <= Bullet.damage b) (Game.bullets g) ->
      Forall (fun b => 0 <= Bullet.damage b) (Game.bullets g')
      /\ Player.maxHealth (Game.player g) - Player.health (Game.player g)
         <= Player.maxHealth (Game.player g')
            - Player.health (Game.player g'))
  /\ Player.fireCooldown (Game.player g')
     = Player.fireCooldown (Game.player g)
  /\ Game.score g' = Game.score g
  /\ Game.enemySpawnTimer g' = Game.enemySpawnTimer g
  /\ Game.bossSpawnTimer g' = Game.bossSpawnTimer g
  /\ Game.bossesDefeated g' = Game.bossesDefeated g
  /\ Game.bossActive g' = Game.bossActive g
  /\ Game.state g' = Game.state g.
Proof.
  unfold Game.CheckCollisions, Game.CollideUpgrades,
    Game.CollideEnemyBullets, Game.CollideEnemies,
    Game.CollidePlayerBullets.
  destruct (Game.bulletsVsEnemies _ _ _) as [[bs1 es1] au1] eqn:H1.
  apply bulletsVsEnemies_effect in H1. destruct H1 as (Hbs1 & Hes1 & _).
  cbn.
  destruct (Game.enemiesVsPlayer _ _ _) as [p2 au2] eqn:H2.
  apply enemiesVsPlayer_effect in H2. destruct H2 as (Hh2 & Hm2 & Hc2).
  cbn.
  destruct (Game.bulletsVsPlayer _ _ _) as [[bs3 p3] au3] eqn:H3.
  pose proof (bulletsVsPlayer_effect _ _ _ _ _ _ H3) as H3'.
  cbn.
  destruct (Game.upgradesVsPlayer _ _ _ _) as [[[us4 p4] ns4] au4] eqn:H4.
  apply upgradesVsPlayer_effect in H4. destruct H4 as (Hs4 & Hc4).
  cbn.
  destruct H3' as (Hm3 & Hc3 & H3').
  split; [exact Hes1|]. split; [|repeat split; congruence].
  intros Hall.
  assert (Hall1 : Forall (fun b => 0 <= Bullet.damage b) bs1).
  { rewrite Hbs1. apply Forall_forall. intros b Hb.
    apply filter_In in Hb. rewrite Forall_forall in Hall.
    apply Hall, Hb. }
  destruct (H3' Hall1) as (Hh3 & Hall3).
  split; [exact Hall3|]. lia.
Qed.

(** *** Which enemy a bullet charges *)

Lemma Enemy_TakeDamage_0 (e : Enemy.t) : Enemy.TakeDamage 0 e = e.
Proof.
  destruct e as [[pos sp h c w ht] tm si ty sv].
  unfold Enemy.TakeDamage, Enemy.with_base, GameObject.TakeDamage. cbn.
  now rewrite Z.sub_0_r.
Qed.

Lemma Enemy_TakeDamage_add (a b : Z) (e : Enemy.t) :
  Enemy.TakeDamage b (Enemy.TakeDamage a e) = Enemy.TakeDamage (a + b) e.
Proof.
  unfold Enemy.TakeDamage, Enemy.with_base, GameObject.TakeDamage. cbn.
  now rewrite <- Z.sub_add_distr.
Qed.

Lemma firstHit_nil (b : Bullet.t) (i : nat) : firstHit [] b i = false.
Proof. unfold firstHit. now destruct i. Qed.

Lemma firstHit_0 (e : Enemy.t) (es : list Enemy.t) (b : Bullet.t) :
  firstHit (e :: es) b 0 = overlaps b e.
Proof. unfold firstHit. cbn. apply andb_true_r. Qed.

Lemma firstHit_S (e : Enemy.t) (es : list Enemy.t) (b : Bullet.t) (i : nat) :
  firstHit (e :: es) b (S i) = negb (overlaps b e) && firstHit es b i.
Proof.
  unfold firstHit. cbn [nth_error firstn existsb].
  destruct (nth_error es i) as [e'|]; [|apply eq_sym, andb_false_r].
  destruct (overlaps b e), (overlaps b e'),
    (existsb (overlaps b) (firstn i es)); reflexivity.
Qed.

(** A bullet has at most one first enemy. *)
Lemma firstHit_unique (es : list Enemy.t) (b : Bullet.t) :
  forall i j, firstHit es b i = true -> firstHit es b j = true -> i = j.
Proof.
  induction es as [|e es IH]; intros i j Hi Hj.
  - rewrite firstHit_nil in Hi. discriminate.
  - destruct i as [|i], j as [|j]; trivial.
    + rewrite firstHit_0 in Hi. rewrite firstHit_S, Hi in Hj. discriminate.
    + rewrite firstHit_0 in Hj. rewrite firstHit_S, Hj in Hi. discriminate.
    + rewrite firstHit_S in Hi, Hj.
      apply andb_prop in Hi. apply andb_prop in Hj.
      f_equal. apply IH; tauto.
Qed.

Lemma firstHit_withoutHealth (b : Bullet.t) (es1 : list Enemy.t) :
  forall es2 i,
  map withoutHealth es1 = map withoutHealth es2 ->
  firstHit es1 b i = firstHit es2 b i.
Proof.
  induction es1 as [|e1 es1 IH]; intros [|e2 es2] i H; try discriminate;
    trivial.
  apply cons_inj in H. destruct H as [He Hes].
  assert (Ho : overlaps b e1 = overlaps b e2).
  { change (overlaps b e1) with (overlaps b (withoutHealth e1)).
    now rewrite He. }
  destruct i as [|i]; rewrite ?firstHit_0, ?firstHit_S, Ho; trivial.
  f_equal. now apply IH.
Qed.

(** The inner loop, enemy by enemy: the enemy of index [i] takes the
    damage of the bullet when it is the first overlapped, and is left as
    it is otherwise. *)
Lemma hitFirst_nth (b : Bullet.t) (es : list Enemy.t) :
  forall i e,
  nth_error es i = Some e ->
  nth_error (fst (Game.hitFirst b es)) i
  = Some (Enemy.TakeDamage (if firstHit es b i then Bullet.damage b else 0)
                           e).
Proof.
  induction es as [|e0 es IH]; intros i e Hi; [now destruct i|].
  cbn [Game.hitFirst]. fold (overlaps b e0).
  destruct i as [|i]; cbn [nth_error] in Hi.
  - injection Hi as ->. rewrite firstHit_0.
    destruct (overlaps b e); cbn [fst nth_error]; trivial.
    destruct (Game.hitFirst b es) as [rest hit]. cbn [fst nth_error].
    now rewrite Enemy_TakeDamage_0.
  - rewrite firstHit_S.
    destruct (overlaps b e0); cbn [negb andb fst nth_error].
    + now rewrite Enemy_TakeDamage_0.
    + specialize (IH i e Hi).
      destruct (Game.hitFirst b es) as [rest hit]. cbn [fst nth_error] in *.
      exact IH.
Qed.

Lemma chargedTo_cons (es : list Enemy.t) (b : Bullet.t) (bs : list Bullet.t)
    (i : nat) :
  chargedTo es (b :: bs) i
  = (if Bullet.isPlayerBullet b && firstHit es b i
     then Bullet.damage b else 0)
    + chargedTo es bs i.
Proof.
  unfold chargedTo. cbn [filter].
  destruct (Bullet.isPlayerBullet b && firstHit es b i);
    [apply totalDamage_cons|reflexivity].
Qed.

(** The pass, enemy by enemy: every enemy stays at its index and takes
    the damage of the bullets of the player of which it is the first
    overlapped enemy. *)
Lemma bulletsVsEnemies_nth (bs : list Bullet.t) :
  forall es au bs' es' au',
  Game.bulletsVsEnemies bs es au = (bs', es', au') ->
  forall i e,
  nth_error es i = Some e ->
  nth_error es' i = Some (Enemy.TakeDamage (chargedTo es bs i) e).
Proof.
  induction bs as [|b bs IH]; intros es au bs' es' au';
    cbn [Game.bulletsVsEnemies].
  - intros H i e Hi; injection H as _ <- _.
    unfold chargedTo, totalDamage, sumZ. cbn.
    now rewrite Enemy_TakeDamage_0.
  - intros H i e Hi. rewrite chargedTo_cons.
    destruct (Bullet.isPlayerBullet b); cbn [negb andb] in *.
    + pose proof (hitFirst_nth b es i e Hi) as Hn.
      destruct (Game.hitFirst b es) as [es1 hit] eqn:Hh.
      apply hitFirst_effect in Hh. destruct Hh as (_ & Hm & _).
      cbn [fst] in Hn.
      assert (Hc : chargedTo es1 bs i = chargedTo es bs i).
      { unfold chargedTo. f_equal. apply filter_ext. intros b'.
        f_equal. now apply firstHit_withoutHealth. }
      assert (Hgo : forall r e2 a2 au0,
                 Game.bulletsVsEnemies bs es1 au0 = (r, e2, a2) ->
                 nth_error e2 i
                 = Some (Enemy.TakeDamage
                           ((if firstHit es b i then Bullet.damage b else 0)
                            + chargedTo es bs i) e)).
      { intros r e2 a2 au0 Hr.
        rewrite (IH _ _ _ _ _ Hr i _ Hn), Hc.
        now rewrite Enemy_TakeDamage_add. }
      destruct hit.
      * eapply Hgo, H.
      * destruct (Game.bulletsVsEnemies bs es1 au) as [[r e2] a2] eqn:Hr.
        injection H as _ <- _. eapply Hgo, Hr.
    + destruct (Game.bulletsVsEnemies bs es au) as [[r e2] a2] eqn:Hr.
      injection H as _ <- _.
      rewrite Z.add_0_l. exact (IH _ _ _ _ _ Hr i e Hi).
Qed.

(** C3: in the pass of the player's bullets against the enemies, a
    bullet damages the first enemy it overlaps (circle of radius 5
    against the hitbox), by its [damage], and no other enemy; the
    bullets removed are exactly the player's bullets that overlap an
    enemy; every enemy stays in the collection, changed in health only,
    and the health lost in total is the damage of the bullets removed.
    Enemy by enemy: after the pass the enemy of each index is the enemy
    of before, less the damage of exactly the bullets of the player of
    which it is the first overlapped enemy in the order of the
    collection, and a bullet has at most one such enemy. *)
Theorem player_bullet_hits_first_enemy (g : Game.t) :
  (forall b es,
      (Forall (fun e => overlaps b e = false) es
       /\ Game.hitFirst b es = (es, false))
      \/ (exists pre e post,
            es = pre ++ e :: post
            /\ Forall (fun e => overlaps b e = false) pre
            /\ overlaps b e = true
            /\ Game.hitFirst b es
               = (pre ++ Enemy.TakeDamage (Bullet.damage b) e :: post,
                  true)))
  /\ (let g' := Game.CollidePlayerBullets g in
      Game.bullets g'
      = filter (fun b => negb (hits (Game.enemies g) b)) (Game.bullets g)
      /\ map withoutHealth (Game.enemies g')
         = map withoutHealth (Game.enemies g)
      /\ length (Game.enemies g') = length (Game.enemies g)
      /\ totalHealth (Game.enemies g) - totalHealth (Game.enemies g')
         = totalDamage (filter (hits (Game.enemies g)) (Game.bullets g))
      /\ Game.player g' = Game.player g
      /\ Game.upgrades g' = Game.upgrades g
      /\ Game.notifications g' = Game.notifications g
      /\ Game.score g' = Game.score g
      /\ (forall i e,
            nth_error (Game.enemies g) i = Some e ->
            nth_error (Game.enemies g') i
            = Some (Enemy.TakeDamage
                      (chargedTo (Game.enemies g) (Game.bullets g) i) e)
            /\ Enemy.health (Enemy.TakeDamage
                               (chargedTo (Game.enemies g) (Game.bullets g) i)
                               e)
               = Enemy.health e
                 - totalDamage
                     (filter (fun b => Bullet.isPlayerBullet b
                                       && firstHit (Game.enemies g) b i)
                             (Game.bullets g)))
      /\ (forall b i j,
            firstHit (Game.enemies g) b i = true ->
            firstHit (Game.enemies g) b j = true -> i = j)
      /\ (forall b i,
            firstHit (Game.enemies g) b i = true
            <-> exists e, nth_error (Game.enemies g) i = Some e
                          /\ overlaps b e = true
                          /\ Forall (fun e' => overlaps b e' = false)
                                    (firstn i (Game.enemies g)))).
Proof.
  split; [exact hitFirst_first|].
  unfold Game.CollidePlayerBullets.
  destruct (Game.bulletsVsEnemies _ _ _) as [[bs es] au] eqn:H. simpl.
  pose proof (bulletsVsEnemies_nth _ _ _ _ _ _ H) as Hn.
  apply bulletsVsEnemies_effect in H. destruct H as (Hb & Hm & Hs).
  split; [exact Hb|]. split; [exact Hm|].
  split; [rewrite <- (length_map withoutHealth), Hm; apply length_map|].
  split; [exact Hs|]. do 4 (split; [reflexivity|]).
  split; [|split].
  - intros i e Hi. split; [now apply Hn|reflexivity].
  - apply firstHit_unique.
  - intros b i. unfold firstHit.
    destruct (nth_error (Game.enemies g) i) as [e|].
    + rewrite andb_true_iff, negb_true_iff. split.
      * intros [Ho Hp]. exists e. repeat split; trivial.
        apply Forall_forall. intros e' Hin.
        apply not_true_is_false. intros He'.
        assert (Hex : existsb (overlaps b) (firstn i (Game.enemies g)) = true)
          by (apply existsb_exists; now exists e').
        rewrite Hex in Hp. discriminate.
      * intros (e0 & He0 & Ho & Hp). injection He0 as <-.
        split; trivial. apply not_true_is_false. intros Hex.
        apply existsb_exists in Hex. destruct Hex as (e' & Hin & He').
        rewrite Forall_forall in Hp. rewrite (Hp e' Hin) in He'.
        discriminate.
    + split; [discriminate|]. intros (e & He & _). discriminate.
Qed.

(** ** One call of [UpdateGame], step by step *)

(** Brings in what [CheckCollisions] does to the game it is applied to in
    the goal. *)
Ltac collisions_effect H :=
  match goal with
  | |- context [Game.CheckCollisions ?k] =>
    pose proof (CheckCollisions_effect k) as H; cbv zeta in H
  end.

Lemma afterPlayer_effect (dt : float) (kl kr : bool) (g : Game.t) :
  let g' := afterPlayer dt kl kr g in
  Game.enemies g' = Game.enemies g
  /\ Game.score g' = Game.score g
  /\ Game.enemySpawnTimer g' = Game.enemySpawnTimer g
  /\ Game.bossSpawnTimer g' = Game.bossSpawnTimer g
  /\ Game.bossesDefeated g' = Game.bossesDefeated g
  /\ Game.bossActive g' = Game.bossActive g
  /\ Game.state g' = Game.state g
  /\ Player.health (Game.player g') = Player.health (Game.player g)
  /\ Player.maxHealth (Game.player g') = Player.maxHealth (Game.player g)
  /\ Player.fireCooldown (Game.player g')
     = (if (Player.fireCooldown (Game.player g) - dt <=? F32.of_int 0)%f32
        then Player.fireRate (Game.player g)
        else (Player.fireCooldown (Game.player g) - dt)%f32)
  /\ (exists fresh, Game.bullets g' = Game.bullets g ++ fresh
                    /\ Forall (fun b => 0 <= Bullet.damage b) fresh).
Proof.
  unfold afterPlayer, Player.Update.
  destruct (_ <=? _)%f32; cbn; repeat split.
  - eexists [_]. split; [reflexivity|]. constructor; [cbn; lia|constructor].
  - exists []. now rewrite app_nil_r.
Qed.

Lemma UpdateGame_steps (dt : float) (kl kr : bool) (g : Game.t) :
  Game.UpdateGame dt kl kr g
  = if Player.IsDead (Game.player (afterPlayer dt kl kr g))
    then Game.with_state GAME_OVER (afterPlayer dt kl kr g)
    else Game.CheckCollisions
           (Game.UpdateNotifications dt
              (Game.UpdateUpgrades dt
                 (Game.UpdateEnemies dt (beforeEnemies dt kl kr g)))).
Proof.
  unfold Game.UpdateGame, beforeEnemies, afterPlayer.
  now destruct (Player.Update _ _ _ _ _ _) as [[[p bs] au] fired].
Qed.

Lemma UpdateBullets_damage (dt : float) (g : Game.t) :
  Forall (fun b => 0 <= Bullet.damage b) (Game.bullets g) ->
  Forall (fun b => 0 <= Bullet.damage b)
         (Game.bullets (Game.UpdateBullets dt g)).
Proof.
  intros H. cbn. apply Forall_forall. intros b Hb.
  apply filter_In in Hb. destruct Hb as [Hb _].
  apply in_map_iff in Hb. destruct Hb as (b0 & <- & Hb0).
  rewrite Forall_forall in H. apply (H b0 Hb0).
Qed.

(** ** The boss gate *)

Lemma beforeEnemies_bosses (dt : float) (kl kr : bool) (g : Game.t) :
  bossGate g ->
  let h := beforeEnemies dt kl kr g in
  bossGate h
  /\ (Game.bossActive g = true ->
      Game.bossActive h = true
      /\ length (filter deadBoss (Game.enemies h))
         = length (filter deadBoss (Game.enemies g)))
  /\ Game.bossesDefeated h = Game.bossesDefeated g.
Proof.
  unfold bossGate, beforeEnemies. intros Hg.
  destruct (afterPlayer_effect dt kl kr g)
    as (He1 & _ & _ & _ & Hn1 & Ha1 & _).
  set (g1 := afterPlayer dt kl kr g) in *.
  destruct (SpawnEnemies_effect dt g1)
    as (fresh & He2 & Hf2 & _ & _ & _ & _ & _ & Hn2 & Ha2 & _).
  set (g2 := Game.SpawnEnemies dt g1) in *.
  assert (Hnb : Forall (fun e => is_BOSS (Enemy.type e) = false) fresh)
    by (eapply Forall_impl; [|exact Hf2]; cbn; tauto).
  destruct (no_boss_count _ Hnb) as [Hc Hd].
  destruct (SpawnBoss_effect dt g2)
    as (Hon & Hoff & _ & _ & _ & _ & Hn3 & _).
  set (g3 := Game.SpawnBoss dt g2) in *.
  cbn [Game.UpdateBullets Game.enemies Game.with_bullets
       Game.bossActive Game.bossesDefeated].
  assert (H2 : bossCount (Game.enemies g2)
               = (if Game.bossActive g2 then 1 else 0)%nat)
    by (rewrite He2, bossCount_app, Hc, He1, Ha2, Ha1; lia).
  split; [|split].
  - destruct (Game.bossActive g2) eqn:Hb.
    + now rewrite (Hon eq_refl), Hb.
    + destruct (Hoff eq_refl) as [[He Ha]|(e & He & Hv & Ha)];
        rewrite He, Ha; trivial.
      rewrite bossCount_app, H2.
      unfold vitals in Hv. injection Hv as Ht _ _.
      unfold bossCount. cbn [filter]. now rewrite Ht.
  - intros Hact.
    assert (Hb : Game.bossActive g2 = true) by congruence.
    rewrite (Hon Hb), Hb, He2, deadBoss_count_app, Hd, He1.
    split; [reflexivity|lia].
  - congruence.
Qed.

Lemma UpdateGame_bossGate (dt : float) (kl kr : bool) (g : Game.t) :
  bossGate g -> bossGate (Game.UpdateGame dt kl kr g).
Proof.
  intros Hg. rewrite UpdateGame_steps.
  destruct (Player.IsDead _).
  - unfold bossGate in *. cbn.
    destruct (afterPlayer_effect dt kl kr g)
      as (He1 & _ & _ & _ & _ & Ha1 & _).
    now rewrite He1, Ha1.
  - destruct (beforeEnemies_bosses dt kl kr g Hg) as (Hh & _).
    set (h := beforeEnemies dt kl kr g) in *.
    destruct (UpdateEnemies_effect dt h)
      as (Hv & He & _ & _ & Ha & _).
    destruct (CheckCollisions_effect
                (Game.UpdateNotifications dt
                   (Game.UpdateUpgrades dt (Game.UpdateEnemies dt h))))
      as (Hw & _ & _ & _ & _ & _ & _ & Hact & _).
    unfold bossGate in *.
    apply withoutHealth_counts in Hw. destruct Hw as [Hw _].
    rewrite Hw, Hact.
    cbn [Game.UpdateNotifications Game.UpdateUpgrades Game.enemies
         Game.bossActive Game.with_notifications Game.with_upgrades].
    rewrite He, Ha.
    apply vitals_counts in Hv. destruct Hv as [Hc Hd].
    pose proof (bossCount_reap (updatedEnemies dt h)) as Hr.
    pose proof (deadBoss_le_bossCount (updatedEnemies dt h)) as Hle.
    rewrite Hc in Hr, Hle. rewrite Hh in Hr, Hle.
    destruct (Game.bossActive h); cbn [andb].
    + destruct (length (filter deadBoss (updatedEnemies dt h)))
        as [|[|n]]; cbn; lia.
    + lia.
Qed.

Lemma reachable_bossGate (g : Game.t) : Game.reachable g -> bossGate g.
Proof.
  induction 1 as [rng|f g _ IH].
  - reflexivity.
  - unfold Game.RunFrame. destruct (Game.state g).
    + now apply UpdateGame_bossGate.
    + destruct (Game.KEY_ENTER f); [reflexivity|exact IH].
Qed.

Lemma afterPlayer_IsDead (dt : float) (kl kr : bool) (g : Game.t) :
  Player.IsDead (Game.player (afterPlayer dt kl kr g))
  = Player.IsDead (Game.player g).
Proof.
  destruct (afterPlayer_effect dt kl kr g)
    as (_ & _ & _ & _ & _ & _ & _ & Hh & _).
  unfold Player.IsDead, GameObject.IsDead.
  unfold Player.health in Hh. now rewrite Hh.
Qed.

(** C2: in every reachable state with [bossActive] set there is at most
    one boss; [SpawnBoss] does nothing while [bossActive] is set; every
    step of the frame but the reaping of [UpdateEnemies] keeps
    [bossActive] set, and the reaping clears it exactly when it removes
    a dead boss, counting the bosses removed in [bossesDefeated]; over a
    frame of play, [bossActive] is cleared exactly when the player is
    alive and a dead boss is in the collection, and then
    [bossesDefeated] grows by one. *)
Theorem boss_gating (g : Game.t) (f : Game.Frame) :
  Game.reachable g ->
  (Game.bossActive g = true -> (bossCount (Game.enemies g) <= 1)%nat)
  /\ (forall dt, Game.bossActive g = true -> Game.SpawnBoss dt g = g)
  /\ (forall dt kl kr h,
        Game.bossActive h = true ->
        Game.bossActive (afterPlayer dt kl kr h) = true
        /\ Game.bossActive (Game.SpawnEnemies dt h) = true
        /\ Game.bossActive (Game.SpawnBoss dt h) = true
        /\ Game.bossActive (Game.UpdateBullets dt h) = true
        /\ Game.bossActive (Game.UpdateUpgrades dt h) = true
        /\ Game.bossActive (Game.UpdateNotifications dt h) = true
        /\ Game.bossActive (Game.CheckCollisions h) = true
        /\ (Game.bossActive (Game.UpdateEnemies dt h) = false
            <-> exists e, In e (updatedEnemies dt h) /\ deadBoss e = true))
  /\ (forall dt h,
        Game.bossesDefeated (Game.UpdateEnemies dt h)
        = Game.bossesDefeated h
          + Z.of_nat (length (filter deadBoss (updatedEnemies dt h))))
  /\ (Game.state g = PLAYING ->
      Game.bossActive g = true ->
      let g' := Game.RunFrame f g in
      (Game.bossActive g' = false
       <-> Player.IsDead (Game.player g) = false
           /\ exists e, In e (Game.enemies g) /\ deadBoss e = true)
      /\ Game.bossesDefeated g'
         = Game.bossesDefeated g
           + (if Game.bossActive g' then 0 else 1)).
Proof.
  intros Hreach. pose proof (reachable_bossGate g Hreach) as Hgate.
  split; [|split; [|split; [|split]]].
  - intros Ha. unfold bossGate in Hgate. rewrite Ha in Hgate. lia.
  - intros dt Ha. apply (SpawnBoss_effect dt g), Ha.
  - intros dt kl kr h Ha.
    destruct (afterPlayer_effect dt kl kr h)
      as (_ & _ & _ & _ & _ & Ha1 & _).
    destruct (SpawnEnemies_effect dt h)
      as (fresh & _ & _ & _ & _ & _ & _ & _ & _ & Ha2 & _).
    destruct (SpawnBoss_effect dt h) as (Hon & _).
    destruct (CheckCollisions_effect h)
      as (_ & _ & _ & _ & _ & _ & _ & Ha8 & _).
    destruct (UpdateEnemies_effect dt h) as (_ & _ & _ & _ & Ha5 & _).
    cbv zeta in *.
    rewrite Ha1, Ha2, (Hon Ha), Ha8, Ha5, Ha. cbn.
    repeat split; trivial.
    + intros H. apply deadBoss_count_In. apply Nat.eqb_neq in H. lia.
    + intros H. apply deadBoss_count_In in H. apply Nat.eqb_neq. lia.
  - intros dt h. apply (UpdateEnemies_effect dt h).
  - intros Hs Ha g'. subst g'. unfold Game.RunFrame. rewrite Hs.
    rewrite UpdateGame_steps, afterPlayer_IsDead.
    set (dt := Game.GetFrameTime f). set (kl := Game.KEY_LEFT f).
    set (kr := Game.KEY_RIGHT f).
    destruct (Player.IsDead (Game.player g)).
    + destruct (afterPlayer_effect dt kl kr g)
        as (_ & _ & _ & _ & Hn1 & Ha1 & _).
      cbn. rewrite Ha1, Hn1, Ha. split; [|lia].
      split; [discriminate|]. intros [H _]. discriminate.
    + destruct (beforeEnemies_bosses dt kl kr g Hgate) as (_ & Hh & Hn).
      destruct (Hh Ha) as [Hah Hdh].
      set (h := beforeEnemies dt kl kr g) in *.
      destruct (UpdateEnemies_effect dt h)
        as (Hv & _ & _ & Hn5 & Ha5 & _).
      destruct (CheckCollisions_effect
                  (Game.UpdateNotifications dt
                     (Game.UpdateUpgrades dt (Game.UpdateEnemies dt h))))
        as (_ & _ & _ & _ & _ & _ & Hn8 & Ha8 & _).
      cbv zeta in *. rewrite Ha8, Hn8. cbn. rewrite Ha5, Hn5, Hah, Hn.
      apply vitals_counts in Hv. destruct Hv as [_ Hd].
      rewrite Hd, Hdh.
      pose proof (deadBoss_le_bossCount (Game.enemies g)) as Hle.
      unfold bossGate in Hgate. rewrite Hgate, Ha in Hle.
      pose proof (deadBoss_count_In (Game.enemies g)) as Hin.
      destruct (length (filter deadBoss (Game.enemies g))) as [|[|n]];
        cbn; try lia.
      * split; [|lia]. split; [discriminate|].
        intros [_ H]. apply Hin in H. lia.
      * split; [|lia]. split; [|reflexivity].
        intros _. split; [reflexivity|]. apply Hin. lia.
Qed.

(** ** Health of the player *)

Lemma beforeEnemies_player (dt : float) (kl kr : bool) (g : Game.t) :
  Game.player (beforeEnemies dt kl kr g)
  = Game.player (afterPlayer dt kl kr g)
  /\ (Forall (fun b => 0 <= Bullet.damage b) (Game.bullets g) ->
      Forall (fun b => 0 <= Bullet.damage b)
             (Game.bullets (beforeEnemies dt kl kr g))).
Proof.
  unfold beforeEnemies.
  destruct (afterPlayer_effect dt kl kr g)
    as (_ & _ & _ & _ & _ & _ & _ & _ & _ & _ & fresh & Hb1 & Hf1).
  set (g1 := afterPlayer dt kl kr g) in *.
  destruct (SpawnEnemies_effect dt g1) as (fr & _ & _ & Hp2 & Hb2 & _).
  set (g2 := Game.SpawnEnemies dt g1) in *.
  destruct (SpawnBoss_effect dt g2) as (_ & _ & Hp3 & Hb3 & _).
  split.
  - cbn. congruence.
  - intros Hall. apply UpdateBullets_damage.
    rewrite Hb3, Hb2, Hb1. apply Forall_app. now split.
Qed.

Lemma UpdateGame_healthOK (dt : float) (kl kr : bool) (g : Game.t) :
  healthOK g -> healthOK (Game.UpdateGame dt kl kr g).
Proof.
  unfold healthOK. intros [Hh Hall]. rewrite UpdateGame_steps.
  destruct (afterPlayer_effect dt kl kr g)
    as (_ & _ & _ & _ & _ & _ & _ & Hh1 & Hm1 & _ & fresh & Hb1 & Hf1).
  destruct (Player.IsDead _).
  - cbn. rewrite Hh1, Hm1, Hb1. split; trivial.
    apply Forall_app. now split.
  - destruct (beforeEnemies_player dt kl kr g) as [Hp Hb].
    specialize (Hb Hall).
    set (h := beforeEnemies dt kl kr g) in *.
    destruct (UpdateEnemies_effect dt h)
      as (_ & _ & _ & _ & _ & (fr & Hb5 & Hf5) & Hp5 & _).
    collisions_effect Hcc. destruct Hcc as (_ & Hc & _).
    match goal with |- context [Game.CheckCollisions ?k] =>
      set (g7 := k) in *
    end.
    assert (Hp7 : Game.player g7 = Game.player (afterPlayer dt kl kr g))
      by (subst g7; cbn; congruence).
    assert (Hb7 : Forall (fun b => 0 <= Bullet.damage b) (Game.bullets g7)).
    { subst g7. cbn. rewrite Hb5. apply Forall_app. now split. }
    destruct (Hc Hb7) as [Hall8 Hs8]. split; trivial.
    rewrite Hp7, Hh1, Hm1 in Hs8. lia.
Qed.

Lemma reachable_healthOK (g : Game.t) : Game.reachable g -> healthOK g.
Proof.
  induction 1 as [rng|f g _ IH].
  - split; [cbn; lia|constructor].
  - unfold Game.RunFrame. destruct (Game.state g).
    + now apply UpdateGame_healthOK.
    + destruct (Game.KEY_ENTER f); [|exact IH].
      split; [cbn; lia|constructor].
Qed.

(** C8: in every reachable state the health of the player is at most
    its maximal health.  The player is built with 3 and 3; [Reset] sets
    the health to the maximum; [IncreaseMaxHealth] adds one to both, so
    that a player at full health stays at full health; [TakeDamage] of
    a non-negative amount does not raise the health; the other
    operations change neither. *)
Theorem health_le_maxHealth (g : Game.t) :
  Game.reachable g ->
  Player.health (Game.player g) <= Player.maxHealth (Game.player g)
  /\ (Player.health Player.new = 3 /\ Player.maxHealth Player.new = 3)
  /\ (forall p,
        Player.health (Player.Reset p) = Player.maxHealth p
        /\ Player.maxHealth (Player.Reset p) = Player.maxHealth p)
  /\ (forall p,
        Player.health (Player.IncreaseMaxHealth p) = Player.health p + 1
        /\ Player.maxHealth (Player.IncreaseMaxHealth p)
           = Player.maxHealth p + 1)
  /\ (forall p,
        Player.health p = Player.maxHealth p ->
        Player.health (Player.IncreaseMaxHealth p)
        = Player.maxHealth (Player.IncreaseMaxHealth p))
  /\ (forall p amount,
        0 <= amount ->
        Player.health (Player.TakeDamage amount p) <= Player.health p
        /\ Player.maxHealth (Player.TakeDamage amount p)
           = Player.maxHealth p)
  /\ (forall p,
        Player.health (Player.UpgradeFireRate p) = Player.health p
        /\ Player.maxHealth (Player.UpgradeFireRate p)
           = Player.maxHealth p
        /\ Player.health (Player.UpgradeAttackRange p) = Player.health p
        /\ Player.maxHealth (Player.UpgradeAttackRange p)
           = Player.maxHealth p)
  /\ (forall dt kl kr bs au p p' bs' au' fired,
        Player.Update dt kl kr bs au p = (p', bs', au', fired) ->
        Player.health p' = Player.health p
        /\ Player.maxHealth p' = Player.maxHealth p).
Proof.
  intros Hreach. split; [apply (reachable_healthOK g Hreach)|].
  split; [split; reflexivity|].
  split; [intros p; split; reflexivity|].
  split; [intros p; split; reflexivity|].
  split; [intros p H; cbn; unfold Player.health in *; cbn; lia|].
  split; [intros p a H; unfold Player.health; cbn; split; lia|].
  split; [intros p; repeat split|].
  intros dt kl kr bs au p p' bs' au' fired H.
  apply Player_Update_stats in H. split; apply H.
Qed.

(** ** Score *)

Lemma beforeEnemies_enemies (dt : float) (kl kr : bool) (g : Game.t) :
  let h := beforeEnemies dt kl kr g in
  Game.score h = Game.score g
  /\ exists fresh,
       Game.enemies h = Game.enemies g ++ fresh
       /\ Forall (fun e => 0 <= Enemy.scoreValue e) fresh.
Proof.
  unfold beforeEnemies.
  destruct (afterPlayer_effect dt kl kr g) as (He1 & Hs1 & _).
  set (g1 := afterPlayer dt kl kr g) in *.
  destruct (SpawnEnemies_effect dt g1)
    as (fresh & He2 & Hf2 & _ & _ & Hs2 & _ & _ & _ & Ha2 & _).
  set (g2 := Game.SpawnEnemies dt g1) in *.
  assert (Hf : Forall (fun e => 0 <= Enemy.scoreValue e) fresh)
    by (eapply Forall_impl; [|exact Hf2]; cbn; tauto).
  destruct (SpawnBoss_effect dt g2) as (Hon & Hoff & _ & _ & Hs3 & _).
  cbn. split; [congruence|].
  destruct (Game.bossActive g2) eqn:Hb.
  - rewrite (Hon eq_refl), He2, He1. now exists fresh.
  - destruct (Hoff eq_refl) as [[He _]|(e & He & Hv & _)];
      rewrite He, He2, He1.
    + now exists fresh.
    + exists (fresh ++ [e]). rewrite app_assoc. split; [reflexivity|].
      apply Forall_app. split; trivial. constructor; [|constructor].
      unfold vitals in Hv. injection Hv as _ _ ->. lia.
Qed.

Lemma UpdateGame_score (dt : float) (kl kr : bool) (g : Game.t) :
  Game.score (Game.UpdateGame dt kl kr g)
  = Game.score g
    + sumZ (map Enemy.scoreValue (reapedInFrame dt kl kr g)).
Proof.
  rewrite UpdateGame_steps. unfold reapedInFrame.
  destruct (Player.IsDead _).
  - destruct (afterPlayer_effect dt kl kr g) as (_ & Hs1 & _).
    cbn. rewrite Hs1. lia.
  - destruct (beforeEnemies_enemies dt kl kr g) as (Hs & _).
    set (h := beforeEnemies dt kl kr g) in *.
    destruct (UpdateEnemies_effect dt h) as (_ & _ & Hs5 & _).
    collisions_effect Hcc. destruct Hcc as (_ & _ & _ & Hs8 & _).
    rewrite Hs8. cbn. now rewrite Hs5, Hs.
Qed.

Lemma reapedInFrame_scoreOK (dt : float) (kl kr : bool) (g : Game.t) :
  scoreOK g ->
  Forall (fun e => 0 <= Enemy.scoreValue e)
         (updatedEnemies dt (beforeEnemies dt kl kr g))
  /\ 0 <= sumZ (map Enemy.scoreValue (reapedInFrame dt kl kr g)).
Proof.
  intros [Hall Hs].
  assert (Hu : Forall (fun e => 0 <= Enemy.scoreValue e)
                      (updatedEnemies dt (beforeEnemies dt kl kr g))).
  { destruct (beforeEnemies_enemies dt kl kr g) as (_ & fresh & He & Hf).
    destruct (UpdateEnemies_effect dt (beforeEnemies dt kl kr g))
      as (Hv & _).
    apply scoreValues_nonneg. rewrite (vitals_scoreValues _ _ Hv), He.
    apply scoreValues_nonneg, Forall_app. now split. }
  split; trivial. unfold reapedInFrame, reaped.
  destruct (Player.IsDead _); [cbn; lia|].
  now apply filter_scores_nonneg.
Qed.

Lemma UpdateGame_scoreOK (dt : float) (kl kr : bool) (g : Game.t) :
  scoreOK g -> scoreOK (Game.UpdateGame dt kl kr g).
Proof.
  intros Hg. destruct (reapedInFrame_scoreOK dt kl kr g Hg) as [Hu Hr].
  destruct Hg as [Hall Hs]. split.
  - rewrite UpdateGame_steps.
    destruct (Player.IsDead _).
    + destruct (afterPlayer_effect dt kl kr g) as (He1 & _).
      cbn. now rewrite He1.
    + set (h := beforeEnemies dt kl kr g) in *.
      destruct (UpdateEnemies_effect dt h) as (_ & He5 & _).
      collisions_effect Hcc. destruct Hcc as (Hw & _).
      apply withoutHealth_counts in Hw. destruct Hw as [_ Hw].
      apply scoreValues_nonneg. rewrite Hw. cbn. rewrite He5.
      apply scoreValues_nonneg, Forall_forall. intros e He.
      apply filter_In in He. rewrite Forall_forall in Hu. apply Hu, He.
  - rewrite UpdateGame_score. lia.
Qed.

Lemma reachable_scoreOK (g : Game.t) : Game.reachable g -> scoreOK g.
Proof.
  induction 1 as [rng|f g _ IH].
  - split; [constructor|cbn; lia].
  - unfold Game.RunFrame. destruct (Game.state g).
    + now apply UpdateGame_scoreOK.
    + destruct (Game.KEY_ENTER f); [|exact IH].
      split; [constructor|cbn; lia].
Qed.

(** C9: from a reachable state, a frame of play adds to the score the
    [scoreValue] of every enemy removed as dead by that call, and so
    does not lower it; the enemies removed by the reaping and the
    enemies it keeps are together the enemies it visits; out of play the
    score stays, or is set to 0 by the restart. *)
Theorem score_grows_by_reaped (g : Game.t) (f : Game.Frame) :
  Game.reachable g ->
  let g' := Game.RunFrame f g in
  (Game.state g = PLAYING ->
   Game.score g'
   = Game.score g
     + sumZ (map Enemy.scoreValue
                 (reapedInFrame (Game.GetFrameTime f) (Game.KEY_LEFT f)
                                (Game.KEY_RIGHT f) g))
   /\ Game.score g <= Game.score g')
  /\ (Game.state g = GAME_OVER ->
      Game.score g' = if Game.KEY_ENTER f then 0 else Game.score g)
  /\ (forall dt h,
        Permutation (updatedEnemies dt h)
                    (reaped dt h ++ Game.enemies (Game.UpdateEnemies dt h))
        /\ Game.score (Game.UpdateEnemies dt h)
           = Game.score h + sumZ (map Enemy.scoreValue (reaped dt h)))
  /\ 0 <= Game.score g.
Proof.
  intros Hreach g'. subst g'.
  pose proof (reachable_scoreOK g Hreach) as Hok.
  split; [|split; [|split]].
  - intros Hs. unfold Game.RunFrame. rewrite Hs, UpdateGame_score.
    split; trivial.
    destruct (reapedInFrame_scoreOK (Game.GetFrameTime f) (Game.KEY_LEFT f)
                (Game.KEY_RIGHT f) g Hok) as [_ H].
    lia.
  - intros Hs. unfold Game.RunFrame. rewrite Hs.
    now destruct (Game.KEY_ENTER f).
  - intros dt h.
    destruct (UpdateEnemies_effect dt h) as (_ & He & Hs & _).
    split; trivial. rewrite He. apply filter_split.
  - apply Hok.
Qed.

(** ** Frame time *)



End GameFacts.

(** ** The properties on concrete games *)

(** A bullet of the player in a SIMPLE enemy: the enemy is left with no
    health and the bullet is gone; the next reaping removes the enemy and
    scores 10, and the draw 0 drops an upgrade. *)
Example bullet_kills_simple :
  let g1 := Game.CheckCollisions (R := raylib) duelGame in
  let g2 := Game.UpdateEnemies (F32.of_int 0) g1 in
  map Enemy.health (Game.enemies g1) = [0]
  /\ Game.bullets g1 = []
  /\ Game.enemies g2 = []
  /\ Game.score g2 = 10
  /\ map Upgrade.type (Game.upgrades g2) = [HEALTH].
Proof. vm_compute. repeat split. Qed.

(** A boss spawn timer at 60 s: one boss at (340, -120), the flag set, the
    timer back to 0, one notification for 2 s. *)
Example boss_spawns_at_60 :
  let g := Game.SpawnBoss (F32.of_int 0)
             (Game.with_bossSpawnTimer (F32.of_int 60) freshGame) in
  Game.enemies g
  = [Enemy.new (mkVector2 (F32.of_int 340) (F32.of_int (-120))) BOSS]
  /\ Game.bossActive g = true
  /\ Game.bossSpawnTimer g = F32.of_int 0
  /\ Game.notifications g = [("BOSS INCOMING!"%string, F32.of_int 2)].
Proof. vm_compute. repeat split. Qed.

(** A SIMPLE enemy on the player costs one point of health per frame; the
    frame after the third one ends the game. *)
Example contact_kills_in_three_frames :
  let frame := Game.RunFrame (R := raylib) (idleFrame (F32.of_int 0)) in
  let g3 := frame (frame (frame contactGame)) in
  Player.health (Game.player g3) = 0
  /\ Game.state g3 = PLAYING
  /\ Game.state (frame g3) = GAME_OVER.
Proof. vm_compute. repeat split. Qed.

(** A FIRE_RATE upgrade on the player: the fire rate goes from 0.5 to
    0.5 - 0.1, the upgrade is gone, one notification for 2 s. *)
Example fire_rate_pickup :
  let g := Game.CheckCollisions (R := raylib) pickupGame in
  Player.fireRate (Game.player g) = (F32.ratio 5 10 - F32.ratio 1 10)%f32
  /\ Game.upgrades g = []
  /\ Game.notifications g = [("FIRE RATE UP!"%string, F32.of_int 2)].
Proof. vm_compute. repeat split. Qed.

(** Bullets of the player in a row of enemies: the two bullets inside
    both SIMPLE enemies charge the first of them in the collection, the
    bullet inside the second only charges the second, the bullet of an
    enemy charges nothing; the HARD enemy at the head of the collection
    is not touched. *)
Example bullets_charge_first_overlapped :
  let g := Game.CollidePlayerBullets (R := raylib) rowGame in
  map Enemy.health (Game.enemies rowGame) = [2; 1; 1]
  /\ map (chargedTo (R := raylib) (Game.enemies rowGame)
                    (Game.bullets rowGame)) [0; 1; 2]%nat
     = [0; 2; 1]
  /\ map Enemy.health (Game.enemies g) = [2; -1; 0]
  /\ map Bullet.isPlayerBullet (Game.bullets g) = [false].
Proof. vm_compute. repeat split. Qed.

(** The frame that reaps the enemy shot: one SIMPLE enemy leaves the
    game and the score goes from 0 to 10. *)
Example shot_enemy_reaped_for_10 :
  let f := idleFrame (F32.ratio 1 10) in
  map Enemy.health (Game.enemies killGame) = [0; 1; 1]
  /\ Game.score killGame = 0
  /\ map Enemy.scoreValue
         (reapedInFrame (Game.GetFrameTime f) (Game.KEY_LEFT f)
            (Game.KEY_RIGHT f) killGame) = [10]
  /\ Game.score (Game.RunFrame (R := raylib) f killGame) = 10.
Proof. vm_compute. repeat split. Qed.

Lemma reachable_iter (n : nat) (f : Game.Frame) (g : Game.t) :
  Game.reachable (R := raylib) g ->
  Game.reachable (R := raylib)
    (Nat.iter n (Game.RunFrame (R := raylib) f) g).
Proof.
  intros H. induction n as [|n IH]; [exact H|].
  cbn [Nat.iter]. now apply Game.reachable_frame.
Qed.

Lemma killGame_reachable : Game.reachable (R := raylib) killGame.
Proof.
  apply reachable_iter, Game.reachable_frame, Game.reachable_initial.
Qed.

Lemma UpdateFireRate_five_times :
  Player.fireRate (Nat.iter 5 Player.UpgradeFireRate Player.new)
  = F32.ratio 1 10.
Proof. vm_compute. reflexivity. Qed.

Lemma dead_player_ends_frame_witness :
  Game.state
    (Game.RunFrame (R := raylib) (idleFrame (F32.ratio 1 60)) deadPlayerGame)
  = GAME_OVER.
Proof.
  pose (t := Player.Update (F32.ratio 1 60) false false
               (Game.bullets deadPlayerGame)
               (AudioUpdate :: Game.audio deadPlayerGame)
               (Game.player deadPlayerGame)).
  refine (proj1 (dead_player_ends_frame (R := raylib)
                   (idleFrame (F32.ratio 1 60)) deadPlayerGame
                   (fst (fst (fst t))) (snd (fst (fst t))) (snd (fst t))
                   (snd t) eq_refl eq_refl _)).
  vm_compute. discriminate.
Defined.

Lemma restart_resets_witness :
  Game.RunFrame (R := raylib) enterFrame gameOverGame
  = Game.with_state PLAYING (Game.ResetGame gameOverGame).
Proof.
  exact (proj1 (restart_resets (R := raylib) enterFrame gameOverGame
                  eq_refl eq_refl)).
Defined.

Lemma bossGame_reachable : Game.reachable (R := raylib) bossGame.
Proof. apply Game.reachable_frame, Game.reachable_initial. Qed.

Lemma boss_gating_witness : (bossCount (Game.enemies bossGame) <= 1)%nat.
Proof.
  refine (proj1 (boss_gating (R := raylib) bossGame
                   (idleFrame (F32.ratio 1 60)) _) _).
  - apply Game.reachable_frame, Game.reachable_initial.
  - vm_compute. reflexivity.
Defined.

Lemma health_le_maxHealth_witness :
  Player.health (Game.player bossGame)
  <= Player.maxHealth (Game.player bossGame).
Proof.
  refine (proj1 (health_le_maxHealth (R := raylib) bossGame _)).
  apply Game.reachable_frame, Game.reachable_initial.
Defined.

Lemma score_grows_by_reaped_witness :
  let f := idleFrame (F32.ratio 1 10) in
  let g' := Game.RunFrame (R := raylib) f killGame in
  Game.state killGame = PLAYING
  /\ map Enemy.scoreValue
         (reapedInFrame (Game.GetFrameTime f) (Game.KEY_LEFT f)
            (Game.KEY_RIGHT f) killGame) = [10]
  /\ Game.score g'
     = Game.score killGame
       + sumZ (map Enemy.scoreValue
                 (reapedInFrame (Game.GetFrameTime f) (Game.KEY_LEFT f)
                    (Game.KEY_RIGHT f) killGame))
  /\ Game.score killGame <= Game.score g'.
Proof.
  cbv zeta.
  split; [vm_compute; reflexivity|].
  split; [vm_compute; reflexivity|].
  refine (proj1 (score_grows_by_reaped (R := raylib) killGame
                   (idleFrame (F32.ratio 1 10)) _) _).
  - exact killGame_reachable.
  - vm_compute. reflexivity.
Defined.

Lemma drop_for_20_draws_of_101_witness :
  In (fst (GetRandomValue 0 100 (Game.rand freshGame))) dropDraws.
Proof.
  refine (proj1 (drop_for_20_draws_of_101 deadSimple freshGame _)).
  reflexivity.
Defined.

(** The draw 100 is possible and drops nothing: the draws that drop are
    20 out of 101, not one in five. *)
Lemma drop_draw_100 :
  fst (GetRandomValue 0 100 (constantRand 100)) = 100
  /\ Game.upgrades
       (Game.onDeath deadSimple
          (Game.with_rand (constantRand 100) freshGame)) = []
  /\ Nat.mul 5 (length (filter (fun d => d <? 20) dropDraws))
     <> length dropDraws.
Proof. repeat split. vm_compute. discriminate. Qed.



(** * Further properties of the engine *)

(** ** Damage adds up *)

Lemma Player_TakeDamage_0 (p : Player.t) : Player.TakeDamage 0 p = p.
Proof.
  destruct p as [[pos sp h c w ht] cd fr ar mh].
  unfold Player.TakeDamage, Player.with_base, GameObject.TakeDamage. cbn.
  now rewrite Z.sub_0_r.
Qed.

Lemma Player_TakeDamage_add (a b : Z) (p : Player.t) :
  Player.TakeDamage b (Player.TakeDamage a p) = Player.TakeDamage (a + b) p.
Proof.
  unfold Player.TakeDamage, Player.with_base, GameObject.TakeDamage. cbn.
  now rewrite <- Z.sub_add_distr.
Qed.

Lemma repeat_shift {A : Type} (a : A) (n : nat) (l : list A) :
  repeat a n ++ a :: l = a :: repeat a n ++ l.
Proof. induction n as [|n IH]; cbn; [reflexivity|now rewrite IH]. Qed.

Section PassesOnPlayer.

Context {R : Raylib}.

(** ** Enemies against the player *)

Lemma enemiesVsPlayer_spec (es : list Enemy.t) :
  forall p au,
  Game.enemiesVsPlayer es p au
  = (Player.TakeDamage (sumZ (map contactDamage (filter (touches p) es))) p,
     repeat PlayExplosion (length (filter (touches p) es)) ++ au).
Proof.
  induction es as [|e es IH]; intros p au;
    cbn [Game.enemiesVsPlayer filter].
  - cbn. now rewrite Player_TakeDamage_0.
  - fold (touches p e). destruct (touches p e).
    + rewrite IH.
      change (touches (Player.TakeDamage
                         (if is_BOSS (Enemy.type e) then 2 else 1) p))
        with (touches p).
      fold (contactDamage e). rewrite Player_TakeDamage_add.
      cbn [map length repeat sumZ fold_right app].
      now rewrite repeat_shift.
    + apply IH.
Qed.

(** X1: the pass of the enemies against the player takes from the
    player, for every enemy whose hitbox meets its own, 2 points of health
    for a boss and 1 otherwise, with one explosion each; it changes no
    enemy and nothing else of the player. *)
Theorem contact_damage_adds_up (g : Game.t) :
  let g' := Game.CollideEnemies g in
  let touching := filter (touches (Game.player g)) (Game.enemies g) in
  Game.player g'
  = Player.TakeDamage (sumZ (map contactDamage touching)) (Game.player g)
  /\ Player.health (Game.player g')
     = Player.health (Game.player g) - sumZ (map contactDamage touching)
  /\ Z.of_nat (length touching) <= sumZ (map contactDamage touching)
     <= 2 * Z.of_nat (length touching)
  /\ Game.audio g' = repeat PlayExplosion (length touching) ++ Game.audio g
  /\ Game.enemies g' = Game.enemies g
  /\ Game.bullets g' = Game.bullets g
  /\ Game.upgrades g' = Game.upgrades g
  /\ Game.state g' = Game.state g.
Proof.
  unfold Game.CollideEnemies. rewrite enemiesVsPlayer_spec.
  cbn [Game.player Game.audio Game.enemies Game.bullets Game.upgrades
       Game.state Game.with_audio Game.with_player].
  split; [reflexivity|]. split; [reflexivity|].
  split; [|repeat split].
  generalize (filter (touches (Game.player g)) (Game.enemies g)).
  intros l. unfold sumZ, contactDamage.
  induction l as [|e l IH]; cbn [map fold_right length]; [lia|].
  destruct (is_BOSS (Enemy.type e)); lia.
Qed.

(** ** Bullets of the enemies against the player *)

Lemma bulletsVsPlayer_spec (bs : list Bullet.t) :
  forall p au,
  Game.bulletsVsPlayer bs p au
  = (filter (fun b => negb (strikes p b)) bs,
     Player.TakeDamage (totalDamage (filter (strikes p) bs)) p,
     repeat PlayExplosion (length (filter (strikes p) bs)) ++ au).
Proof.
  induction bs as [|b bs IH]; intros p au;
    cbn [Game.bulletsVsPlayer filter].
  - cbn. now rewrite Player_TakeDamage_0.
  - assert (Hs : strikes p b
                 = negb (Bullet.isPlayerBullet b)
                   && CheckCollisionCircleRec (Bullet.position b)
                        (F32.of_int 5) (Player.GetHitbox p))
      by reflexivity.
    destruct (Bullet.isPlayerBullet b); cbn [negb andb] in Hs.
    + rewrite Hs. cbn [negb]. now rewrite IH.
    + destruct (CheckCollisionCircleRec (Bullet.position b) (F32.of_int 5)
                  (Player.GetHitbox p)); rewrite Hs; cbn [negb].
      * rewrite IH.
        change (strikes (Player.TakeDamage (Bullet.damage b) p))
          with (strikes p).
        rewrite Player_TakeDamage_add, totalDamage_cons.
        cbn [length repeat app]. now rewrite repeat_shift.
      * now rewrite IH.
Qed.

(** X2: the pass of the enemies' bullets against the player removes
    exactly the enemy bullets whose circle of radius 5 meets the hitbox of
    the player, takes their damage from the health of the player with one
    explosion each, and keeps every bullet of the player. *)
Theorem enemy_bullets_strike_player (g : Game.t) :
  let g' := Game.CollideEnemyBullets g in
  let p := Game.player g in
  Game.bullets g' = filter (fun b => negb (strikes p b)) (Game.bullets g)
  /\ Game.player g'
     = Player.TakeDamage (totalDamage (filter (strikes p) (Game.bullets g))) p
  /\ Player.health (Game.player g')
     = Player.health p - totalDamage (filter (strikes p) (Game.bullets g))
  /\ filter Bullet.isPlayerBullet (Game.bullets g')
     = filter Bullet.isPlayerBullet (Game.bullets g)
  /\ Game.audio g'
     = repeat PlayExplosion (length (filter (strikes p) (Game.bullets g)))
       ++ Game.audio g
  /\ Game.enemies g' = Game.enemies g
  /\ Game.upgrades g' = Game.upgrades g.
Proof.
  unfold Game.CollideEnemyBullets. rewrite bulletsVsPlayer_spec.
  cbn [Game.player Game.audio Game.enemies Game.bullets Game.upgrades
       Game.with_audio Game.with_player Game.with_bullets].
  split; [reflexivity|]. split; [reflexivity|]. split; [reflexivity|].
  split; [|repeat split].
  induction (Game.bullets g) as [|b bs IH]; cbn [filter]; trivial.
  destruct (Bullet.isPlayerBullet b) eqn:Hb.
  - assert (Hs : strikes (Game.player g) b = false)
      by (unfold strikes; now rewrite Hb).
    rewrite Hs. cbn [negb filter]. now rewrite Hb, IH.
  - destruct (strikes (Game.player g) b); cbn [negb filter];
      rewrite ?Hb; exact IH.
Qed.

(** ** Upgrades against the player *)

Lemma applyUpgrade_hitbox (p : Player.t) (u : Upgrade.t) :
  Player.GetHitbox (applyUpgrade p u) = Player.GetHitbox p.
Proof. unfold applyUpgrade. now destruct (Upgrade.type u). Qed.

Lemma picks_applyUpgrade (p : Player.t) (u v : Upgrade.t) :
  picks (applyUpgrade p u) v = picks p v.
Proof. unfold picks. now rewrite applyUpgrade_hitbox. Qed.

Lemma upgradesVsPlayer_spec (us : list Upgrade.t) :
  forall p ns au,
  Game.upgradesVsPlayer us p ns au
  = (filter (fun u => negb (picks p u)) us,
     fold_left applyUpgrade (filter (picks p) us) p,
     ns ++ map pickupNote (filter (picks p) us),
     repeat PlayUpgrade (length (filter (picks p) us)) ++ au).
Proof.
  induction us as [|u us IH]; intros p ns au;
    cbn [Game.upgradesVsPlayer filter].
  - cbn. now rewrite app_nil_r.
  - fold (picks p u). destruct (picks p u) eqn:Hp; cbn [negb].
    + assert (Ha : Upgrade.Apply au u
                   = (Upgrade.mk (Upgrade.fallSpeed u) (Upgrade.type u)
                                 (Upgrade.position u) (Upgrade.timer u) false,
                      PlayUpgrade :: au)).
      { unfold picks, Upgrade.IsActive in Hp. unfold Upgrade.Apply.
        destruct (Upgrade.active u); [reflexivity|discriminate]. }
      rewrite Ha.
      assert (Hs : (match Upgrade.type u with
                    | HEALTH =>
                      (Player.IncreaseMaxHealth p,
                       ns ++ [("MAX HEALTH +1"%string, F32.of_int 2)])
                    | FIRE_RATE =>
                      (Player.UpgradeFireRate p,
                       ns ++ [("FIRE RATE UP!"%string, F32.of_int 2)])
                    | ATTACK_RANGE =>
                      (Player.UpgradeAttackRange p,
                       ns ++ [("ATTACK RANGE +"%string, F32.of_int 2)])
                    end) = (applyUpgrade p u, ns ++ [pickupNote u]))
        by (unfold applyUpgrade, pickupNote; now destruct (Upgrade.type u)).
      rewrite Hs, IH.
      rewrite (filter_ext _ _ (picks_applyUpgrade p u)).
      rewrite (filter_ext (fun v => negb (picks (applyUpgrade p u) v))
                          (fun v => negb (picks p v)))
        by (intros v; now rewrite picks_applyUpgrade).
      cbn [fold_left map length repeat app].
      now rewrite <- app_assoc, repeat_shift.
    + now rewrite IH.
Qed.

Lemma applyUpgrade_health (l : list Upgrade.t) :
  forall p,
  Player.maxHealth (fold_left applyUpgrade l p)
  = Player.maxHealth p + Z.of_nat (length (filter is_HEALTH l))
  /\ Player.health (fold_left applyUpgrade l p)
     = Player.health p + Z.of_nat (length (filter is_HEALTH l)).
Proof.
  induction l as [|u l IH]; intros p; cbn [fold_left filter].
  - cbn. lia.
  - destruct (IH (applyUpgrade p u)) as [-> ->].
    unfold applyUpgrade, is_HEALTH.
    destruct (Upgrade.type u); cbn [length]; unfold Player.health; cbn;
      unfold Player.health; lia.
Qed.

(** X3: the pass of the upgrades against the player removes exactly the
    active upgrades whose hitbox meets that of the player, applies their
    effects in order, posts one notification of 2 seconds and plays one
    cue for each; the maximal health and the health both grow by the
    number of HEALTH upgrades picked. *)
Theorem upgrades_picked_by_player (g : Game.t) :
  let g' := Game.CollideUpgrades g in
  let p := Game.player g in
  let picked := filter (picks p) (Game.upgrades g) in
  Game.upgrades g' = filter (fun u => negb (picks p u)) (Game.upgrades g)
  /\ Game.player g' = fold_left applyUpgrade picked p
  /\ Game.notifications g' = Game.notifications g ++ map pickupNote picked
  /\ Game.audio g' = repeat PlayUpgrade (length picked) ++ Game.audio g
  /\ Player.maxHealth (Game.player g')
     = Player.maxHealth p + Z.of_nat (length (filter is_HEALTH picked))
  /\ Player.health (Game.player g')
     = Player.health p + Z.of_nat (length (filter is_HEALTH picked))
  /\ Game.enemies g' = Game.enemies g
  /\ Game.bullets g' = Game.bullets g.
Proof.
  unfold Game.CollideUpgrades. rewrite upgradesVsPlayer_spec.
  cbn [Game.player Game.audio Game.enemies Game.bullets Game.upgrades
       Game.notifications Game.with_audio Game.with_player
       Game.with_notifications Game.with_upgrades].
  repeat split; apply applyUpgrade_health.
Qed.

End PassesOnPlayer.

(** ** The horizontal clamp *)

Lemma SFltb_irrefl (a : float) : SFltb a a = false.
Proof.
  unfold SFltb. pose proof (SFcompare_swap a a) as H.
  destruct (SFcompare a a) as [[]|]; trivial. discriminate.
Qed.

Lemma clamp_within (px lim : float) :
  (lim <? F32.of_int 0)%f32 = false -> within (clamp px lim) lim.
Proof.
  intros Hlim. unfold within, clamp.
  assert (H0 : (F32.of_int 0 <? F32.of_int 0)%f32 = false)
    by apply SFltb_irrefl.
  assert (Hl : (lim >? lim)%f32 = false) by apply SFltb_irrefl.
  destruct (px <? F32.of_int 0)%f32 eqn:H1.
  - destruct (F32.of_int 0 >? lim)%f32 eqn:H2; now split.
  - destruct (px >? lim)%f32 eqn:H2; now split.
Qed.

Arguments clamp : simpl never.

(** ** The well-formed player *)

Lemma Player_Update_moves dt kl kr bs au p p' bs' au' fired :
  Player.Update dt kl kr bs au p = (p', bs', au', fired) ->
  (exists px,
      x (GameObject.position (Player.base p'))
      = clamp px (F32.of_int GetScreenWidth
                  - GameObject.width (Player.base p))%f32)
  /\ y (GameObject.position (Player.base p'))
     = y (GameObject.position (Player.base p))
  /\ GameObject.with_position origin (Player.base p')
     = GameObject.with_position origin (Player.base p).
Proof.
  unfold Player.Update. cbv zeta.
  destruct (_ <=? _)%f32; intros H; injection H as <- _ _ _;
    (split; [eexists; unfold clamp; cbn; reflexivity|split; reflexivity]).
Qed.

Lemma playerOK_width (p : Player.t) :
  playerOK p -> GameObject.width (Player.base p) = F32.of_int 50.
Proof.
  intros (H & _). apply (f_equal GameObject.width) in H. exact H.
Qed.

Lemma Player_Update_OK dt kl kr bs au p p' bs' au' fired :
  Player.Update dt kl kr bs au p = (p', bs', au', fired) ->
  playerOK p -> playerOK p'.
Proof.
  intros Hu Hp. pose proof (playerOK_width p Hp) as Hw.
  destruct (Player_Update_moves _ _ _ _ _ _ _ _ _ _ Hu)
    as ((px & Hx) & Hy & Hb).
  destruct (Player_Update_stats _ _ _ _ _ _ _ _ _ _ Hu)
    as (_ & _ & Hf & _).
  destruct Hp as (Hbase & Hy0 & _ & Hrate).
  split; [|split; [|split]].
  - apply (f_equal (GameObject.with_health 0)) in Hb.
    cbn in Hb |- *. cbn in Hbase. congruence.
  - congruence.
  - rewrite Hx, Hw. apply clamp_within. vm_compute. reflexivity.
  - now rewrite Hf.
Qed.

Lemma Player_TakeDamage_OK (d : Z) (p : Player.t) :
  playerOK p -> playerOK (Player.TakeDamage d p).
Proof. intros H. exact H. Qed.

Lemma applyUpgrade_OK (p : Player.t) (u : Upgrade.t) :
  playerOK p -> playerOK (applyUpgrade p u).
Proof.
  intros (Hb & Hy & Hx & Hr). unfold applyUpgrade.
  destruct (Upgrade.type u); repeat split; try assumption; try apply Hx.
  now apply UpgradeFireRate_keeps_floor.
Qed.

Lemma fold_applyUpgrade_OK (l : list Upgrade.t) :
  forall p, playerOK p -> playerOK (fold_left applyUpgrade l p).
Proof.
  induction l as [|u l IH]; intros p Hp; cbn [fold_left]; trivial.
  now apply IH, applyUpgrade_OK.
Qed.

(** ** Well-formed bullets *)

Lemma Bullet_new_OK (pos : Vector2) (isPlayer : bool) (dmg : Z) :
  (if isPlayer then dmg = 1 else dmg = 1 \/ dmg = 2) ->
  bulletOK (Bullet.new pos isPlayer dmg).
Proof. intros H. split; [reflexivity|exact H]. Qed.

Lemma Bullet_Update_OK (dt : float) (b : Bullet.t) :
  bulletOK b -> bulletOK (Bullet.Update dt b).
Proof.
  intros [Hb Hd]. split; [|exact Hd].
  pose proof (f_equal Bullet.speed Hb) as Hs.
  pose proof (f_equal Bullet.color Hb) as Hc.
  unfold Bullet.Update, Bullet.new in *. cbn in *.
  now rewrite Hs at 2; rewrite Hc at 1.
Qed.

Lemma bulletOK_damage (b : Bullet.t) : bulletOK b -> 0 <= Bullet.damage b.
Proof. intros [_ H]. destruct (Bullet.isPlayerBullet b); lia. Qed.

Lemma Forall_filter {A : Type} (P : A -> Prop) (f : A -> bool) (l : list A) :
  Forall P l -> Forall P (filter f l).
Proof.
  intros H. apply Forall_forall. intros a Ha. apply filter_In in Ha.
  rewrite Forall_forall in H. apply H, Ha.
Qed.

Lemma UpdateBullets_OK (dt : float) (g : Game.t) :
  Forall bulletOK (Game.bullets g) ->
  Forall bulletOK (Game.bullets (Game.UpdateBullets dt g)).
Proof.
  intros H. cbn. apply Forall_filter, Forall_map.
  eapply Forall_impl; [|exact H]. intros b. apply Bullet_Update_OK.
Qed.

(** ** Well-formed enemies *)

Lemma Enemy_new_blueprint (pos : Vector2) (ty : EnemyType) :
  blueprint (Enemy.new pos ty) = blueprint (Enemy.new origin ty)
  /\ Enemy.type (Enemy.new pos ty) = ty
  /\ Enemy.health (Enemy.new pos ty) = Enemy.health (Enemy.new origin ty)
  /\ Enemy.GetPosition (Enemy.new pos ty) = pos.
Proof. destruct ty; repeat split. Qed.

Lemma wave_enemy_OK (r : Z) (ty : EnemyType) :
  is_BOSS ty = false -> 0 <= r <= GetScreenWidth - 40 ->
  enemyOK (Enemy.new (mkVector2 (F32.of_int r) (F32.of_int (-40))) ty).
Proof.
  intros Hb Hr. destruct (Enemy_new_blueprint
                            (mkVector2 (F32.of_int r) (F32.of_int (-40))) ty)
    as (H1 & H2 & H3 & H4).
  unfold enemyOK. rewrite H2, H3, H4, Hb. split; [exact H1|].
  split; [lia|]. exists r. now split.
Qed.

Lemma boss_enemy_OK :
  enemyOK (Enemy.new
             (mkVector2
                (F32.of_int GetScreenWidth / F32.of_int 2 - F32.of_int 60)%f32
                (F32.of_int (-120)))
             BOSS).
Proof.
  unfold enemyOK. split; [reflexivity|]. split; [cbn; lia|].
  split; vm_compute; reflexivity.
Qed.

Lemma enemyOK_boss_width (e : Enemy.t) :
  enemyOK e -> is_BOSS (Enemy.type e) = true ->
  GameObject.width (Enemy.base e) = F32.of_int 120.
Proof.
  intros (H & _) Hb.
  apply (f_equal (fun e => GameObject.width (Enemy.base e))) in H.
  cbn in H. rewrite H. destruct (Enemy.type e); try discriminate.
  reflexivity.
Qed.

Lemma Enemy_TakeDamage_OK (d : Z) (e : Enemy.t) :
  0 <= d -> enemyOK e -> enemyOK (Enemy.TakeDamage d e).
Proof.
  intros Hd (Hb & Hh & Hx). split; [exact Hb|]. split; [|exact Hx].
  change (Enemy.health (Enemy.TakeDamage d e)) with (Enemy.health e - d).
  change (Enemy.type (Enemy.TakeDamage d e)) with (Enemy.type e). lia.
Qed.

Lemma spread_OK (n : nat) (o : GameObject.t) :
  forall bs rng bs' rng',
  Enemy.spread n o bs rng = (bs', rng') ->
  exists fresh, bs' = bs ++ fresh
                /\ length fresh = n
                /\ Forall (fun b => bulletOK b
                                    /\ Bullet.isPlayerBullet b = false
                                    /\ Bullet.damage b = 2) fresh.
Proof.
  induction n as [|n IH]; intros bs rng bs' rng'; cbn [Enemy.spread].
  - intros H; injection H as <- _. exists []. now rewrite app_nil_r.
  - destruct (GetRandomValue (-20) 20 rng) as [r rng1]. intros H.
    apply IH in H. destruct H as (fresh & -> & Hl & Hf).
    eexists (_ :: fresh). rewrite <- app_assoc. split; [reflexivity|].
    split; [cbn; now rewrite Hl|].
    constructor; [|exact Hf].
    split; [apply Bullet_new_OK; now right|now split].
Qed.

(** What [Enemy::Update] does to the bullets: nothing with [false]
    returned, or one shot of damage 1 (three of damage 2 for a boss)
    appended with [true] returned. *)
Lemma Enemy_Update_fires dt bs st rng e e' bs' st' rng' fired :
  Enemy.Update dt bs st rng e = (e', bs', st', rng', fired) ->
  exists fresh,
    bs' = bs ++ fresh
    /\ length fresh
       = (if fired then if is_BOSS (Enemy.type e) then 3 else 1 else 0)%nat
    /\ Forall (fun b => bulletOK b
                        /\ Bullet.isPlayerBullet b = false
                        /\ Bullet.damage b
                           = if is_BOSS (Enemy.type e) then 2 else 1) fresh.
Proof.
  unfold Enemy.Update.
  destruct (is_BOSS (Enemy.type e)).
  - destruct (if (_ >=? _)%f32 then _ else _) as [st1 rng1].
    destruct (_ >=? F32.ratio 5 10)%f32.
    + destruct (Enemy.spread _ _ _ _) as [bs1 rng2] eqn:Hs.
      intros H; injection H as _ <- _ _ <-.
      eapply spread_OK, Hs.
    + intros H; injection H as _ <- _ _ <-.
      exists []. rewrite app_nil_r. repeat split. constructor.
  - destruct (_ >=? _)%f32; intros H; injection H as _ <- _ _ <-.
    + eexists [_]. split; [reflexivity|]. split; [reflexivity|].
      constructor; [|constructor].
      split; [apply Bullet_new_OK; now left|now split].
    + exists []. rewrite app_nil_r. repeat split. constructor.
Qed.

Lemma Enemy_Update_OK dt bs st rng e e' bs' st' rng' fired :
  Enemy.Update dt bs st rng e = (e', bs', st', rng', fired) ->
  enemyOK e -> enemyOK e'.
Proof.
  intros Hu He. pose proof (enemyOK_boss_width e He) as Hw.
  destruct He as (Hb & Hh & Hx). revert Hu. unfold Enemy.Update.
  destruct (is_BOSS (Enemy.type e)) eqn:Hboss.
  - specialize (Hw eq_refl).
    destruct (if (_ >=? _)%f32 then _ else _) as [st1 rng1].
    destruct (_ >=? F32.ratio 5 10)%f32;
      [destruct (Enemy.spread _ _ _ _) as [bs1 rng2]|];
      intros H; injection H as <- _ _ _ _;
      (split; [exact Hb|]); (split; [exact Hh|]);
      cbn [Enemy.type]; rewrite Hboss;
      (match goal with
       | |- within ?a ?l =>
         change a with
           (clamp (x (GameObject.position (Enemy.base e))
                   + x (Enemy.direction st1)
                     * GameObject.speed (Enemy.base e) * dt)%f32
                  (F32.of_int GetScreenWidth
                   - GameObject.width (Enemy.base e))%f32);
         change l with (F32.of_int GetScreenWidth
                        - GameObject.width (Enemy.base e))%f32
       end);
      rewrite Hw; apply clamp_within; vm_compute; reflexivity.
  - destruct (_ >=? _)%f32; intros H; injection H as <- _ _ _ _;
      (split; [exact Hb|]); (split; [exact Hh|]);
      cbn [Enemy.type]; rewrite Hboss; exact Hx.
Qed.

Lemma updateEach_OK dt (es : list Enemy.t) :
  forall bs st rng es' bs' st' rng',
  Game.updateEach dt es bs st rng = (es', bs', st', rng') ->
  Forall enemyOK es ->
  Forall enemyOK es'
  /\ exists fresh, bs' = bs ++ fresh
                   /\ Forall (fun b => bulletOK b
                                       /\ Bullet.isPlayerBullet b = false)
                             fresh.
Proof.
  induction es as [|e es IH]; intros bs st rng es' bs' st' rng';
    cbn [Game.updateEach].
  - intros H _; injection H as <- <- _ _.
    split; [constructor|]. exists []. now rewrite app_nil_r.
  - destruct (Enemy.Update dt bs st rng e) as [[[[e1 bs1] st1] rng1] fired]
      eqn:He.
    destruct (Game.updateEach dt es bs1 st1 rng1) as [[[es2 bs2] st2] rng2]
      eqn:Hes.
    intros H Hall; injection H as <- <- _ _.
    apply Forall_cons_iff in Hall. destruct Hall as [Hok Hall].
    pose proof (Enemy_Update_OK _ _ _ _ _ _ _ _ _ _ He Hok) as Hok1.
    apply Enemy_Update_fires in He. destruct He as (f1 & -> & _ & Hf1).
    destruct (IH _ _ _ _ _ _ _ Hes Hall) as (Hall2 & f2 & -> & Hf2).
    split; [now constructor|].
    exists (f1 ++ f2). rewrite app_assoc. split; [reflexivity|].
    apply Forall_app. split; [|exact Hf2].
    eapply Forall_impl; [|exact Hf1]. cbn. tauto.
Qed.

Lemma spawnWave_enemies (n : nat) :
  forall g, exists fresh,
    Game.enemies (Game.spawnWave n g) = Game.enemies g ++ fresh
    /\ length fresh = n
    /\ Forall (fun e => exists r,
                   0 <= r <= GetScreenWidth - 40
                   /\ e = Enemy.new (mkVector2 (F32.of_int r)
                                               (F32.of_int (-40)))
                                    (tier (Game.bossesDefeated g)))
              fresh
    /\ Game.upgrades (Game.spawnWave n g) = Game.upgrades g
    /\ Game.notifications (Game.spawnWave n g) = Game.notifications g.
Proof.
  induction n as [|n IH]; intros g; cbn [Game.spawnWave].
  - exists []. rewrite app_nil_r. repeat split. constructor.
  - pose proof (GetRandomValue_range 0 (GetScreenWidth - 40) (Game.rand g))
      as Hr.
    destruct (GetRandomValue 0 (GetScreenWidth - 40) (Game.rand g))
      as [r rng].
    match goal with |- context [Game.spawnWave n ?h] =>
      destruct (IH h) as (fresh & He & Hl & Hf & Hu & Hn); rewrite He, Hu, Hn
    end.
    cbn [Game.enemies Game.with_enemies Game.upgrades Game.notifications
         Game.with_rand Game.bossesDefeated] in *.
    eexists (_ :: fresh). rewrite <- app_assoc. split; [reflexivity|].
    split; [cbn; now rewrite Hl|]. split; [|now split].
    constructor; [|exact Hf].
    exists r. split; [apply Hr; vm_compute; discriminate|reflexivity].
Qed.

Lemma tier_no_boss (n : Z) : is_BOSS (tier n) = false.
Proof. unfold tier. now destruct (n =? 0), (n =? 1). Qed.

Lemma SpawnBoss_enemies (dt : float) (g : Game.t) :
  let g' := Game.SpawnBoss dt g in
  (g' = g
   \/ Game.bossActive g = false
      /\ (Game.bossSpawnTimer g + dt >=? F32.of_int 60)%f32 = false
      /\ g' = Game.with_bossSpawnTimer (Game.bossSpawnTimer g + dt)%f32 g
   \/ Game.bossActive g = false
      /\ (Game.bossSpawnTimer g + dt >=? F32.of_int 60)%f32 = true
      /\ Game.enemies g'
         = Game.enemies g
           ++ [Enemy.new
                 (mkVector2
                    (F32.of_int GetScreenWidth / F32.of_int 2
                     - F32.of_int 60)%f32
                    (F32.of_int (-120)))
                 BOSS]
      /\ Game.notifications g'
         = Game.notifications g
           ++ [("BOSS INCOMING!"%string, F32.of_int 2)])
  /\ Game.upgrades g' = Game.upgrades g
  /\ (Game.notifications g' = Game.notifications g
      \/ Game.notifications g'
         = Game.notifications g
           ++ [("BOSS INCOMING!"%string, F32.of_int 2)]).
Proof.
  unfold Game.SpawnBoss.
  destruct (Game.bossActive g); [|destruct (_ >=? _)%f32 eqn:Ht]; cbn.
  - split; [now left|]. split; [reflexivity|now left].
  - split; [right; right; repeat split|]. split; [reflexivity|now right].
  - split; [right; left; repeat split|]. split; [reflexivity|now left].
Qed.

Section WellFormed.

Context {R : Raylib}.

Lemma hitFirst_OK (b : Bullet.t) (es : list Enemy.t) :
  0 <= Bullet.damage b -> Forall enemyOK es ->
  Forall enemyOK (fst (Game.hitFirst b es)).
Proof.
  intros Hd. induction 1 as [|e es He Hes IH]; cbn [Game.hitFirst].
  - constructor.
  - destruct (CheckCollisionCircleRec _ _ _); cbn [fst].
    + constructor; [now apply Enemy_TakeDamage_OK|exact Hes].
    + destruct (Game.hitFirst b es) as [rest hit]. cbn [fst] in *.
      now constructor.
Qed.

Lemma bulletsVsEnemies_OK (bs : list Bullet.t) :
  forall es au bs' es' au',
  Game.bulletsVsEnemies bs es au = (bs', es', au') ->
  Forall bulletOK bs -> Forall enemyOK es -> Forall enemyOK es'.
Proof.
  induction bs as [|b bs IH]; intros es au bs' es' au';
    cbn [Game.bulletsVsEnemies].
  - intros H _ He; now injection H as _ <- _.
  - intros H Hb He. apply Forall_cons_iff in Hb. destruct Hb as [Hb Hbs].
    destruct (negb (Bullet.isPlayerBullet b)).
    + destruct (Game.bulletsVsEnemies bs es au) as [[r e2] a2] eqn:Hr.
      injection H as _ <- _. eapply IH; eassumption.
    + pose proof (hitFirst_OK b es (bulletOK_damage b Hb) He) as H1.
      destruct (Game.hitFirst b es) as [es1 hit]. cbn [fst] in H1.
      destruct hit.
      * eapply IH; eassumption.
      * destruct (Game.bulletsVsEnemies bs es1 au) as [[r e2] a2] eqn:Hr.
        injection H as _ <- _. eapply IH; eassumption.
Qed.

(** ** What the frame posts: upgrades and notifications *)

Lemma Upgrade_new_OK (pos : Vector2) (ty : UpgradeType) :
  upgradeOK (Upgrade.new pos ty).
Proof. split; vm_compute; reflexivity. Qed.

Lemma onDeath_posts (e : Enemy.t) (g : Game.t) :
  exists us ns,
    Game.upgrades (Game.onDeath e g) = Game.upgrades g ++ us
    /\ Forall upgradeOK us
    /\ Game.notifications (Game.onDeath e g) = Game.notifications g ++ ns
    /\ Forall noteOK ns.
Proof.
  unfold Game.onDeath, Game.SpawnUpgrade.
  destruct (is_BOSS (Enemy.type e)); cbn.
  - eexists [_], [_]. repeat split.
    + constructor; [apply Upgrade_new_OK|constructor].
    + constructor; [|constructor].
      split; [cbn; tauto|vm_compute; reflexivity].
  - destruct (_ <? 20); cbn.
    + eexists [_], []. rewrite app_nil_r. repeat split; [|constructor].
      constructor; [apply Upgrade_new_OK|constructor].
    + exists [], []. rewrite !app_nil_r. repeat split; constructor.
Qed.

Lemma reap_posts (es : list Enemy.t) :
  forall g, exists us ns,
    Game.upgrades (snd (Game.reap es g)) = Game.upgrades g ++ us
    /\ Forall upgradeOK us
    /\ Game.notifications (snd (Game.reap es g))
       = Game.notifications g ++ ns
    /\ Forall noteOK ns.
Proof.
  induction es as [|e es IH]; intros g; cbn [Game.reap].
  - exists [], []. rewrite !app_nil_r. repeat split; constructor.
  - destruct (Enemy.IsDead e).
    + destruct (IH (Game.onDeath e g)) as (us2 & ns2 & Hu2 & Hf2 & Hn2 & Hg2).
      destruct (onDeath_posts e g) as (us1 & ns1 & Hu1 & Hf1 & Hn1 & Hg1).
      exists (us1 ++ us2), (ns1 ++ ns2).
      rewrite Hu2, Hn2, Hu1, Hn1, !app_assoc.
      repeat split; apply Forall_app; now split.
    + specialize (IH g). destruct (Game.reap es g) as [kept g1].
      exact IH.
Qed.

Lemma UpdateEnemies_OK (dt : float) (g : Game.t) :
  worldOK g -> worldOK (Game.UpdateEnemies dt g).
Proof.
  intros (Hp & He & Hb & Hu & Hn). unfold Game.UpdateEnemies.
  destruct (Game.updateEach _ _ _ _ _) as [[[es bs] st] rng] eqn:Hup.
  destruct (updateEach_OK _ _ _ _ _ _ _ _ _ Hup He) as (He' & fresh & -> & Hf).
  match goal with |- context [Game.reap es ?h] =>
    pose proof (reap_effect es h) as Hr;
    destruct (reap_posts es h) as (us & ns & Hus & Hfu & Hns & Hfn);
    destruct (Game.reap es h) as [k g1]
  end.
  cbn [fst snd] in *. cbv zeta in Hr.
  destruct Hr as (-> & _ & _ & _ & Hp1 & Hb1 & _).
  cbn in Hp1, Hb1, Hus, Hns.
  unfold worldOK. cbn. rewrite Hp1, Hb1, Hus, Hns.
  split; [exact Hp|]. split; [now apply Forall_filter|].
  split; [|split; apply Forall_app; now split].
  apply Forall_app. split; [exact Hb|].
  eapply Forall_impl; [|exact Hf]. cbn. tauto.
Qed.

Lemma Upgrade_Update_fallSpeed (dt : float) (u : Upgrade.t) :
  Upgrade.fallSpeed (Upgrade.Update dt u) = Upgrade.fallSpeed u.
Proof. unfold Upgrade.Update. now destruct (negb (Upgrade.active u)). Qed.

Lemma UpdateUpgrades_OK (dt : float) (g : Game.t) :
  Forall upgradeOK (Game.upgrades g) ->
  Forall upgradeOK (Game.upgrades (Game.UpdateUpgrades dt g)).
Proof.
  intros H. cbn. apply Forall_forall. intros u Hu.
  apply filter_In in Hu. destruct Hu as [Hin Hact].
  split; [exact Hact|].
  apply in_map_iff in Hin. destruct Hin as (u0 & <- & Hin).
  rewrite Upgrade_Update_fallSpeed.
  rewrite Forall_forall in H. apply (H u0 Hin).
Qed.

Lemma tick_OK (dt : float) (ns : list Game.Notification) :
  Forall noteOK ns -> Forall noteOK (Game.tick dt ns).
Proof.
  induction 1 as [|[text left_] ns [Hn _] _ IH]; cbn [Game.tick].
  - constructor.
  - destruct (_ <=? _)%f32 eqn:Ht; [exact IH|].
    constructor; [|exact IH]. split; [exact Hn|exact Ht].
Qed.

(** ** [CheckCollisions] as a whole *)

Lemma filter_filter {A : Type} (f h : A -> bool) (l : list A) :
  filter h (filter f l) = filter (fun a => f a && h a) l.
Proof.
  induction l as [|a l IH]; cbn [filter]; trivial.
  destruct (f a); cbn [filter andb]; [destruct (h a)|]; now rewrite IH.
Qed.

Lemma CollidePlayerBullets_rest (g : Game.t) :
  let g1 := Game.CollidePlayerBullets g in
  Game.player g1 = Game.player g
  /\ Game.upgrades g1 = Game.upgrades g
  /\ Game.notifications g1 = Game.notifications g
  /\ Game.bullets g1
     = filter (fun b => negb (hits (Game.enemies g) b)) (Game.bullets g)
  /\ (Forall bulletOK (Game.bullets g) -> Forall enemyOK (Game.enemies g) ->
      Forall enemyOK (Game.enemies g1)).
Proof.
  unfold Game.CollidePlayerBullets.
  destruct (Game.bulletsVsEnemies _ _ _) as [[bs es] au] eqn:H. cbn.
  repeat split.
  - now apply bulletsVsEnemies_effect in H.
  - intros Hb He. eapply bulletsVsEnemies_OK; eassumption.
Qed.

Lemma CheckCollisions_spec (g : Game.t) :
  let g1 := Game.CollidePlayerBullets g in
  let g' := Game.CheckCollisions g in
  let p := Game.player g in
  Game.enemies g' = Game.enemies g1
  /\ Game.bullets g'
     = filter (fun b => negb (hits (Game.enemies g) b) && negb (strikes p b))
              (Game.bullets g)
  /\ Game.player g'
     = fold_left applyUpgrade (filter (picks p) (Game.upgrades g))
         (Player.TakeDamage
            (sumZ (map contactDamage (filter (touches p) (Game.enemies g1)))
             + totalDamage (filter (strikes p) (Game.bullets g1)))
            p)
  /\ Game.upgrades g'
     = filter (fun u => negb (picks p u)) (Game.upgrades g)
  /\ Game.notifications g'
     = Game.notifications g
       ++ map pickupNote (filter (picks p) (Game.upgrades g)).
Proof.
  destruct (CollidePlayerBullets_rest g) as (Hp & Hu & Hn & Hb & _).
  cbv zeta in *. unfold Game.CheckCollisions.
  set (g1 := Game.CollidePlayerBullets g) in *.
  unfold Game.CollideUpgrades, Game.CollideEnemyBullets, Game.CollideEnemies.
  rewrite enemiesVsPlayer_spec.
  cbn [Game.player Game.audio Game.enemies Game.bullets Game.upgrades
       Game.notifications Game.with_audio Game.with_player].
  rewrite bulletsVsPlayer_spec.
  cbn [Game.player Game.audio Game.enemies Game.bullets Game.upgrades
       Game.notifications Game.with_audio Game.with_player
       Game.with_bullets].
  rewrite upgradesVsPlayer_spec.
  cbn [Game.player Game.audio Game.enemies Game.bullets Game.upgrades
       Game.notifications Game.with_audio Game.with_player
       Game.with_bullets Game.with_upgrades Game.with_notifications].
  rewrite Player_TakeDamage_add, Hp, Hu, Hn, Hb.
  split; [reflexivity|]. split; [|repeat split].
  now rewrite filter_filter.
Qed.

Lemma CheckCollisions_OK (g : Game.t) :
  worldOK g -> worldOK (Game.CheckCollisions g).
Proof.
  intros (Hp & He & Hb & Hu & Hn).
  destruct (CheckCollisions_spec g) as (He' & Hb' & Hp' & Hu' & Hn').
  destruct (CollidePlayerBullets_rest g) as (_ & _ & _ & _ & He1).
  cbv zeta in *. unfold worldOK. rewrite He', Hb', Hp', Hu', Hn'.
  split; [|split; [|split; [|split]]].
  - now apply fold_applyUpgrade_OK, Player_TakeDamage_OK.
  - now apply He1.
  - now apply Forall_filter.
  - now apply Forall_filter.
  - apply Forall_app. split; [exact Hn|].
    apply Forall_map, Forall_forall. intros u _.
    unfold noteOK, pickupNote, notices.
    destruct (Upgrade.type u); cbn [fst snd In];
      (split; [tauto|vm_compute; reflexivity]).
Qed.

(** ** The frame keeps the game well formed *)

(** Reduces the fields of a game built by the setters. *)
Ltac fields :=
  cbn [Game.player Game.enemies Game.bullets Game.upgrades
       Game.notifications Game.score Game.state Game.audio
       Game.with_player Game.with_enemies Game.with_bullets
       Game.with_upgrades Game.with_notifications Game.with_audio
       Game.with_state Game.with_rand Game.with_enemySpawnTimer
       Game.with_bossSpawnTimer Game.with_bossActive Game.ResetGame
       Game.initial Game.UpdateBullets Game.UpdateUpgrades
       Game.UpdateNotifications].

(** Splits the conjunctions of the goal, and no definition. *)
Ltac conjs := repeat match goal with |- _ /\ _ => split end.

Lemma afterPlayer_OK (dt : float) (kl kr : bool) (g : Game.t) :
  worldOK g -> worldOK (afterPlayer dt kl kr g).
Proof.
  intros (Hp & He & Hb & Hu & Hn). unfold afterPlayer.
  destruct (Player.Update _ _ _ _ _ _) as [[[p bs] au] fired] eqn:H.
  unfold worldOK. fields. conjs; trivial.
  - eapply Player_Update_OK; eassumption.
  - destruct (Player_Update_bullets _ _ _ _ _ _ _ _ _ _ H) as [->|[pos ->]];
      trivial.
    apply Forall_app. split; trivial.
    constructor; [now apply Bullet_new_OK|constructor].
Qed.

Lemma SpawnEnemies_OK (dt : float) (g : Game.t) :
  worldOK g -> worldOK (Game.SpawnEnemies dt g).
Proof.
  intros (Hp & He & Hb & Hu & Hn).
  destruct (SpawnEnemies_effect dt g) as (fr & _ & _ & Hp' & Hb' & _).
  unfold worldOK. rewrite Hp', Hb'. unfold Game.SpawnEnemies.
  destruct (_ >=? _)%f32; [|fields; conjs; trivial].
  destruct (GetRandomValue 1 4 (Game.rand g)) as [n rng].
  match goal with |- context [Game.spawnWave ?k ?h] =>
    destruct (spawnWave_enemies k h) as (fresh & -> & _ & Hf & -> & ->)
  end.
  fields. conjs; trivial.
  apply Forall_app. split; trivial.
  eapply Forall_impl; [|exact Hf]. intros e (r & Hr & ->).
  apply wave_enemy_OK; [apply tier_no_boss|exact Hr].
Qed.

Lemma SpawnBoss_OK (dt : float) (g : Game.t) :
  worldOK g -> worldOK (Game.SpawnBoss dt g).
Proof.
  intros Hg. pose proof Hg as (Hp & He & Hb & Hu & Hn).
  destruct (SpawnBoss_effect dt g) as (_ & _ & Hp' & Hb' & _).
  destruct (SpawnBoss_enemies dt g)
    as ([->|[(_ & _ & ->)|(_ & _ & He' & Hn')]] & Hu' & _); trivial.
  cbv zeta in *. unfold worldOK. rewrite Hp', Hb', Hu', He', Hn'.
  conjs; trivial; apply Forall_app; split; trivial.
  - constructor; [apply boss_enemy_OK|constructor].
  - constructor; [|constructor].
    split; [cbn; tauto|vm_compute; reflexivity].
Qed.

Lemma UpdateGame_OK (dt : float) (kl kr : bool) (g : Game.t) :
  worldOK g -> worldOK (Game.UpdateGame dt kl kr g).
Proof.
  intros Hg. rewrite UpdateGame_steps.
  apply (afterPlayer_OK dt kl kr) in Hg.
  destruct (Player.IsDead _); [exact Hg|].
  apply CheckCollisions_OK.
  unfold beforeEnemies.
  apply (SpawnEnemies_OK dt), (SpawnBoss_OK dt) in Hg.
  set (g3 := Game.SpawnBoss dt _) in *.
  assert (H4 : worldOK (Game.UpdateBullets dt g3)).
  { destruct Hg as (Hp & He & Hb & Hu & Hn).
    split; [exact Hp|]. split; [exact He|].
    split; [now apply UpdateBullets_OK|now split]. }
  apply (UpdateEnemies_OK dt) in H4.
  destruct H4 as (Hp & He & Hb & Hu & Hn).
  split; [exact Hp|]. split; [exact He|]. split; [exact Hb|].
  split; [now apply UpdateUpgrades_OK|now apply tick_OK].
Qed.

Lemma initial_OK (rng : RandState) : worldOK (Game.initial rng).
Proof.
  unfold worldOK. fields. conjs; try apply Forall_nil.
  repeat split; vm_compute; reflexivity.
Qed.

Lemma ResetGame_OK (g : Game.t) :
  playerOK (Game.player g) -> worldOK (Game.ResetGame g).
Proof.
  intros (Hb & _ & _ & Hr). unfold worldOK. fields.
  conjs; try apply Forall_nil.
  split; [exact Hb|]. repeat split; trivial; vm_compute; reflexivity.
Qed.

Lemma reachable_worldOK (g : Game.t) : Game.reachable g -> worldOK g.
Proof.
  induction 1 as [rng|f g _ IH].
  - apply initial_OK.
  - unfold Game.RunFrame. destruct (Game.state g).
    + now apply UpdateGame_OK.
    + destruct (Game.KEY_ENTER f); [|exact IH].
      apply (ResetGame_OK g), IH.
Qed.

(** ** What holds in every reachable game *)

(** X4: in every reachable state the player has the size, speed and
    ordinate of its constructor and is horizontally within the screen:
    its abscissa is neither below 0 nor above 750, the width of the
    screen less its own. *)
Theorem player_stays_on_screen (g : Game.t) :
  Game.reachable g ->
  let o := Player.base (Game.player g) in
  let px := x (GameObject.position o) in
  (px <? F32.of_int 0)%f32 = false
  /\ (px >? F32.of_int 750)%f32 = false
  /\ (F32.is_nan px = false ->
      (F32.of_int 0 <=? px)%f32 = true /\ (px <=? F32.of_int 750)%f32 = true)
  /\ y (GameObject.position o) = F32.of_int 550
  /\ GameObject.width o = F32.of_int 50
  /\ GameObject.height o = F32.of_int 20
  /\ GameObject.speed o = F32.of_int 300.
Proof.
  intros Hr. destruct (reachable_worldOK g Hr) as ((Hb & Hy & Hx & _) & _).
  cbv zeta.
  replace (F32.of_int GetScreenWidth - F32.of_int 50)%f32
    with (F32.of_int 750) in Hx by (vm_compute; reflexivity).
  destruct Hx as [H0 H1].
  split; [exact H0|]. split; [exact H1|]. split; [|split; [exact Hy|]].
  - intros Hn. split; apply SFltb_false_SFleb; trivial.
  - split; [|split].
    + apply (f_equal GameObject.width) in Hb. exact Hb.
    + apply (f_equal GameObject.height) in Hb. exact Hb.
    + apply (f_equal GameObject.speed) in Hb. exact Hb.
Qed.

(** X5: in every reachable state the fire rate of the player is at least
    0.1 s, whatever upgrades were picked. *)
Theorem fire_rate_never_below_floor (g : Game.t) :
  Game.reachable g ->
  (Player.fireRate (Game.player g) >=? F32.ratio 1 10)%f32 = true.
Proof. intros Hr. apply (reachable_worldOK g Hr). Qed.

(** X6: in every reachable state each enemy has the score, size, speed
    and shoot interval its constructor gives to its type, and at most the
    health it gives. *)
Theorem enemies_as_built (g : Game.t) (e : Enemy.t) :
  Game.reachable g -> In e (Game.enemies g) ->
  Enemy.scoreValue e
  = match Enemy.type e with
    | SIMPLE => 10 | MID => 25 | HARD => 50 | BOSS => 500
    end
  /\ Enemy.health e
     <= match Enemy.type e with
        | SIMPLE => 1 | MID => 1 | HARD => 2 | BOSS => 7
        end
  /\ GameObject.width (Enemy.base e)
     = F32.of_int (if is_BOSS (Enemy.type e) then 120 else 40)
  /\ GameObject.height (Enemy.base e)
     = F32.of_int (if is_BOSS (Enemy.type e) then 120 else 40)
  /\ GameObject.speed (Enemy.base e)
     = F32.of_int match Enemy.type e with
                  | SIMPLE => 50 | MID => 70 | HARD => 90 | BOSS => 40
                  end
  /\ Enemy.shootInterval e = F32.of_int 2.
Proof.
  intros Hr Hin. destruct (reachable_worldOK g Hr) as (_ & He & _).
  rewrite Forall_forall in He. destruct (He e Hin) as (Hb & Hh & _).
  pose proof (f_equal Enemy.scoreValue Hb) as Hs.
  pose proof (f_equal (fun e => GameObject.width (Enemy.base e)) Hb) as Hw.
  pose proof (f_equal (fun e => GameObject.height (Enemy.base e)) Hb) as Ht.
  pose proof (f_equal (fun e => GameObject.speed (Enemy.base e)) Hb) as Hv.
  pose proof (f_equal Enemy.shootInterval Hb) as Hi.
  cbn in Hs, Hw, Ht, Hv, Hi. rewrite Hs, Hw, Ht, Hv, Hi.
  destruct (Enemy.type e); cbn in *; repeat split; trivial.
Qed.

(** X7: in every reachable state each enemy is horizontally within the
    screen: a boss is neither left of 0 nor right of 680, any other enemy
    is at the whole abscissa between 0 and 760 where it was spawned. *)
Theorem enemies_stay_on_screen (g : Game.t) (e : Enemy.t) :
  Game.reachable g -> In e (Game.enemies g) ->
  let px := x (Enemy.GetPosition e) in
  if is_BOSS (Enemy.type e)
  then (px <? F32.of_int 0)%f32 = false /\ (px >? F32.of_int 680)%f32 = false
  else exists r, 0 <= r <= 760 /\ px = F32.of_int r.
Proof.
  intros Hr Hin. destruct (reachable_worldOK g Hr) as (_ & He & _).
  rewrite Forall_forall in He. specialize (He e Hin).
  pose proof (enemyOK_boss_width e He) as Hw.
  destruct He as (_ & _ & Hx). cbv zeta.
  destruct (is_BOSS (Enemy.type e)); [|exact Hx].
  rewrite (Hw eq_refl) in Hx.
  replace (F32.of_int GetScreenWidth - F32.of_int 120)%f32
    with (F32.of_int 680) in Hx by (vm_compute; reflexivity).
  exact Hx.
Qed.

(** X8: in every reachable state a bullet of the player has speed -500,
    colour yellow and damage 1, and a bullet of an enemy has speed 300,
    colour red and damage 1 or 2. *)
Theorem bullets_as_built (g : Game.t) (b : Bullet.t) :
  Game.reachable g -> In b (Game.bullets g) ->
  if Bullet.isPlayerBullet b
  then Bullet.speed b = F32.of_int (-500)
       /\ Bullet.color b = YELLOW /\ Bullet.damage b = 1
  else Bullet.speed b = F32.of_int 300
       /\ Bullet.color b = RED
       /\ (Bullet.damage b = 1 \/ Bullet.damage b = 2).
Proof.
  intros Hr Hin. destruct (reachable_worldOK g Hr) as (_ & _ & Hb & _).
  rewrite Forall_forall in Hb. destruct (Hb b Hin) as [Hn Hd].
  pose proof (f_equal Bullet.speed Hn) as Hs.
  pose proof (f_equal Bullet.color Hn) as Hc.
  cbn in Hs, Hc.
  destruct (Bullet.isPlayerBullet b); repeat split; trivial.
Qed.

(** X9: in every reachable state each upgrade of the collection is
    active, with time left, and falls at speed 100. *)
Theorem upgrades_all_active (g : Game.t) (u : Upgrade.t) :
  Game.reachable g -> In u (Game.upgrades g) ->
  Upgrade.active u = true
  /\ (Upgrade.timer u >? F32.of_int 0)%f32 = true
  /\ Upgrade.fallSpeed u = F32.of_int 100.
Proof.
  intros Hr Hin. destruct (reachable_worldOK g Hr) as (_ & _ & _ & Hu & _).
  rewrite Forall_forall in Hu. destruct (Hu u Hin) as [Ha Hf].
  unfold Upgrade.IsActive in Ha. apply andb_prop in Ha.
  destruct Ha. now repeat split.
Qed.

(** X10: in every reachable state each notification carries one of the
    five texts of the game and a time left that is not at most 0. *)
Theorem notifications_all_live (g : Game.t) (n : Game.Notification) :
  Game.reachable g -> In n (Game.notifications g) ->
  In (fst n) notices /\ (snd n <=? F32.of_int 0)%f32 = false.
Proof.
  intros Hr Hin. destruct (reachable_worldOK g Hr) as (_ & _ & _ & _ & Hn).
  rewrite Forall_forall in Hn. apply (Hn n Hin).
Qed.

(** ** No friendly fire *)

Lemma contact_withoutHealth (p : Player.t) (es1 es2 : list Enemy.t) :
  map withoutHealth es1 = map withoutHealth es2 ->
  sumZ (map contactDamage (filter (touches p) es1))
  = sumZ (map contactDamage (filter (touches p) es2)).
Proof.
  revert es2. induction es1 as [|e1 es1 IH]; intros [|e2 es2] H;
    try discriminate; trivial.
  apply cons_inj in H. destruct H as [He Hes]. cbn [filter].
  change (touches p e1) with (touches p (withoutHealth e1)).
  change (touches p e2) with (touches p (withoutHealth e2)).
  rewrite He. specialize (IH _ Hes).
  assert (Hc : contactDamage e1 = contactDamage e2).
  { change (contactDamage e1) with (contactDamage (withoutHealth e1)).
    now rewrite He. }
  destruct (touches p (withoutHealth e2)); trivial.
  unfold sumZ in *. cbn [map fold_right]. now rewrite Hc, IH.
Qed.

Lemma strikes_after_hits (p : Player.t) (es : list Enemy.t)
    (bs : list Bullet.t) :
  filter (strikes p) (filter (fun b => negb (hits es b)) bs)
  = filter (strikes p) bs.
Proof.
  rewrite filter_filter. apply filter_ext. intros b.
  unfold hits, strikes.
  destruct (Bullet.isPlayerBullet b); cbn [negb andb];
    [apply andb_false_r|reflexivity].
Qed.

(** X11: [CheckCollisions] as a whole, from the game it is given.  A
    bullet is removed exactly when it is the player's and overlaps an
    enemy, or an enemy's and overlaps the player; the enemies lose in
    total the damage of the player's bullets removed, and the player
    loses the contact damage of the enemies on it and the damage of the
    enemies' bullets removed, and gains one point for each HEALTH upgrade
    picked: no bullet ever hurts its own side. *)
Theorem CheckCollisions_no_friendly_fire (g : Game.t) :
  let g' := Game.CheckCollisions g in
  let p := Game.player g in
  let es := Game.enemies g in
  let bs := Game.bullets g in
  Game.bullets g'
  = filter (fun b => negb (hits es b) && negb (strikes p b)) bs
  /\ map withoutHealth (Game.enemies g') = map withoutHealth es
  /\ totalHealth es - totalHealth (Game.enemies g')
     = totalDamage (filter (hits es) bs)
  /\ Player.health (Game.player g')
     = Player.health p
       - sumZ (map contactDamage (filter (touches p) es))
       - totalDamage (filter (strikes p) bs)
       + Z.of_nat (length (filter is_HEALTH
                                  (filter (picks p) (Game.upgrades g))))
  /\ Game.upgrades g' = filter (fun u => negb (picks p u)) (Game.upgrades g)
  /\ Game.score g' = Game.score g.
Proof.
  destruct (CheckCollisions_spec g) as (He & Hb & Hp & Hu & _).
  destruct (CheckCollisions_effect g) as (_ & _ & _ & Hs & _).
  destruct (CollidePlayerBullets_rest g) as (_ & _ & _ & Hb1 & _).
  cbv zeta in *. rewrite He, Hb, Hp, Hu, Hs.
  unfold Game.CollidePlayerBullets in *.
  destruct (Game.bulletsVsEnemies _ _ _) as [[bs1 es1] au1] eqn:H1.
  apply bulletsVsEnemies_effect in H1. destruct H1 as (_ & Hm & Ht).
  cbn [Game.enemies Game.bullets Game.with_audio Game.with_enemies
       Game.with_bullets] in *.
  split; [reflexivity|]. split; [exact Hm|]. split; [exact Ht|].
  split; [|split; reflexivity].
  destruct (applyUpgrade_health
              (filter (picks (Game.player g)) (Game.upgrades g))
              (Player.TakeDamage
                 (sumZ (map contactDamage
                            (filter (touches (Game.player g)) es1))
                  + totalDamage (filter (strikes (Game.player g)) bs1))
                 (Game.player g))) as [_ ->].
  rewrite Hb1, strikes_after_hits, (contact_withoutHealth _ _ _ Hm).
  unfold Player.health. cbn. lia.
Qed.

(** ** The two states of the game *)

(** X12: a frame leaves the game in GAME_OVER exactly when it found it
    in play with a dead player, or in GAME_OVER with ENTER not pressed.
    A player killed by the collisions of a frame is still in play at its
    end: the death is seen by the next frame. *)
Theorem game_over_transitions (f : Game.Frame) (g : Game.t) :
  Game.state (Game.RunFrame f g) = GAME_OVER
  <-> (Game.state g = PLAYING /\ Player.IsDead (Game.player g) = true)
      \/ (Game.state g = GAME_OVER /\ Game.KEY_ENTER f = false).
Proof.
  unfold Game.RunFrame. destruct (Game.state g) eqn:Hs.
  - rewrite UpdateGame_steps, afterPlayer_IsDead.
    destruct (Player.IsDead (Game.player g)).
    + split; [now left|reflexivity].
    + set (h := beforeEnemies _ _ _ g).
      assert (Hh : Game.state h = PLAYING).
      { subst h. unfold beforeEnemies.
        destruct (afterPlayer_effect (Game.GetFrameTime f) (Game.KEY_LEFT f)
                    (Game.KEY_RIGHT f) g) as (_ & _ & _ & _ & _ & _ & H1 & _).
        set (g1 := afterPlayer _ _ _ g) in *.
        destruct (SpawnEnemies_effect (Game.GetFrameTime f) g1)
          as (fr & _ & _ & _ & _ & _ & _ & _ & _ & _ & H2).
        set (g2 := Game.SpawnEnemies _ g1) in *.
        destruct (SpawnBoss_effect (Game.GetFrameTime f) g2)
          as (_ & _ & _ & _ & _ & _ & _ & H3).
        cbv zeta in *. cbn. congruence. }
      destruct (UpdateEnemies_effect (Game.GetFrameTime f) h)
        as (_ & _ & _ & _ & _ & _ & _ & _ & _ & H5).
      match goal with |- context [Game.CheckCollisions ?k] =>
        destruct (CheckCollisions_effect k)
          as (_ & _ & _ & _ & _ & _ & _ & _ & H8)
      end.
      cbv zeta in *. rewrite H8. cbn. rewrite H5, Hh.
      split; [discriminate|]. intros [[_ H]|[H _]]; discriminate.
  - destruct (Game.KEY_ENTER f); cbn.
    + split; [discriminate|]. intros [[H _]|[_ H]]; discriminate.
    + rewrite Hs. split; [now right|reflexivity].
Qed.

(** ** Enemies leave the game only dead *)

Lemma vitals_of_the_living (es : list Enemy.t) :
  map vitals (filter (fun e => negb (Enemy.IsDead e)) es)
  = filter (fun v => negb (snd (fst v) <=? 0)) (map vitals es).
Proof.
  induction es as [|e es IH]; cbn [filter map]; trivial.
  change (snd (fst (vitals e)) <=? 0) with (Enemy.IsDead e).
  destruct (Enemy.IsDead e); cbn [negb map]; now rewrite IH.
Qed.

Lemma filter_the_living (es : list Enemy.t) :
  Forall (fun e => Enemy.IsDead e = false) es ->
  filter (fun e => negb (Enemy.IsDead e)) es = es.
Proof.
  induction 1 as [|e es Hd _ IH]; cbn [filter]; trivial.
  now rewrite Hd, IH.
Qed.

(** X13: [UpdateEnemies] removes the dead enemies and no other: the
    types, healths and scores of the enemies it leaves are, in order,
    those of the enemies it was given whose health is above 0.  An enemy
    is never removed for having left the screen. *)
Theorem UpdateEnemies_removes_only_the_dead (dt : float) (g : Game.t) :
  let g' := Game.UpdateEnemies dt g in
  map vitals (Game.enemies g')
  = filter (fun v => negb (snd (fst v) <=? 0)) (map vitals (Game.enemies g))
  /\ Forall (fun e => Enemy.IsDead e = false) (Game.enemies g')
  /\ (Forall (fun e => Enemy.IsDead e = false) (Game.enemies g) ->
      length (Game.enemies g') = length (Game.enemies g)
      /\ Game.score g' = Game.score g).
Proof.
  destruct (UpdateEnemies_effect dt g) as (Hv & He & Hs & _).
  cbv zeta in *. rewrite He, vitals_of_the_living, Hv.
  split; [reflexivity|]. split.
  - apply Forall_forall. intros e Hin. apply filter_In in Hin.
    destruct Hin as [_ Hin]. now destruct (Enemy.IsDead e).
  - intros Hall.
    assert (Hf : filter (fun v => negb (snd (fst v) <=? 0))
                        (map vitals (Game.enemies g))
                 = map vitals (Game.enemies g)).
    { rewrite <- vitals_of_the_living. f_equal.
      now apply filter_the_living. }
    split.
    + rewrite <- (length_map vitals (filter _ _)).
      rewrite vitals_of_the_living, Hv, Hf. apply length_map.
    + rewrite Hs. unfold reaped.
      assert (Hn : filter Enemy.IsDead (updatedEnemies dt g) = []).
      { pose proof (vitals_of_the_living (updatedEnemies dt g)) as Hl.
        rewrite Hv, Hf, <- Hv in Hl.
        apply (f_equal (@length _)) in Hl. rewrite !length_map in Hl.
        pose proof (filter_split Enemy.IsDead (updatedEnemies dt g)) as Hp.
        apply Permutation_length in Hp. rewrite length_app, Hl in Hp.
        destruct (filter Enemy.IsDead (updatedEnemies dt g)); trivial.
        cbn in Hp. lia. }
      rewrite Hn. cbn. lia.
Qed.

(** ** Waves of enemies *)

(** X14: [SpawnEnemies] adds [dt] to its timer; below 2 s it does nothing
    else; otherwise it resets the timer and appends between 1 and 4
    enemies, all of the type of the current tier (SIMPLE with no boss
    defeated, MID with one, HARD with more), each as built by the
    constructor at ordinate -40 and at a whole abscissa from 0 to 760. *)
Theorem SpawnEnemies_wave (dt : float) (g : Game.t) :
  let g' := Game.SpawnEnemies dt g in
  let tm := (Game.enemySpawnTimer g + dt)%f32 in
  if (tm >=? F32.of_int 2)%f32
  then exists fresh,
      Game.enemies g' = Game.enemies g ++ fresh
      /\ (1 <= length fresh <= 4)%nat
      /\ Forall (fun e => exists r,
                     0 <= r <= 760
                     /\ e = Enemy.new (mkVector2 (F32.of_int r)
                                                 (F32.of_int (-40)))
                                      (tier (Game.bossesDefeated g)))
                fresh
      /\ Game.enemySpawnTimer g' = F32.of_int 0
  else g' = Game.with_enemySpawnTimer tm g.
Proof.
  cbv zeta. unfold Game.SpawnEnemies.
  destruct (_ >=? _)%f32; [|reflexivity].
  pose proof (GetRandomValue_range 1 4 (Game.rand g)) as Hn.
  destruct (GetRandomValue 1 4 (Game.rand g)) as [n rng]. cbn [fst] in Hn.
  match goal with |- context [Game.spawnWave ?k ?h] =>
    destruct (spawnWave_enemies k h) as (fresh & He & Hl & Hf & _);
    destruct (spawnWave_effect k h)
      as (fr & _ & _ & _ & _ & _ & Ht & _)
  end.
  exists fresh. split; [exact He|]. split; [lia|]. split; [exact Hf|].
  exact Ht.
Qed.

(** ** Bullets leave the game off screen *)

(** X15: [UpdateBullets] moves every bullet by [speed * dt] along the
    ordinate and keeps, in order, the moved bullets that are not off
    screen: the bullets left are the bullets of before whose ordinate
    plus [speed * dt] is neither below 0 nor above 600, in the order
    they had and each moved; none of the bullets left is above the top
    or below the bottom of the screen, each is a bullet of before moved,
    and each bullet whose move ends on screen is left. *)
Theorem UpdateBullets_reaps_off_screen (dt : float) (g : Game.t) :
  let bs' := Game.bullets (Game.UpdateBullets dt g) in
  Forall (fun b => (y (Bullet.position b) <? F32.of_int 0)%f32 = false
                   /\ (y (Bullet.position b) >? F32.of_int 600)%f32 = false)
         bs'
  /\ (forall b', In b' bs' <->
        exists b, In b (Game.bullets g)
                  /\ b' = Bullet.Update dt b
                  /\ Bullet.IsOutOfScreen b' = false)
  /\ (forall b, x (Bullet.position (Bullet.Update dt b))
                = x (Bullet.position b)
                /\ y (Bullet.position (Bullet.Update dt b))
                   = (y (Bullet.position b) + Bullet.speed b * dt)%f32)
  /\ (length bs' <= length (Game.bullets g))%nat
  /\ bs'
     = map (Bullet.Update dt)
         (filter
            (fun b =>
               negb ((y (Bullet.position b) + Bullet.speed b * dt
                      <? F32.of_int 0)
                     || (y (Bullet.position b) + Bullet.speed b * dt
                         >? F32.of_int 600))%f32)
            (Game.bullets g)).
Proof.
  cbv zeta. cbn [Game.UpdateBullets Game.bullets Game.with_bullets].
  split; [|split; [|split; [|split]]];
    [| | | |rewrite filter_of_map; reflexivity].
  - apply Forall_forall. intros b Hb. apply filter_In in Hb.
    destruct Hb as [_ Hb]. unfold Bullet.IsOutOfScreen in Hb.
    apply negb_true_iff, orb_false_iff in Hb. exact Hb.
  - intros b'. rewrite filter_In, in_map_iff, negb_true_iff. split.
    + intros [(b & <- & Hin) Ho]. now exists b.
    + intros (b & Hin & -> & Ho). split; [now exists b|exact Ho].
  - intros b. split; reflexivity.
  - rewrite <- (length_map (Bullet.Update dt) (Game.bullets g)).
    apply filter_length_le.
Qed.

(** ** Shots *)

Lemma Player_Update_shot dt kl kr bs au p p' bs' au' fired :
  Player.Update dt kl kr bs au p = (p', bs', au', fired) ->
  if fired
  then bs' = bs ++ [Bullet.new
                      (mkVector2
                         (x (GameObject.position (Player.base p'))
                          + GameObject.width (Player.base p')
                            / F32.of_int 2)%f32
                         (y (GameObject.position (Player.base p'))))
                      true 1]
       /\ au' = PlayLaser :: au
       /\ Player.fireCooldown p' = Player.fireRate p
       /\ (Player.fireCooldown p - dt <=? F32.of_int 0)%f32 = true
  else bs' = bs /\ au' = au
       /\ Player.fireCooldown p' = (Player.fireCooldown p - dt)%f32
       /\ (Player.fireCooldown p - dt <=? F32.of_int 0)%f32 = false.
Proof.
  unfold Player.Update. cbv zeta.
  destruct (_ <=? _)%f32 eqn:Hc; intros H; injection H as <- <- <- <-;
    repeat split; exact Hc.
Qed.

(** X16: the flag returned by [Update] tells whether the object fired.
    The player returns [true] exactly when its cooldown less [dt] is at
    most 0: it then appends one bullet of its own, of damage 1, at the
    middle of its top edge, plays the laser cue and restarts the
    cooldown at the fire rate; otherwise bullets and cues are untouched.
    An enemy that returns [true] appended one enemy bullet of damage 1,
    or three of damage 2 for a boss; one that returns [false] appended
    none. *)
Theorem Update_returns_whether_fired :
  (forall dt kl kr bs au p p' bs' au' fired,
      Player.Update dt kl kr bs au p = (p', bs', au', fired) ->
      fired = (Player.fireCooldown p - dt <=? F32.of_int 0)%f32
      /\ if fired
         then bs' = bs ++ [Bullet.new
                             (mkVector2
                                (x (GameObject.position (Player.base p'))
                                 + GameObject.width (Player.base p')
                                   / F32.of_int 2)%f32
                                (y (GameObject.position (Player.base p'))))
                             true 1]
              /\ au' = PlayLaser :: au
              /\ Player.fireCooldown p' = Player.fireRate p
         else bs' = bs /\ au' = au
              /\ Player.fireCooldown p'
                 = (Player.fireCooldown p - dt)%f32)
  /\ (forall dt bs st rng e e' bs' st' rng' fired,
        Enemy.Update dt bs st rng e = (e', bs', st', rng', fired) ->
        exists fresh,
          bs' = bs ++ fresh
          /\ length fresh
             = (if fired
                then if is_BOSS (Enemy.type e) then 3 else 1
                else 0)%nat
          /\ Forall (fun b => Bullet.isPlayerBullet b = false
                              /\ Bullet.damage b
                                 = if is_BOSS (Enemy.type e) then 2 else 1)
                    fresh).
Proof.
  split.
  - intros dt kl kr bs au p p' bs' au' fired H.
    apply Player_Update_shot in H.
    destruct fired; destruct H as (H1 & H2 & H3 & H4); now repeat split.
  - intros dt bs st rng e e' bs' st' rng' fired H.
    apply Enemy_Update_fires in H. destruct H as (fresh & H1 & H2 & H3).
    exists fresh. split; [exact H1|]. split; [exact H2|].
    eapply Forall_impl; [|exact H3]. cbn. tauto.
Qed.

(** ** Bullets of the player are on screen *)

Lemma afterPlayer_shots (dt : float) (kl kr : bool) (g : Game.t) :
  playerOK (Game.player g) -> playerShotsOnScreen g ->
  playerShotsOnScreen (afterPlayer dt kl kr g).
Proof.
  intros Hp Hs. unfold afterPlayer, playerShotsOnScreen in *.
  destruct (Player.Update _ _ _ _ _ _) as [[[p bs] au] fired] eqn:H.
  pose proof (Player_Update_OK _ _ _ _ _ _ _ _ _ _ H Hp) as (_ & Hy & _).
  apply Player_Update_shot in H. fields.
  destruct fired; destruct H as (-> & _); trivial.
  apply Forall_app. split; trivial.
  constructor; [|constructor]. intros _.
  unfold Bullet.IsOutOfScreen, Bullet.new. cbn [Bullet.position y].
  rewrite Hy. vm_compute. reflexivity.
Qed.

Lemma UpdateGame_shots (dt : float) (kl kr : bool) (g : Game.t) :
  worldOK g -> playerShotsOnScreen g ->
  playerShotsOnScreen (Game.UpdateGame dt kl kr g).
Proof.
  intros Hg Hs. rewrite UpdateGame_steps.
  pose proof (afterPlayer_shots dt kl kr g (proj1 Hg) Hs) as H1.
  destruct (Player.IsDead _); [exact H1|].
  unfold playerShotsOnScreen.
  match goal with |- context [Game.CheckCollisions ?k] =>
    destruct (CheckCollisions_spec k) as (_ & -> & _)
  end.
  apply Forall_filter. fields.
  apply (afterPlayer_OK dt kl kr), (SpawnEnemies_OK dt), (SpawnBoss_OK dt)
    in Hg.
  unfold Game.UpdateEnemies, beforeEnemies.
  set (g3 := Game.SpawnBoss dt _) in *.
  destruct (Game.updateEach _ _ _ _ _) as [[[es bs] st] rng] eqn:Hup.
  destruct Hg as (_ & He & _).
  change (Game.enemies (Game.UpdateBullets dt g3)) with (Game.enemies g3)
    in Hup.
  destruct (updateEach_OK _ _ _ _ _ _ _ _ _ Hup He) as (_ & fresh & -> & Hf).
  match goal with |- context [Game.reap es ?h] =>
    pose proof (reap_effect es h) as Hr; destruct (Game.reap es h) as [k g1]
  end.
  cbn [fst snd] in Hr. cbv zeta in Hr.
  destruct Hr as (_ & _ & _ & _ & _ & Hb1 & _). fields. rewrite Hb1. fields.
  apply Forall_app. split.
  - apply Forall_forall. intros b Hb _. apply filter_In in Hb.
    destruct Hb as [_ Hb]. now apply negb_true_iff in Hb.
  - eapply Forall_impl; [|exact Hf]. intros b [_ Hb] Hp. congruence.
Qed.

(** X17: in every reachable state no bullet of the player is off screen:
    a bullet of the player that leaves the screen is removed by the
    frame that moves it there. *)
Theorem player_bullets_on_screen (g : Game.t) (b : Bullet.t) :
  Game.reachable g -> In b (Game.bullets g) ->
  Bullet.isPlayerBullet b = true ->
  (y (Bullet.position b) <? F32.of_int 0)%f32 = false
  /\ (y (Bullet.position b) >? F32.of_int 600)%f32 = false.
Proof.
  intros Hr Hin Hp.
  assert (Hs : playerShotsOnScreen g).
  { clear b Hin Hp. induction Hr as [rng|f g Hr IH].
    - constructor.
    - unfold Game.RunFrame. destruct (Game.state g).
      + apply UpdateGame_shots; [now apply reachable_worldOK|exact IH].
      + destruct (Game.KEY_ENTER f); [constructor|exact IH]. }
  unfold playerShotsOnScreen in Hs. rewrite Forall_forall in Hs.
  specialize (Hs b Hin Hp). unfold Bullet.IsOutOfScreen in Hs.
  apply orb_false_iff in Hs. exact Hs.
Qed.

(** ** Expiry of upgrades and notifications *)

(** X18: [UpdateUpgrades] keeps, in order, the upgrades that are active
    once updated: the upgrades left are the upgrades of before that were
    active and whose timer less [dt] is above 0, in the order they had
    and each updated; an active upgrade falls by [fallSpeed * dt], loses
    [dt] of its timer and stays exactly when the timer left is above 0;
    an inactive upgrade is not moved and is removed. *)
Theorem UpdateUpgrades_expiry (dt : float) (g : Game.t) :
  let us' := Game.upgrades (Game.UpdateUpgrades dt g) in
  (forall u', In u' us' <->
      exists u, In u (Game.upgrades g)
                /\ u' = Upgrade.Update dt u
                /\ Upgrade.active u = true
                /\ (Upgrade.timer u - dt >? F32.of_int 0)%f32 = true)
  /\ (forall u, Upgrade.active u = true ->
        Upgrade.timer (Upgrade.Update dt u) = (Upgrade.timer u - dt)%f32
        /\ y (Upgrade.position (Upgrade.Update dt u))
           = (y (Upgrade.position u) + Upgrade.fallSpeed u * dt)%f32
        /\ x (Upgrade.position (Upgrade.Update dt u))
           = x (Upgrade.position u))
  /\ (forall u, Upgrade.active u = false ->
        Upgrade.Update dt u = u /\ ~ In u us')
  /\ (length us' <= length (Game.upgrades g))%nat
  /\ us'
     = map (Upgrade.Update dt)
         (filter (fun u => Upgrade.active u
                           && (Upgrade.timer u - dt >? F32.of_int 0)%f32)
                 (Game.upgrades g)).
Proof.
  cbv zeta. cbn [Game.UpdateUpgrades Game.upgrades Game.with_upgrades].
  assert (Hact : forall u, Upgrade.IsActive (Upgrade.Update dt u) = true
                           <-> Upgrade.active u = true
                               /\ (Upgrade.timer u - dt >? F32.of_int 0)%f32
                                  = true).
  { intros u. unfold Upgrade.IsActive, Upgrade.Update.
    destruct (Upgrade.active u) eqn:Ha; cbn; rewrite ?Ha; cbn.
    - split; [now split|now intros [_ H]].
    - split; [discriminate|intros [H _]; discriminate]. }
  split; [|split; [|split; [|split]]].
  - intros u'. rewrite filter_In, in_map_iff. split.
    + intros [(u & <- & Hin) Ha]. apply Hact in Ha. exists u. tauto.
    + intros (u & Hin & -> & Ha). split; [now exists u|]. now apply Hact.
  - intros u Ha. unfold Upgrade.Update. rewrite Ha. repeat split.
  - intros u Ha.
    assert (Hu : Upgrade.Update dt u = u)
      by (unfold Upgrade.Update; now rewrite Ha).
    split; [exact Hu|]. intros Hin. apply filter_In in Hin.
    destruct Hin as [_ Hin]. unfold Upgrade.IsActive in Hin.
    rewrite Ha in Hin. discriminate.
  - rewrite <- (length_map (Upgrade.Update dt) (Game.upgrades g)).
    apply filter_length_le.
  - rewrite filter_of_map. f_equal. apply filter_ext. intros u.
    unfold Upgrade.IsActive, Upgrade.Update.
    destruct (Upgrade.active u) eqn:Ha; cbn; rewrite ?Ha; reflexivity.
Qed.

Lemma tick_retains (dt : float) (ns : list Game.Notification) :
  Game.tick dt ns
  = filter (fun n => negb (snd n <=? F32.of_int 0)%f32) (map (aged dt) ns).
Proof.
  induction ns as [|[text remaining] ns IH]; cbn [Game.tick map filter];
    trivial.
  unfold aged at 1. cbn [fst snd].
  destruct (_ <=? _)%f32; cbn [negb]; now rewrite IH.
Qed.

(** X19: the loop of [UpdateNotifications], which erases while it
    iterates, is a pass that ages every notification by [dt] and then
    retains, in order, those whose time left is not at most 0; texts are
    never changed and nothing else of the game is touched. *)
Theorem UpdateNotifications_retains (dt : float) (g : Game.t) :
  let g' := Game.UpdateNotifications dt g in
  Game.notifications g'
  = filter (fun n => negb (snd n <=? F32.of_int 0)%f32)
           (map (aged dt) (Game.notifications g))
  /\ (forall n', In n' (Game.notifications g') ->
        exists n, In n (Game.notifications g)
                  /\ fst n' = fst n
                  /\ snd n' = (snd n - dt)%f32)
  /\ (length (Game.notifications g') <= length (Game.notifications g))%nat
  /\ Game.with_notifications (Game.notifications g) g' = g.
Proof.
  cbv zeta.
  cbn [Game.UpdateNotifications Game.notifications Game.with_notifications].
  rewrite tick_retains. split; [reflexivity|]. split; [|split].
  - intros n' Hin. apply filter_In in Hin. destruct Hin as [Hin _].
    apply in_map_iff in Hin. destruct Hin as (n & <- & Hin).
    exists n. repeat split. exact Hin.
  - rewrite <- (length_map (aged dt) (Game.notifications g)).
    apply filter_length_le.
  - now destruct g.
Qed.

(** ** Difficulty *)

Lemma reachable_bossesDefeated (g : Game.t) :
  Game.reachable g ->
  0 <= Game.bossesDefeated g
  /\ forall f, Game.state g = PLAYING ->
               Game.bossesDefeated g
               <= Game.bossesDefeated (Game.RunFrame f g).
Proof.
  intros Hr.
  assert (Hstep : forall f g, Game.reachable g -> Game.state g = PLAYING ->
                  Game.bossesDefeated g
                  <= Game.bossesDefeated (Game.RunFrame f g)).
  { clear g Hr. intros f g Hr Hs. unfold Game.RunFrame. rewrite Hs.
    rewrite UpdateGame_steps.
    destruct (Player.IsDead _).
    - destruct (afterPlayer_effect (Game.GetFrameTime f) (Game.KEY_LEFT f)
                  (Game.KEY_RIGHT f) g) as (_ & _ & _ & _ & Hn & _).
      cbn. rewrite Hn. lia.
    - destruct (beforeEnemies_bosses (Game.GetFrameTime f) (Game.KEY_LEFT f)
                  (Game.KEY_RIGHT f) g (reachable_bossGate g Hr))
        as (_ & _ & Hn).
      set (h := beforeEnemies _ _ _ g) in *.
      destruct (UpdateEnemies_effect (Game.GetFrameTime f) h)
        as (_ & _ & _ & Hn5 & _).
      match goal with |- context [Game.CheckCollisions ?k] =>
        destruct (CheckCollisions_effect k)
          as (_ & _ & _ & _ & _ & _ & Hn8 & _)
      end.
      cbv zeta in *. rewrite Hn8. cbn. rewrite Hn5, Hn. lia. }
  split; [|intros f; now apply Hstep].
  induction Hr as [rng|f g Hr IH]; [cbn; lia|].
  destruct (Game.state g) eqn:Hs.
  - specialize (Hstep f g Hr Hs). lia.
  - unfold Game.RunFrame. rewrite Hs.
    destruct (Game.KEY_ENTER f); [cbn; lia|exact IH].
Qed.

(** X20: the difficulty never eases during play.  In every reachable
    state the count of bosses defeated is not negative, a frame of play
    never lowers it, and the tier of the enemies spawned is SIMPLE, MID
    or HARD according as it is 0, 1 or more; only the restart brings it
    back to 0. *)
Theorem difficulty_never_eases (g : Game.t) (f : Game.Frame) :
  Game.reachable g ->
  0 <= Game.bossesDefeated g
  /\ (Game.state g = PLAYING ->
      Game.bossesDefeated g <= Game.bossesDefeated (Game.RunFrame f g))
  /\ (Game.state g = GAME_OVER ->
      Game.bossesDefeated (Game.RunFrame f g)
      = if Game.KEY_ENTER f then 0 else Game.bossesDefeated g)
  /\ tier (Game.bossesDefeated g)
     = (if Game.bossesDefeated g =? 0 then SIMPLE
        else if Game.bossesDefeated g =? 1 then MID else HARD)
  /\ (forall n m, 0 <= n <= m ->
        tier n = HARD -> tier m = HARD)
  /\ (forall n m, 0 <= n <= m -> tier m = SIMPLE -> tier n = SIMPLE).
Proof.
  intros Hr. destruct (reachable_bossesDefeated g Hr) as [H0 Hstep].
  split; [exact H0|]. split; [apply Hstep|]. split; [|split; [reflexivity|]].
  - intros Hs. unfold Game.RunFrame. rewrite Hs.
    now destruct (Game.KEY_ENTER f).
  - split; intros n m Hnm; unfold tier;
      destruct (n =? 0) eqn:Hn0, (n =? 1) eqn:Hn1,
               (m =? 0) eqn:Hm0, (m =? 1) eqn:Hm1;
      try discriminate; try reflexivity; lia.
Qed.

End WellFormed.

(** ** The further properties on concrete games *)

(** The wave shot by the player: an enemy is killed on the thirteenth
    short frame and reaped on the fourteenth, for 10 points and an
    upgrade. *)
Example wave_shot_and_reaped :
  map Enemy.health (Game.enemies dropGame) = [1; 1]
  /\ Game.score dropGame = 10
  /\ map Upgrade.type (Game.upgrades dropGame) = [ATTACK_RANGE]
  /\ Player.health (Game.player dropGame) = 3.
Proof. vm_compute. repeat split. Qed.

Lemma dropGame_reachable : Game.reachable (R := raylib) dropGame.
Proof.
  apply reachable_iter, Game.reachable_frame, Game.reachable_initial.
Qed.

Lemma noticeGame_reachable : Game.reachable (R := raylib) noticeGame.
Proof.
  apply Game.reachable_frame, Game.reachable_frame, Game.reachable_initial.
Qed.

Lemma shotGame_reachable : Game.reachable (R := raylib) shotGame.
Proof. apply Game.reachable_frame, Game.reachable_initial. Qed.

Lemma player_stays_on_screen_witness :
  (x (GameObject.position (Player.base (Game.player dropGame)))
   >? F32.of_int 750)%f32 = false.
Proof.
  exact (proj1 (proj2 (player_stays_on_screen (R := raylib) dropGame
                         dropGame_reachable))).
Defined.

Lemma fire_rate_never_below_floor_witness :
  (Player.fireRate (Game.player dropGame) >=? F32.ratio 1 10)%f32 = true.
Proof.
  exact (fire_rate_never_below_floor (R := raylib) dropGame
           dropGame_reachable).
Defined.

Lemma enemies_as_built_witness :
  Enemy.health (nth 1 (Game.enemies bossGame) deadSimple) <= 7.
Proof.
  refine (proj1 (proj2 (enemies_as_built (R := raylib) bossGame
                          (nth 1 (Game.enemies bossGame) deadSimple)
                          bossGame_reachable _))).
  vm_compute. right. left. reflexivity.
Defined.

Lemma enemies_stay_on_screen_witness :
  (x (Enemy.GetPosition (nth 1 (Game.enemies bossGame) deadSimple))
   >? F32.of_int 680)%f32 = false.
Proof.
  refine (proj2 (enemies_stay_on_screen (R := raylib) bossGame
                   (nth 1 (Game.enemies bossGame) deadSimple)
                   bossGame_reachable _)).
  vm_compute. right. left. reflexivity.
Defined.

Lemma bullets_as_built_witness :
  Bullet.speed (nth 0 (Game.bullets shotGame) (Bullet.new origin false 1))
  = F32.of_int (-500).
Proof.
  refine (proj1 (bullets_as_built (R := raylib) shotGame
                   (nth 0 (Game.bullets shotGame)
                        (Bullet.new origin false 1))
                   shotGame_reachable _)).
  vm_compute. left. reflexivity.
Defined.

Lemma upgrades_all_active_witness :
  Upgrade.active (nth 0 (Game.upgrades dropGame)
                      (Upgrade.new origin HEALTH)) = true.
Proof.
  refine (proj1 (upgrades_all_active (R := raylib) dropGame
                   (nth 0 (Game.upgrades dropGame)
                        (Upgrade.new origin HEALTH))
                   dropGame_reachable _)).
  vm_compute. left. reflexivity.
Defined.

Lemma notifications_all_live_witness :
  In (fst (nth 0 (Game.notifications noticeGame)
               (EmptyString, F32.of_int 0)))
     notices.
Proof.
  refine (proj1 (notifications_all_live (R := raylib) noticeGame
                   (nth 0 (Game.notifications noticeGame)
                        (EmptyString, F32.of_int 0))
                   noticeGame_reachable _)).
  vm_compute. left. reflexivity.
Defined.

Lemma player_bullets_on_screen_witness :
  (y (Bullet.position
        (nth 0 (Game.bullets shotGame) (Bullet.new origin false 1)))
   <? F32.of_int 0)%f32 = false.
Proof.
  refine (proj1 (player_bullets_on_screen (R := raylib) shotGame
                   (nth 0 (Game.bullets shotGame)
                        (Bullet.new origin false 1))
                   shotGame_reachable _ _)).
  - vm_compute. left. reflexivity.
  - vm_compute. reflexivity.
Defined.

Lemma difficulty_never_eases_witness : 0 <= Game.bossesDefeated dropGame.
Proof.
  exact (proj1 (difficulty_never_eases (R := raylib) dropGame
                  (idleFrame (F32.ratio 1 10)) dropGame_reachable)).
Defined.
